(** * Micrograd: the scalar autograd engine of [micrograd_final.py]

    A shallow embedding of class [Value] (the differentiable scalar node, its
    forward operations and its [backward] pass) and the properties of the
    backward algorithm: topological ordering, additive accumulation of
    gradients, the frame of [backward], and agreement of the gradients with
    the derivative.

    Python objects have identity: a [Value] object is a reference into a
    store.  The store is an arena (a list of records); a reference is an
    index, and every [Value(...)] call allocates at the end of the arena.
    The closures assigned to [_backward] are kept in defunctionalised form:
    one constructor per [def _backward] of the source, holding the variables
    the closure captures. *)

From Stdlib Require Import ZArith Floats Ring Reals Lra.
From stdpp Require Import gmap list strings sorting.

Local Open Scope Z_scope.
Local Open Scope nat_scope.

(** ** Exceptions and results *)

(** The exceptions the engine can raise.  [Stuck] is not a Python exception:
    it marks a reference outside the store, which no Python program can
    produce. *)
Inductive exn : Type :=
  | AssertionError (msg : string)
  | ZeroDivisionError
  | OverflowError
  | Stuck.

Inductive result (A : Type) : Type :=
  | Ok (a : A)
  | Raise (e : exn).
Arguments Ok {A} a.
Arguments Raise {A} e.

Definition is_Ok {A} (r : result A) : Prop :=
  match r with Ok _ => True | Raise _ => False end.

(** ** Numbers

    The engine is duck-typed over its scalars: it uses [+], [*], [-], [/],
    [**], [<], [>], [math.exp] and int literals that meet a scalar in mixed
    arithmetic.  [PyNum] is that interface.  [of_int n] is the scalar an int
    [n] becomes when Python converts it for a mixed operation; the float
    literals [0.0] and [1.0] of the source are [of_int 0] and [of_int 1].
    [/], [**] and [math.exp] can raise. *)
Class PyNum (num : Type) : Type := {
  of_int : Z → num;
  nadd : num → num → num;
  nsub : num → num → num;
  nmul : num → num → num;
  nneg : num → num;
  ndiv : num → num → result num;
  npow : num → num → result num;
  math_exp : num → result num;
  nlt : num → num → bool;
  num_str : num → string
}.

(** [a > b] *)
Definition ngt {num : Type} `{!PyNum num} (a b : num) : bool := nlt b a.

(** A [bool] met in arithmetic is the int [1] or [0]. *)
Definition of_bool {num : Type} `{!PyNum num} (b : bool) : num :=
  of_int (if b then 1 else 0)%Z.

(** *** Python floats

    A Python float is an IEEE 754 binary64 number: Rocq's primitive floats.
    [math.exp], the C library's [pow] behind [**], and float formatting
    belong to the platform and are taken as parameters. *)
Class PyRuntime : Type := {
  libm_exp : float → result float;
  libm_pow : float → float → result float;
  float_str : float → string
}.

(** [x / y] on floats: a zero divisor raises. *)
Definition float_div (x y : float) : result float :=
  if (y =? 0)%float then Raise ZeroDivisionError else Ok (x / y)%float.

(** [x ** y] on floats: zero to a negative (finite) power raises
    [ZeroDivisionError] (Python language reference, "The power operator");
    the other cases are the platform's, which may raise [OverflowError].
    A negative base with a fractional exponent gives a [complex] in Python;
    that case is outside this embedding, whose scalars are floats. *)
Definition float_pow `{PyRuntime} (x y : float) : result float :=
  if ((x =? 0) && (y <? 0) && negb (y =? neg_infinity))%float
  then Raise ZeroDivisionError
  else libm_pow x y.

(** The float an int becomes in mixed arithmetic (exact below 2^53, the
    nearest float below 2^63; larger ints are outside this embedding). *)
Definition float_of_int (z : Z) : float :=
  if (z <? 0)%Z then (- PrimFloat.of_uint63 (Uint63.of_Z (- z)))%float
  else PrimFloat.of_uint63 (Uint63.of_Z z).

#[export] Instance float_num `{PyRuntime} : PyNum float := {|
  of_int := float_of_int;
  nadd := PrimFloat.add;
  nsub := PrimFloat.sub;
  nmul := PrimFloat.mul;
  nneg := PrimFloat.opp;
  ndiv := float_div;
  npow := float_pow;
  math_exp := libm_exp;
  nlt := PrimFloat.ltb;
  num_str := float_str
|}.

(** ** The store *)

(** A reference to a [Value] object: its index in the arena. *)
Abbreviation ref := nat (only parsing).

(** A plain Python argument of an operator: a [Value] object or a number
    ([int] or [float]). *)
Inductive pyobj (num : Type) : Type :=
  | PyValue (r : ref)
  | PyNumber (n : num).
Arguments PyValue {num} r.
Arguments PyNumber {num} n.

(** The closures of the source, with the variables each one captures.
    [BNone] is [lambda: None]. *)
Inductive closure (num : Type) : Type :=
  | BNone
  | BAdd (self other out : ref)
  | BMul (self other out : ref)
  | BPow (self : ref) (other : num) (out : ref)
  | BTanh (self : ref) (t : num) (out : ref)
  | BRelu (self out : ref)
  | BExp (self out : ref).
Arguments BNone {num}.
Arguments BAdd {num} self other out.
Arguments BMul {num} self other out.
Arguments BPow {num} self other out.
Arguments BTanh {num} self t out.
Arguments BRelu {num} self out.
Arguments BExp {num} self out.

(** The attributes [__init__] gives a [Value]. *)
Record Value (num : Type) : Type := mkValue {
  data : num;
  grad : num;
  _backward : closure num;
  _prev : gset ref;
  _op : string;
  label : string
}.
Arguments mkValue {num} data grad _backward _prev _op label.
Arguments data {num} v.
Arguments grad {num} v.
Arguments _backward {num} v.
Arguments _prev {num} v.
Arguments _op {num} v.
Arguments label {num} v.

Definition with_grad {num} (g : num) (v : Value num) : Value num :=
  mkValue (data v) g (_backward v) (_prev v) (_op v) (label v).

Definition with_backward {num} (c : closure num) (v : Value num) : Value num :=
  mkValue (data v) (grad v) c (_prev v) (_op v) (label v).

(** A write to a [grad] attribute: [r.grad = v] or [r.grad += d]. *)
Inductive write (num : Type) : Type :=
  | SetGrad (r : ref) (v : num)
  | AddGrad (r : ref) (d : num).
Arguments SetGrad {num} r v.
Arguments AddGrad {num} r d.

(** The order in which iterating a [set] yields its elements: a function of
    the set object (named by the node that owns it) that Python leaves
    unspecified. *)
Definition set_order : Type := ref → gset ref → list ref.

Definition order_valid (iter : set_order) : Prop :=
  ∀ v s, NoDup (iter v s) ∧ ∀ c, c ∈ iter v s ↔ c ∈ s.

(** Two orders a Python run may follow. *)
Definition ascending : set_order := λ _ s, merge_sort le (elements s).
Definition descending : set_order := λ _ s, reverse (merge_sort le (elements s)).

Abbreviation heap num := (list (Value num)) (only parsing).

(** ** Effects

    A computation runs on the store and ends with a result or an exception;
    the store it leaves behind is kept in both cases, as in Python.  The
    writes to [grad] attributes are recorded in the order they happen. *)
Record outcome (num A : Type) : Type := mkOutcome {
  res : result A;
  final : heap num;
  writes : list (write num)
}.
Arguments mkOutcome {num A} res final writes.
Arguments res {num A} o.
Arguments final {num A} o.
Arguments writes {num A} o.

Definition M (num A : Type) : Type := heap num → outcome num A.

#[export] Instance M_ret {num} : MRet (M num) :=
  λ A a h, mkOutcome (Ok a) h [].

#[export] Instance M_bind {num} : MBind (M num) :=
  λ A B k m h,
    let o := m h in
    match res o with
    | Ok a => let o' := k a (final o) in
              mkOutcome (res o') (final o') (writes o ++ writes o')
    | Raise e => mkOutcome (Raise e) (final o) (writes o)
    end.

Definition raise {num A} (e : exn) : M num A :=
  λ h, mkOutcome (Raise e) h [].

Definition lift {num A} (r : result A) : M num A :=
  match r with Ok a => mret a | Raise e => raise e end.

(** [for x in l: body(x)] *)
Fixpoint for_each {num A} (l : list A) (body : A → M num unit) : M num unit :=
  match l with
  | [] => mret tt
  | x :: l' => body x ;; for_each l' body
  end.

Section Engine.
Context {num : Type} `{!PyNum num}.

(** Reading an attribute of the object [r]. *)
Definition getattr {A} (f : Value num → A) (r : ref) : M num A :=
  λ h, match h !! r with
       | Some v => mkOutcome (Ok (f v)) h []
       | None => mkOutcome (Raise Stuck) h []
       end.

(** [r.grad = g] *)
Definition set_grad (r : ref) (g : num) : M num unit :=
  λ h, match h !! r with
       | Some v => mkOutcome (Ok tt) (<[r := with_grad g v]> h) [SetGrad r g]
       | None => mkOutcome (Raise Stuck) h []
       end.

(** [r.grad += d] *)
Definition iadd_grad (r : ref) (d : num) : M num unit :=
  λ h, match h !! r with
       | Some v => mkOutcome (Ok tt)
                     (<[r := with_grad (nadd (grad v) d) v]> h) [AddGrad r d]
       | None => mkOutcome (Raise Stuck) h []
       end.

(** [r._backward = c] *)
Definition set_backward (r : ref) (c : closure num) : M num unit :=
  λ h, match h !! r with
       | Some v => mkOutcome (Ok tt) (<[r := with_backward c v]> h) []
       | None => mkOutcome (Raise Stuck) h []
       end.

(** [Value(data, _children, _op)]: a new object at the end of the arena. *)
Definition __init__ (data : num) (_children : list ref) (_op : string)
  : M num ref :=
  λ h, mkOutcome (Ok (length h))
         (h ++ [mkValue data (of_int 0) BNone (list_to_set _children) _op ""])
         [].

(** [other if isinstance(other, Value) else Value(other)] *)
Definition as_Value (other : pyobj num) : M num ref :=
  match other with
  | PyValue r => mret r
  | PyNumber n => __init__ n [] ""
  end.

(** *** Forward operations *)

Definition __add__ (self : ref) (other : pyobj num) : M num ref :=
  other ← as_Value other;
  a ← getattr data self;
  b ← getattr data other;
  out ← __init__ (nadd a b) [self; other] "+";
  set_backward out (BAdd self other out);;
  mret out.

Definition __radd__ (self : ref) (other : pyobj num) : M num ref :=
  __add__ self other.

Definition __mul__ (self : ref) (other : pyobj num) : M num ref :=
  other ← as_Value other;
  a ← getattr data self;
  b ← getattr data other;
  out ← __init__ (nmul a b) [self; other] "*";
  set_backward out (BMul self other out);;
  mret out.

Definition __rmul__ (self : ref) (other : pyobj num) : M num ref :=
  __mul__ self other.

Definition __pow__ (self : ref) (other : pyobj num) : M num ref :=
  match other with
  | PyValue _ => raise (AssertionError "only supports int/float powers")
  | PyNumber n =>
      a ← getattr data self;
      d ← lift (npow a n);
      out ← __init__ d [self] ("**" +:+ num_str n);
      set_backward out (BPow self n out);;
      mret out
  end.

Definition __neg__ (self : ref) : M num ref :=
  __mul__ self (PyNumber (of_int (-1))).

(** [-other] for a plain argument *)
Definition neg_obj (other : pyobj num) : M num (pyobj num) :=
  match other with
  | PyValue r => n ← __neg__ r; mret (PyValue n)
  | PyNumber n => mret (PyNumber (nneg n))
  end.

Definition __sub__ (self : ref) (other : pyobj num) : M num ref :=
  o ← neg_obj other;
  __add__ self o.

(** [other + (-self)], [other] a number: the sum is [(-self).__radd__(other)] *)
Definition __rsub__ (self : ref) (other : num) : M num ref :=
  n ← __neg__ self;
  __radd__ n (PyNumber other).

(** [other**-1] for a plain argument *)
Definition inv_obj (other : pyobj num) : M num (pyobj num) :=
  match other with
  | PyValue r => p ← __pow__ r (PyNumber (of_int (-1))); mret (PyValue p)
  | PyNumber n => p ← lift (npow n (of_int (-1))); mret (PyNumber p)
  end.

Definition __truediv__ (self : ref) (other : pyobj num) : M num ref :=
  o ← inv_obj other;
  __mul__ self o.

Definition __rtruediv__ (self : ref) (other : num) : M num ref :=
  p ← __pow__ self (PyNumber (of_int (-1)));
  __rmul__ p (PyNumber other).

Definition tanh (self : ref) : M num ref :=
  x ← getattr data self;
  e1 ← lift (math_exp (nmul (of_int 2) x));
  e2 ← lift (math_exp (nmul (of_int 2) x));
  t ← lift (ndiv (nsub e1 (of_int 1)) (nadd e2 (of_int 1)));
  out ← __init__ t [self] "tanh";
  set_backward out (BTanh self t out);;
  mret out.

Definition relu (self : ref) : M num ref :=
  x ← getattr data self;
  out ← __init__ (if nlt x (of_int 0) then of_int 0 else x) [self] "ReLU";
  set_backward out (BRelu self out);;
  mret out.

Definition exp (self : ref) : M num ref :=
  x ← getattr data self;
  e ← lift (math_exp x);
  out ← __init__ e [self] "exp";
  set_backward out (BExp self out);;
  mret out.

(** *** The backward rules: calling a closure *)

Definition call (c : closure num) : M num unit :=
  match c with
  | BNone => mret tt
  | BAdd self other out =>
      g ← getattr grad out;
      iadd_grad self g;;
      g ← getattr grad out;
      iadd_grad other g
  | BMul self other out =>
      b ← getattr data other;
      g ← getattr grad out;
      iadd_grad self (nmul b g);;
      a ← getattr data self;
      g ← getattr grad out;
      iadd_grad other (nmul a g)
  | BPow self other out =>
      a ← getattr data self;
      p ← lift (npow a (nsub other (of_int 1)));
      g ← getattr grad out;
      iadd_grad self (nmul (nmul other p) g)
  | BTanh self t out =>
      t2 ← lift (npow t (of_int 2));
      g ← getattr grad out;
      iadd_grad self (nmul (nsub (of_int 1) t2) g)
  | BRelu self out =>
      d ← getattr data out;
      g ← getattr grad out;
      iadd_grad self (nmul (of_bool (ngt d (of_int 0))) g)
  | BExp self out =>
      d ← getattr data out;
      g ← getattr grad out;
      iadd_grad self (nmul d g)
  end.

(** *** The backward pass *)

Section Backward.
Variable iter : set_order.

(** [build_topo(v)], on the pair of [visited] and [topo].  The recursion
    of the source is bounded by giving it fuel; [None] is running out of
    fuel or meeting a reference outside the store.  The depth of the
    recursion is at most the number of objects, so the fuel [backward]
    gives is enough ([topo_order_returns]); the recursion limit of the
    Python interpreter is not part of the embedding. *)
Fixpoint build_topo (fuel : nat) (h : heap num) (v : ref)
    (st : gset ref * list ref) : option (gset ref * list ref) :=
  match fuel with
  | 0 => None
  | S fuel' =>
      if decide (v ∈ st.1) then Some st
      else
        vr ← h !! v;
        st' ← foldl (λ acc child, acc ≫= build_topo fuel' h child)
                    (Some ({[v]} ∪ st.1, st.2)) (iter v (_prev vr));
        Some (st'.1, st'.2 ++ [v])
  end.

(** The list [topo] that [backward] builds from [self]. *)
Definition topo_order (h : heap num) (self : ref) : option (list ref) :=
  snd <$> build_topo (S (length h)) h self (∅, []).

Definition backward (self : ref) : M num unit :=
  λ h, match topo_order h self with
       | None => raise Stuck h
       | Some topo =>
           (set_grad self (of_int 1);;
            for_each (reverse topo)
              (λ node, c ← getattr _backward node; call c)) h
       end.
End Backward.
End Engine.

(** * Properties *)

(** ** The frame of the backward pass *)

Section Frame.
Context {num : Type} `{!PyNum num}.

(** [v'] is [v] up to its [grad] attribute. *)
Definition same_but_grad (v v' : Value num) : Prop :=
  data v' = data v ∧ _backward v' = _backward v ∧ _prev v' = _prev v ∧
  _op v' = _op v ∧ label v' = label v.

(** The store [h'] has the objects of [h], changed at most in [grad]. *)
Definition grad_frame (h h' : heap num) : Prop :=
  Forall2 same_but_grad h h'.

(** A computation that writes nothing but [grad] attributes. *)
Definition writes_grad_only {A} (m : M num A) : Prop :=
  ∀ h, grad_frame h (final (m h)).

Lemma same_but_grad_refl v : same_but_grad v v.
Proof. by repeat split. Qed.

Lemma same_but_grad_trans v1 v2 v3 :
  same_but_grad v1 v2 → same_but_grad v2 v3 → same_but_grad v1 v3.
Proof.
  intros (?&?&?&?&?) (?&?&?&?&?). repeat split; congruence.
Qed.

Lemma grad_frame_refl h : grad_frame h h.
Proof. apply Forall2_same_length_lookup. split; [done|].
  intros i x y ? ?. simplify_eq. apply same_but_grad_refl. Qed.

Lemma grad_frame_trans h1 h2 h3 :
  grad_frame h1 h2 → grad_frame h2 h3 → grad_frame h1 h3.
Proof.
  unfold grad_frame. intros H1 H2.
  eapply Forall2_trans; [| exact H1 | exact H2].
  intros x y z. apply same_but_grad_trans.
Qed.

Lemma grad_frame_with_grad h r v g :
  h !! r = Some v → grad_frame h (<[r := with_grad g v]> h).
Proof.
  intros Hr. apply Forall2_same_length_lookup. split.
  - by rewrite length_insert.
  - intros i x y Hx Hy. destruct (decide (i = r)) as [->|Hne].
    + rewrite list_lookup_insert_eq in Hy by (by eapply lookup_lt_Some).
      simplify_eq. by repeat split.
    + rewrite list_lookup_insert_ne in Hy by done.
      simplify_eq. apply same_but_grad_refl.
Qed.

Lemma grad_frame_length h h' : grad_frame h h' → length h' = length h.
Proof. intros Hf. symmetry. by eapply Forall2_length. Qed.

Lemma grad_frame_lookup h h' i v :
  grad_frame h h' → h !! i = Some v →
  ∃ v', h' !! i = Some v' ∧ same_but_grad v v'.
Proof. intros Hf Hi. by eapply Forall2_lookup_l. Qed.

Lemma grad_frame_lookup_r h h' i v' :
  grad_frame h h' → h' !! i = Some v' →
  ∃ v, h !! i = Some v ∧ same_but_grad v v'.
Proof. intros Hf Hi. by eapply Forall2_lookup_r. Qed.

Lemma wgo_ret {A} (a : A) : writes_grad_only (mret a).
Proof. intros h. apply grad_frame_refl. Qed.

Lemma wgo_raise {A} e : writes_grad_only (raise (A := A) e).
Proof. intros h. apply grad_frame_refl. Qed.

Lemma wgo_lift {A} (r : result A) : writes_grad_only (lift r).
Proof. destruct r; [apply wgo_ret | apply wgo_raise]. Qed.

Lemma wgo_bind {A B} (m : M num A) (k : A → M num B) :
  writes_grad_only m → (∀ a, writes_grad_only (k a)) →
  writes_grad_only (m ≫= k).
Proof.
  intros Hm Hk h. unfold mbind, M_bind. specialize (Hm h).
  destruct (res (m h)) as [a|e]; simpl; [|done].
  eapply grad_frame_trans; [exact Hm | apply Hk].
Qed.

Lemma wgo_getattr {A} (f : Value num → A) r : writes_grad_only (getattr f r).
Proof. intros h. unfold getattr. destruct (h !! r); apply grad_frame_refl. Qed.

Lemma wgo_set_grad r g : writes_grad_only (set_grad r g).
Proof.
  intros h. unfold set_grad. destruct (h !! r) eqn:Hr; simpl.
  - by apply grad_frame_with_grad.
  - apply grad_frame_refl.
Qed.

Lemma wgo_iadd_grad r d : writes_grad_only (iadd_grad r d).
Proof.
  intros h. unfold iadd_grad. destruct (h !! r) eqn:Hr; simpl.
  - by apply grad_frame_with_grad.
  - apply grad_frame_refl.
Qed.

Lemma wgo_for_each {A} (l : list A) (body : A → M num unit) :
  (∀ x, writes_grad_only (body x)) → writes_grad_only (for_each l body).
Proof.
  intros Hb. induction l as [|x l IH]; simpl.
  - apply wgo_ret.
  - apply wgo_bind; [apply Hb | intros _; apply IH].
Qed.

Lemma wgo_call c : writes_grad_only (call c).
Proof.
  destruct c; simpl;
    repeat first [ apply wgo_ret | apply wgo_getattr | apply wgo_iadd_grad
                 | apply wgo_lift | apply wgo_bind | intros ? ].
Qed.

Lemma wgo_backward iter self : writes_grad_only (backward iter self).
Proof.
  intros h. unfold backward. destruct (topo_order iter h self) as [topo|].
  - apply wgo_bind; [apply wgo_set_grad | intros _].
    apply wgo_for_each. intros node.
    apply wgo_bind; [apply wgo_getattr | intros c; apply wgo_call].
  - apply grad_frame_refl.
Qed.

(** C10: [backward] never modifies the value or the operand collection of
    any node (nor its rule, operation tag or label): whether the call
    returns or raises, the store it leaves has the same objects, equal to
    the ones at entry in every attribute except [grad]. *)
Theorem backward_writes_only_gradients iter (self : ref) (h : heap num) :
  let h' := final (backward iter self h) in
  length h' = length h ∧
  ∀ i v, h !! i = Some v →
    ∃ v', h' !! i = Some v' ∧
      data v' = data v ∧ _prev v' = _prev v ∧ _backward v' = _backward v ∧
      _op v' = _op v ∧ label v' = label v.
Proof.
  intros h'. pose proof (wgo_backward iter self h) as Hf. fold h' in Hf.
  split; [by apply grad_frame_length|].
  intros i v Hi. destruct (grad_frame_lookup _ _ _ _ Hf Hi) as (v'&Hv'&Hs).
  exists v'. destruct Hs as (?&?&?&?&?). eauto 10.
Qed.
End Frame.

(** ** The topological ordering *)

Section Graph.
Context {num : Type}.

(** [c] is an operand of [v]. *)
Definition operand (h : heap num) (c v : ref) : Prop :=
  ∃ vr, h !! v = Some vr ∧ c ∈ _prev vr.

(** [u] is reached from [r] by following operands. *)
Definition reachable (h : heap num) (r u : ref) : Prop :=
  rtc (λ x y, operand h y x) r u.

(** Every operand is an object of the store. *)
Definition closed (h : heap num) : Prop :=
  ∀ c v, operand h c v → c < length h.

(** No node is reached from itself through one or more operand edges:
    the nodes can be ranked so that operands rank lower. *)
Definition acyclic (h : heap num) : Prop :=
  ∃ rank : ref → nat, ∀ c v, operand h c v → rank c < rank v.

(** [a] occurs in [l] at a position strictly before one of [b]. *)
Definition before (l : list ref) (a b : ref) : Prop :=
  ∃ i j, l !! i = Some a ∧ l !! j = Some b ∧ i < j.

Lemma before_app_l l k a b : before l a b → before (l ++ k) a b.
Proof.
  intros (i & j & Hi & Hj & Hlt). exists i, j.
  split_and!; [by apply lookup_app_l_Some | by apply lookup_app_l_Some | done].
Qed.

Lemma before_snoc l a b : a ∈ l → before (l ++ [b]) a b.
Proof.
  intros Ha. apply list_elem_of_lookup in Ha as [i Hi].
  exists i, (length l). split_and!.
  - by apply lookup_app_l_Some.
  - by rewrite list_lookup_middle.
  - by eapply lookup_lt_Some.
Qed.

Lemma before_elem_of_l l a b : before l a b → a ∈ l.
Proof. intros (i & j & Hi & _). by eapply list_elem_of_lookup_2. Qed.

Lemma reachable_step h r u c :
  reachable h r u → operand h c u → reachable h r c.
Proof. intros Hr Hc. eapply rtc_r; [exact Hr | exact Hc]. Qed.

Lemma reachable_operand h v c u :
  operand h c v → reachable h c u → reachable h v u.
Proof. intros Hc Hr. eapply rtc_l; [exact Hc | exact Hr]. Qed.
End Graph.

Section Topo.
Context {num : Type} `{!PyNum num}.
Variable iter : set_order.
Hypothesis iter_valid : order_valid iter.
Variable h : heap num.

(** The loop [for child in v._prev: build_topo(child)]. *)
Local Abbreviation visit_children fuel :=
  (foldl (λ acc child, acc ≫= build_topo iter fuel h child)).

Lemma visit_children_None fuel cs : visit_children fuel None cs = None.
Proof. induction cs; simpl; auto. Qed.

Lemma build_topo_unfold fuel v st :
  build_topo iter (S fuel) h v st =
    if decide (v ∈ st.1) then Some st
    else vr ← h !! v;
         st' ← visit_children fuel (Some ({[v]} ∪ st.1, st.2)) (iter v (_prev vr));
         Some (st'.1, st'.2 ++ [v]).
Proof. reflexivity. Qed.

Lemma iter_elem_of v vr c :
  h !! v = Some vr → c ∈ iter v (_prev vr) → operand h c v.
Proof.
  intros Hv Hc. exists vr. split; [done|].
  by apply (iter_valid v (_prev vr)).
Qed.

(** *** The traversal returns

    Every call marks a node that was not marked, so the depth of the
    recursion is bounded by the number of unmarked nodes. *)

Local Abbreviation unmarked vis := (size (set_seq 0 (length h) ∖ vis : gset ref)).

Lemma unmarked_mono (vis vis' : gset ref) :
  vis ⊆ vis' → unmarked vis' ≤ unmarked vis.
Proof. intros Hs. apply subseteq_size. set_solver. Qed.

Lemma unmarked_mark (vis : gset ref) v :
  v < length h → v ∉ vis → unmarked ({[v]} ∪ vis) < unmarked vis.
Proof.
  intros Hv Hn. apply subset_size. split; [set_solver|].
  intros Hs. assert (v ∈ (set_seq 0 (length h) ∖ vis : gset ref)) as Hin.
  { apply elem_of_difference. split; [|done]. apply elem_of_set_seq. lia. }
  apply Hs in Hin. set_solver.
Qed.

Lemma build_topo_returns fuel :
  closed h →
  ∀ v st, v < length h → unmarked st.1 < fuel →
    ∃ st', build_topo iter fuel h v st = Some st' ∧ st.1 ⊆ st'.1.
Proof.
  intros Hcl. induction fuel as [|fuel IH]; intros v st Hv Hfuel; [lia|].
  rewrite build_topo_unfold. case_decide as Hnin.
  { exists st. split; [done|set_solver]. }
  destruct (lookup_lt_is_Some_2 h v Hv) as [vr Hvr]. rewrite Hvr. simpl.
  assert (Hloop : ∀ cs st1,
    (∀ c, c ∈ cs → c < length h) → unmarked st1.1 < fuel →
    ∃ st2, visit_children fuel (Some st1) cs = Some st2 ∧ st1.1 ⊆ st2.1).
  { induction cs as [|c cs IHcs]; intros st1 Hcs Hst1; simpl.
    - exists st1. split; [done|set_solver].
    - destruct (IH c st1) as (st2 & -> & Hsub); [apply Hcs; left|done|].
      destruct (IHcs st2) as (st3 & -> & Hsub').
      + intros c' Hc'. apply Hcs. by right.
      + eapply Nat.le_lt_trans; [by apply unmarked_mono|done].
      + exists st3. split; [done|]. set_solver. }
  destruct (Hloop (iter v (_prev vr)) ({[v]} ∪ st.1, st.2)) as (st2 & -> & Hsub).
  - intros c Hc. eapply Hcl, iter_elem_of; eauto.
  - simpl. pose proof (unmarked_mark st.1 v Hv Hnin). lia.
  - simpl. eexists. split; [done|]. simpl in *. set_solver.
Qed.

Lemma topo_order_returns self :
  closed h → self < length h → is_Some (topo_order iter h self).
Proof.
  intros Hcl Hself. unfold topo_order.
  destruct (build_topo_returns (S (length h)) Hcl self (∅, [])) as (st' & -> & _).
  - done.
  - simpl. rewrite difference_empty_L, size_set_seq. lia.
  - by eexists.
Qed.

(** *** The traversal builds a topological order *)

(** What holds of [visited] and [topo] between two calls. *)
Record topo_inv (st : gset ref * list ref) : Prop := {
  inv_nodup : NoDup st.2;
  inv_marked : ∀ u, u ∈ st.2 → u ∈ st.1;
  inv_before : ∀ u c, u ∈ st.2 → operand h c u → before st.2 c u
}.

(** What a call (or a loop of calls) below [v] adds to the state. *)
Definition grows (v : ref) (st st' : gset ref * list ref) (new : list ref) : Prop :=
  st'.2 = st.2 ++ new ∧ st'.1 = st.1 ∪ list_to_set new ∧
  (∀ u, u ∈ new → u ∉ st.1) ∧ (∀ u, u ∈ new → reachable h v u).

Lemma grows_stack v st st' new u :
  topo_inv st → grows v st st' new → u ∈ st'.1 → u ∉ st'.2 → u ∈ st.1 ∧ u ∉ st.2.
Proof.
  intros Hinv (H2 & H1 & _ & _) Hu1 Hu2. rewrite H1 in Hu1. rewrite H2 in Hu2.
  rewrite elem_of_app in Hu2. rewrite elem_of_union, elem_of_list_to_set in Hu1.
  naive_solver.
Qed.

Section Ranked.
Variable rank : ref → nat.
Hypothesis rank_lt : ∀ c v, operand h c v → rank c < rank v.

Lemma build_topo_spec fuel :
  ∀ v st st', build_topo iter fuel h v st = Some st' →
    topo_inv st → (∀ u, u ∈ st.1 → u ∉ st.2 → rank v < rank u) →
    topo_inv st' ∧ ∃ new, grows v st st' new ∧ (v ∉ st.1 → v ∈ new).
Proof.
  induction fuel as [|fuel IH]; intros v st st' Hrun Hinv Hstack; [done|].
  rewrite build_topo_unfold in Hrun. case_decide as Hv.
  { simplify_eq. split; [done|]. exists []. split; [|done].
    unfold grows. rewrite app_nil_r. split_and!; [done|set_solver|set_solver|set_solver]. }
  destruct (h !! v) as [vr|] eqn:Hvr; [simpl in Hrun|done].
  assert (Hloop : ∀ cs st1 st2,
    visit_children fuel (Some st1) cs = Some st2 →
    topo_inv st1 → (∀ c, c ∈ cs → operand h c v) →
    (∀ u, u ∈ st1.1 → u ∉ st1.2 → rank v ≤ rank u) →
    topo_inv st2 ∧ ∃ new, grows v st1 st2 new ∧ ∀ c, c ∈ cs → c ∈ st2.2).
  { induction cs as [|c cs IHcs]; intros st1 st2 Hl Hinv1 Hcs Hst1; simpl in Hl.
    - simplify_eq. split; [done|]. exists []. split; [|set_solver].
      unfold grows. rewrite app_nil_r. split_and!; [done|set_solver|set_solver|set_solver].
    - destruct (build_topo iter fuel h c st1) as [stc|] eqn:Hc;
        [|by rewrite visit_children_None in Hl].
      assert (operand h c v) as Hop by (apply Hcs; left).
      pose proof (rank_lt _ _ Hop) as Hrk.
      destruct (IH _ _ _ Hc Hinv1) as (Hinvc & newc & Hgc & Hcnew).
      { intros u Hu1 Hu2. specialize (Hst1 u Hu1 Hu2). lia. }
      destruct (IHcs _ _ Hl Hinvc) as (Hinv2 & news & Hgs & Hcsin).
      { intros c' Hc'. apply Hcs. by right. }
      { intros u Hu1 Hu2.
        destruct (grows_stack _ _ _ _ u Hinv1 Hgc Hu1 Hu2). by apply Hst1. }
      split; [done|]. exists (newc ++ news).
      destruct Hgc as (Hc2 & Hc1 & Hcf & Hcr), Hgs as (Hs2 & Hs1 & Hsf & Hsr).
      split.
      + unfold grows. split_and!.
        * by rewrite Hs2, Hc2, app_assoc.
        * rewrite Hs1, Hc1, list_to_set_app_L. set_solver.
        * intros u [Hu|Hu]%elem_of_app; [by apply Hcf|].
          apply Hsf in Hu. rewrite Hc1 in Hu. set_solver.
        * intros u [Hu|Hu]%elem_of_app; [|by apply Hsr].
          eapply reachable_operand; [exact Hop|by apply Hcr].
      + intros c' [Heq|Hc']%elem_of_cons; [subst c'|by apply Hcsin].
        rewrite Hs2. apply elem_of_app. left.
        destruct (decide (c ∈ st1.1)) as [Hin|Hnin].
        * destruct (decide (c ∈ st1.2)) as [Hint|Hnint].
          { rewrite Hc2. apply elem_of_app. by left. }
          specialize (Hst1 c Hin Hnint). lia.
        * rewrite Hc2. apply elem_of_app. right. by apply Hcnew. }
  destruct (visit_children fuel (Some ({[v]} ∪ st.1, st.2)) (iter v (_prev vr)))
    as [st2|] eqn:Hl; [simpl in Hrun; simplify_eq|done].
  destruct Hinv as [Hnd Hmk Hbf].
  destruct (Hloop _ _ _ Hl) as ([Hnd2 Hmk2 Hbf2] & new & (H2 & H1 & Hf & Hr) & Hcs).
  { split; simpl; [done|set_solver|done]. }
  { intros c Hc. by eapply iter_elem_of. }
  { simpl. intros u [Hu|Hu]%elem_of_union Hu2.
    - apply elem_of_singleton in Hu. by subst.
    - specialize (Hstack u Hu Hu2). lia. }
  simpl in *.
  assert (v ∉ st2.2) as Hvnot.
  { rewrite H2. intros [Hin|Hin]%elem_of_app.
    - by apply Hv, Hmk.
    - apply Hf in Hin. set_solver. }
  split.
  - split; simpl.
    + apply NoDup_app. split_and!; [done| |apply NoDup_singleton].
      intros u Hu ->%list_elem_of_singleton. done.
    + intros u [Hu| ->%list_elem_of_singleton]%elem_of_app; [by apply Hmk2|].
      rewrite H1. set_solver.
    + intros u c [Hu| ->%list_elem_of_singleton]%elem_of_app Hop.
      * apply before_app_l. by apply Hbf2.
      * apply before_snoc, Hcs. destruct Hop as (vr' & Hvr' & Hc).
        simplify_eq. by apply (iter_valid v (_prev vr)).
  - exists (new ++ [v]). split; [|set_solver].
    unfold grows. simpl. split_and!.
    + by rewrite H2, app_assoc.
    + rewrite H1, list_to_set_app_L. set_solver.
    + intros u [Hu| ->%list_elem_of_singleton]%elem_of_app; [|done].
      apply Hf in Hu. set_solver.
    + intros u [Hu| ->%list_elem_of_singleton]%elem_of_app; [by apply Hr|].
      apply rtc_refl.
Qed.
End Ranked.

(** The root is marked first and appended last. *)
Lemma topo_order_last self topo :
  topo_order iter h self = Some topo → ∃ rest, topo = rest ++ [self].
Proof.
  unfold topo_order. rewrite build_topo_unfold. simpl.
  case_decide as Hin; [set_solver|].
  destruct (h !! self) as [vr|]; cbn; [|done].
  destruct (visit_children _ _ _) as [st|]; cbn; [|done].
  intros ?. simplify_eq. by exists st.2.
Qed.

Lemma topo_order_spec self topo :
  acyclic h → topo_order iter h self = Some topo →
  NoDup topo ∧ (∀ u, u ∈ topo ↔ reachable h self u) ∧
  (∀ c v, v ∈ topo → operand h c v → before topo c v).
Proof.
  intros [rank Hrank] Hrun. unfold topo_order in Hrun.
  destruct (build_topo _ _ _ _ _) as [st|] eqn:Hst; [|done].
  simpl in Hrun. simplify_eq.
  destruct (build_topo_spec rank Hrank _ _ _ _ Hst) as ([Hnd Hmk Hbf] & new & Hg & Hin).
  { split; simpl; [apply NoDup_nil_2|set_solver|set_solver]. }
  { set_solver. }
  destruct Hg as (H2 & H1 & Hf & Hr). simpl in *.
  split_and!; [done| |intros c v; apply Hbf].
  intros u. split; [rewrite H2; by apply Hr|].
  intros Hu. unfold reachable in Hu. revert u Hu. apply rtc_ind_r.
  - rewrite H2. apply Hin. set_solver.
  - intros y z _ Hyz IHr. eapply before_elem_of_l, Hbf; [exact IHr|exact Hyz].
Qed.
End Topo.

(** The arena discipline: the objects a node is built from are allocated
    before it.  It holds of every store the operations build, and makes the
    store closed and acyclic. *)
Definition arena_ordered {num} (h : heap num) : Prop :=
  ∀ i vr, h !! i = Some vr → set_Forall (λ c, c < i) (_prev vr).

#[export] Instance arena_ordered_dec {num} (h : heap num) :
  Decision (arena_ordered h).
Proof.
  refine (cast_if (decide (Forall (λ p, set_Forall (λ c, c < p.1) (_prev p.2))
                             (imap pair h))));
    unfold arena_ordered; rewrite Forall_lookup in *.
  - intros i vr Hi. apply (f i (i, vr)).
    by rewrite list_lookup_imap, Hi.
  - intros Hall. apply n. intros i [j vr] Hi.
    rewrite list_lookup_imap in Hi.
    destruct (h !! i) as [vr'|] eqn:Hvr; simplify_eq/=. by eapply Hall.
Defined.

Lemma arena_ordered_operand {num} (h : heap num) c v :
  arena_ordered h → operand h c v → c < v.
Proof. intros Ha (vr & Hv & Hc). by apply (Ha v vr Hv). Qed.

Lemma arena_ordered_closed {num} (h : heap num) : arena_ordered h → closed h.
Proof.
  intros Ha c v Hop. pose proof (arena_ordered_operand h c v Ha Hop).
  destruct Hop as (vr & Hv & _). apply lookup_lt_Some in Hv. lia.
Qed.

Lemma arena_ordered_acyclic {num} (h : heap num) : arena_ordered h → acyclic h.
Proof. intros Ha. exists (λ i, i). intros c v. by apply arena_ordered_operand. Qed.

Lemma ascending_valid : order_valid ascending.
Proof.
  intros v s. unfold ascending. split.
  - rewrite merge_sort_Permutation. apply NoDup_elements.
  - intros c. by rewrite merge_sort_Permutation, elem_of_elements.
Qed.

Lemma descending_valid : order_valid descending.
Proof.
  intros v s. unfold descending. split.
  - rewrite reverse_Permutation, merge_sort_Permutation. apply NoDup_elements.
  - intros c. by rewrite elem_of_reverse, merge_sort_Permutation, elem_of_elements.
Qed.

(** C3: on an acyclic graph the list [topo] that [backward] builds from the
    root exists, holds every node reachable from the root exactly once, and
    places every operand strictly before every node that consumes it.
    Membership in [visited] is by reference: two distinct objects with equal
    attributes are both listed. *)
Theorem topo_order_topological {num} (iter : set_order) (h : heap num) (self : ref) :
  order_valid iter → closed h → acyclic h → self < length h →
  ∃ topo, topo_order iter h self = Some topo ∧
    NoDup topo ∧
    (∀ u, u ∈ topo ↔ reachable h self u) ∧
    (∀ c v, v ∈ topo → operand h c v → before topo c v) ∧
    (∀ u u', reachable h self u → reachable h self u' → u ≠ u' →
       h !! u = h !! u' → u ∈ topo ∧ u' ∈ topo).
Proof.
  intros Hiter Hcl Hac Hself.
  destruct (topo_order_returns iter Hiter h self Hcl Hself) as [topo Htopo].
  exists topo. split; [done|].
  destruct (topo_order_spec iter Hiter h self topo Hac Htopo) as (Hnd & Hreach & Hbf).
  split_and!; [done|done|done|].
  intros u u' Hu Hu' _ _. split; by apply Hreach.
Qed.

(** ** Running the operations *)

Section Run.
Context {num : Type} `{!PyNum num}.

Lemma run_bind {A B} (m : M num A) (k : A → M num B) h :
  (m ≫= k) h =
    match res (m h) with
    | Ok a => mkOutcome (res (k a (final (m h)))) (final (k a (final (m h))))
                (writes (m h) ++ writes (k a (final (m h))))
    | Raise e => mkOutcome (Raise e) (final (m h)) (writes (m h))
    end.
Proof. reflexivity. Qed.

Lemma run_bind_Ok {A B} (m : M num A) (k : A → M num B) h a h1 w :
  m h = mkOutcome (Ok a) h1 w →
  (m ≫= k) h = mkOutcome (res (k a h1)) (final (k a h1)) (w ++ writes (k a h1)).
Proof. intros Hm. rewrite run_bind, Hm. reflexivity. Qed.

Lemma run_bind_Raise {A B} (m : M num A) (k : A → M num B) h e h1 w :
  m h = mkOutcome (Raise e) h1 w → (m ≫= k) h = mkOutcome (Raise e) h1 w.
Proof. intros Hm. rewrite run_bind, Hm. reflexivity. Qed.

Lemma run_bind_pure {A B} (m : M num A) (k : A → M num B) h a :
  m h = mkOutcome (Ok a) h [] → (m ≫= k) h = k a h.
Proof. intros Hm. rewrite run_bind, Hm. simpl. by destruct (k a h). Qed.

Lemma run_getattr {A} (f : Value num → A) r h v :
  h !! r = Some v → getattr f r h = mkOutcome (Ok (f v)) h [].
Proof. intros Hr. unfold getattr. by rewrite Hr. Qed.

Lemma run_getattr_bind {A B} (f : Value num → A) (k : A → M num B) r h v :
  h !! r = Some v → (getattr f r ≫= k) h = k (f v) h.
Proof. intros Hr. apply run_bind_pure. by apply run_getattr. Qed.

Lemma run_ret_bind {A B} (a : A) (k : A → M num B) h :
  (mret a ≫= k) h = k a h.
Proof. by apply run_bind_pure. Qed.

Lemma run_lift_bind {A B} (a : A) (k : A → M num B) h :
  (lift (Ok a) ≫= k) h = k a h.
Proof. by apply run_bind_pure. Qed.

Lemma list_insert_snoc {A} (l : list A) (x y : A) :
  <[length l := y]> (l ++ [x]) = l ++ [y].
Proof.
  rewrite insert_app_r_alt by lia. by rewrite Nat.sub_diag.
Qed.

(** The end of every operation: allocate [out], attach its rule. *)
Lemma run_new_node d cs op (c : ref → closure num) h :
  (out ← __init__ d cs op; set_backward out (c out);; mret out) h =
    mkOutcome (Ok (length h))
      (h ++ [mkValue d (of_int 0) (c (length h)) (list_to_set cs) op ""]) [].
Proof.
  rewrite run_bind. unfold __init__ at 1 2 3. simpl.
  rewrite run_bind. unfold set_backward.
  rewrite list_lookup_middle by done. simpl.
  by rewrite list_insert_snoc.
Qed.

Lemma run_add self other h va vb :
  h !! self = Some va → h !! other = Some vb →
  __add__ self (PyValue other) h =
    mkOutcome (Ok (length h))
      (h ++ [mkValue (nadd (data va) (data vb)) (of_int 0)
               (BAdd self other (length h)) (list_to_set [self; other]) "+" ""]) [].
Proof.
  intros Ha Hb. unfold __add__. simpl. rewrite run_ret_bind.
  rewrite (run_getattr_bind _ _ _ _ _ Ha), (run_getattr_bind _ _ _ _ _ Hb).
  by rewrite run_new_node.
Qed.

Lemma run_add_number self (n : num) h va :
  h !! self = Some va →
  __add__ self (PyNumber n) h =
    mkOutcome (Ok (S (length h)))
      (h ++ [mkValue n (of_int 0) BNone ∅ "" "";
             mkValue (nadd (data va) n) (of_int 0)
               (BAdd self (length h) (S (length h)))
               (list_to_set [self; length h]) "+" ""]) [].
Proof.
  intros Ha. unfold __add__. simpl.
  erewrite run_bind_Ok by reflexivity. simpl.
  erewrite (run_getattr_bind _ _ self) by (by apply lookup_app_l_Some).
  erewrite (run_getattr_bind _ _ (length h)) by (by apply list_lookup_middle).
  rewrite run_new_node. simpl. rewrite length_app. simpl.
  by rewrite Nat.add_1_r, <- app_assoc.
Qed.

Lemma run_relu self h va :
  h !! self = Some va →
  relu self h =
    mkOutcome (Ok (length h))
      (h ++ [mkValue (if nlt (data va) (of_int 0) then of_int 0 else data va)
               (of_int 0) (BRelu self (length h)) (list_to_set [self]) "ReLU" ""]) [].
Proof.
  intros Ha. unfold relu. rewrite (run_getattr_bind _ _ _ _ _ Ha).
  by rewrite run_new_node.
Qed.

Lemma run_pow_number self (n : num) h va d :
  h !! self = Some va → npow (data va) n = Ok d →
  __pow__ self (PyNumber n) h =
    mkOutcome (Ok (length h))
      (h ++ [mkValue d (of_int 0) (BPow self n (length h)) (list_to_set [self])
               ("**" +:+ num_str n) ""]) [].
Proof.
  intros Ha Hd. unfold __pow__. rewrite (run_getattr_bind _ _ _ _ _ Ha).
  by rewrite Hd, run_lift_bind, run_new_node.
Qed.
End Run.

(** ** A root over leaves

    When every operand of the root is a leaf, [backward] seeds the root and
    runs the rule of the root; the rules of the leaves do nothing. *)

Section Shallow.
Context {num : Type} `{!PyNum num}.
Variable iter : set_order.
Hypothesis iter_valid : order_valid iter.

(** A node as [Value(data)] makes it: no operands, the rule [lambda: None]. *)
Definition is_leaf (v : Value num) : Prop :=
  _prev v = ∅ ∧ _backward v = BNone.

Lemma iter_empty v : iter v ∅ = [].
Proof.
  destruct (iter v ∅) as [|c cs] eqn:Hi; [done|].
  assert (c ∈ (∅ : gset nat)) as Hc; [|set_solver].
  apply (iter_valid v ∅). rewrite Hi. left.
Qed.

Lemma iter_singleton v c : iter v {[c]} = [c].
Proof.
  destruct (iter_valid v {[c]}) as [Hnd Hel].
  destruct (iter v {[c]}) as [|a [|b l]] eqn:Hi.
  - assert (c ∈ @nil nat) as Hc by (apply Hel; set_solver). by apply elem_of_nil in Hc.
  - assert (a ∈ ({[c]} : gset nat)) as Ha by (apply Hel; left). set_solver.
  - assert (a ∈ ({[c]} : gset nat)) as Ha by (apply Hel; left).
    assert (b ∈ ({[c]} : gset nat)) as Hb by (apply Hel; right; left).
    apply elem_of_singleton in Ha, Hb. subst.
    apply NoDup_cons in Hnd as [Hnd _]. exfalso. apply Hnd. left.
Qed.

Lemma build_topo_leaf fuel (h : heap num) c vc vis topo :
  h !! c = Some vc → _prev vc = ∅ → c ∉ vis →
  build_topo iter (S fuel) h c (vis, topo) = Some ({[c]} ∪ vis, topo ++ [c]).
Proof.
  intros Hc Hp Hn. rewrite build_topo_unfold. simpl.
  case_decide; [done|]. rewrite Hc. simpl. by rewrite Hp, iter_empty.
Qed.

Lemma topo_order_shallow (h : heap num) self vr :
  h !! self = Some vr → self ∉ _prev vr →
  (∀ c, c ∈ _prev vr → ∃ vc, h !! c = Some vc ∧ _prev vc = ∅) →
  topo_order iter h self = Some (iter self (_prev vr) ++ [self]).
Proof.
  intros Hself Hns Hleaves. unfold topo_order.
  rewrite build_topo_unfold. simpl. case_decide as Hin; [set_solver|].
  rewrite Hself. simpl.
  destruct (length h) as [|fuel] eqn:Hlen.
  { apply lookup_lt_Some in Hself. lia. }
  destruct (iter_valid self (_prev vr)) as [Hnd Hel].
  assert (Hloop : ∀ cs vis topo,
    NoDup cs → (∀ c, c ∈ cs → c ∈ _prev vr ∧ c ∉ vis) →
    ∃ vis', foldl (λ acc child, acc ≫= build_topo iter (S fuel) h child)
              (Some (vis, topo)) cs = Some (vis', topo ++ cs)).
  { induction cs as [|c cs IH]; intros vis topo Hnd' Hcs.
    - exists vis. simpl. by rewrite app_nil_r.
    - apply NoDup_cons in Hnd' as [Hc Hnd'].
      change (foldl ?f (Some ?st) (c :: cs)) with
        (foldl f (build_topo iter (S fuel) h c st) cs).
      destruct (Hcs c) as [Hcp Hcv]; [left|].
      destruct (Hleaves c Hcp) as (vc & Hvc & Hpc).
      rewrite (build_topo_leaf fuel h c vc vis topo Hvc Hpc Hcv).
      destruct (IH ({[c]} ∪ vis) (topo ++ [c]) Hnd') as [vis' Hvis'].
      + intros c' Hc'. destruct (Hcs c') as [? ?]; [by right|].
        split; [done|]. set_solver.
      + exists vis'. rewrite Hvis'. by rewrite <- app_assoc. }
  destruct (Hloop (iter self (_prev vr)) ({[self]} ∪ ∅) [] Hnd) as [vis' ->].
  - intros c Hc. apply Hel in Hc. split; [done|]. set_solver.
  - done.
Qed.

Lemma for_each_leaves (l : list ref) (h : heap num) :
  (∀ c, c ∈ l → ∃ vc, h !! c = Some vc ∧ _backward vc = BNone) →
  for_each l (λ node, c ← getattr _backward node; call c) h =
    mkOutcome (Ok tt) h [].
Proof.
  induction l as [|c l IH]; intros Hl; simpl; [done|].
  destruct (Hl c) as (vc & Hvc & Hb); [left|].
  rewrite run_bind. rewrite (run_getattr_bind _ _ _ _ _ Hvc), Hb. simpl.
  rewrite IH; [done|]. intros c' Hc'. apply Hl. by right.
Qed.

Lemma backward_shallow (h : heap num) self vr :
  h !! self = Some vr → self ∉ _prev vr →
  (∀ c, c ∈ _prev vr → ∃ vc, h !! c = Some vc ∧ is_leaf vc) →
  backward iter self h = (set_grad self (of_int 1);; call (_backward vr)) h.
Proof.
  intros Hself Hns Hleaves. unfold backward.
  rewrite (topo_order_shallow h self vr Hself Hns).
  2:{ intros c Hc. destruct (Hleaves c Hc) as (vc & ? & ? & ?). eauto. }
  rewrite reverse_app. simpl.
  set (h1 := <[self := with_grad (of_int 1) vr]> h).
  assert (set_grad self (of_int 1) h =
          mkOutcome (Ok tt) h1 [SetGrad self (of_int 1)]) as Hset.
  { unfold set_grad. by rewrite Hself. }
  rewrite (run_bind_Ok _ _ _ _ _ _ Hset).
  rewrite (run_bind_Ok _ (λ _, call (_backward vr)) _ _ _ _ Hset).
  assert (h1 !! self = Some (with_grad (of_int 1) vr)) as Hself1.
  { apply list_lookup_insert_eq. by eapply lookup_lt_Some. }
  match goal with
  | |- mkOutcome (res (?X h1)) _ _ = _ =>
      assert (X h1 = call (_backward vr) h1) as ->; [|done]
  end.
  rewrite (run_bind (A:=unit) (B:=unit)).
  rewrite (run_getattr_bind _ _ _ _ _ Hself1). simpl.
  pose proof (wgo_call (_backward vr) h1) as Hfr.
  destruct (call (_backward vr) h1) as [r h2 w] eqn:Hcall. simpl in *.
  destruct r as [[]|e]; simpl; [|done].
  rewrite for_each_leaves; [simpl; by rewrite !app_nil_r|].
  intros c Hc. apply elem_of_reverse, (iter_valid self (_prev vr)) in Hc.
  destruct (Hleaves c Hc) as (vc & Hvc & _ & Hbc).
  assert (grad_frame h h2) as Hfr2.
  { eapply grad_frame_trans; [|exact Hfr]. by apply grad_frame_with_grad. }
  destruct (grad_frame_lookup _ _ _ _ Hfr2 Hvc) as (vc' & Hvc' & _ & Hb' & _).
  exists vc'. split; [done|congruence].
Qed.
End Shallow.

(** ** Well-formed stores

    What the operations establish of every node: its operand set is the set
    of the nodes its rule writes to, its rule reads the node itself, and its
    operands were allocated before it. *)

Section WellFormed.
Context {num : Type} `{!PyNum num}.

(** The nodes whose [grad] the closure writes. *)
Definition operands (c : closure num) : list ref :=
  match c with
  | BNone => []
  | BAdd self other _ => [self; other]
  | BMul self other _ => [self; other]
  | BPow self _ _ => [self]
  | BTanh self _ _ => [self]
  | BRelu self _ => [self]
  | BExp self _ => [self]
  end.

(** The node the closure captures as [out]. *)
Definition captured_out (c : closure num) : option ref :=
  match c with
  | BNone => None
  | BAdd _ _ out | BMul _ _ out | BPow _ _ out | BTanh _ _ out
  | BRelu _ out | BExp _ out => Some out
  end.

Definition rule_matches (v : Value num) : Prop :=
  _prev v = list_to_set (operands (_backward v)).

Definition node_wf (i : ref) (v : Value num) : Prop :=
  rule_matches v ∧
  (∀ out, captured_out (_backward v) = Some out → out = i) ∧
  set_Forall (λ c, c < i) (_prev v).

Definition heap_wf (h : heap num) : Prop :=
  ∀ i v, h !! i = Some v → node_wf i v.

Lemma rule_matches_leaf v : rule_matches v → _prev v = ∅ → _backward v = BNone.
Proof.
  unfold rule_matches. intros Hm He. rewrite He in Hm.
  destruct (_backward v); simpl in Hm; [done|set_solver..].
Qed.

Lemma heap_wf_arena_ordered h : heap_wf h → arena_ordered h.
Proof. intros Hwf i v Hi. by destruct (Hwf i v Hi) as (_ & _ & ?). Qed.

Lemma heap_wf_nil : heap_wf [].
Proof. intros i v Hi. by rewrite lookup_nil in Hi. Qed.

Lemma heap_wf_snoc h v : heap_wf h → node_wf (length h) v → heap_wf (h ++ [v]).
Proof.
  intros Hwf Hv i v' Hi. apply lookup_app_Some in Hi as [Hi|[Hlen Hi]].
  - by apply Hwf.
  - apply list_lookup_singleton_Some in Hi as [Hi ->].
    by replace i with (length h) by lia.
Qed.

(** Seeding the root and running its rule, at a node without operands. *)
Lemma backward_no_operands iter (h : heap num) self vr :
  order_valid iter → h !! self = Some vr → _prev vr = ∅ → rule_matches vr →
  backward iter self h =
    mkOutcome (Ok tt) (<[self := with_grad (of_int 1) vr]> h)
      [SetGrad self (of_int 1)].
Proof.
  intros Hiter Hself Hp Hm.
  rewrite (backward_shallow iter Hiter h self vr Hself); [|set_solver|set_solver].
  rewrite (rule_matches_leaf vr Hm Hp).
  erewrite run_bind_Ok; [|unfold set_grad; by rewrite Hself]. done.
Qed.
End WellFormed.

(** ** A Hoare logic for the operations *)

Section Hoare.
Context {num : Type} `{!PyNum num}.

(** From a store satisfying [P], [m] returns [a] in a store satisfying
    [Q a], or raises in a store satisfying [E]. *)
Definition hoare {A} (P : heap num → Prop) (m : M num A)
    (Q : A → heap num → Prop) (E : heap num → Prop) : Prop :=
  ∀ h, P h → match res (m h) with
             | Ok a => Q a (final (m h))
             | Raise _ => E (final (m h))
             end.

Lemma hoare_bind {A B} P (m : M num A) Q (k : A → M num B) R E :
  hoare P m Q E → (∀ a, hoare (Q a) (k a) R E) → hoare P (m ≫= k) R E.
Proof.
  intros Hm Hk h HP. rewrite run_bind. specialize (Hm h HP).
  destruct (res (m h)) as [a|e]; simpl; [|done]. by apply Hk.
Qed.

Lemma hoare_conseq {A} (P P' : heap num → Prop) (m : M num A) (Q Q' : A → heap num → Prop) E :
  hoare P' m Q' E → (∀ h, P h → P' h) → (∀ a h, Q' a h → Q a h) → hoare P m Q E.
Proof.
  intros Hm HP HQ h Hh. specialize (Hm h (HP h Hh)).
  destruct (res (m h)); [by apply HQ|done].
Qed.

Lemma hoare_ret {A} (P : heap num → Prop) (a : A) (Q : A → heap num → Prop) E :
  (∀ h, P h → Q a h) → hoare P (mret a) Q E.
Proof. intros HQ h HP. by apply HQ. Qed.

Lemma hoare_raise {A} (P : heap num → Prop) e (Q : A → heap num → Prop) (E : heap num → Prop) :
  (∀ h, P h → E h) → hoare P (raise e) Q E.
Proof. intros HE h HP. by apply HE. Qed.

Lemma hoare_lift {A} (P : heap num → Prop) (r : result A) (Q : A → heap num → Prop) (E : heap num → Prop) :
  (∀ h a, P h → r = Ok a → Q a h) → (∀ h, P h → E h) → hoare P (lift r) Q E.
Proof.
  intros HQ HE. destruct r as [a|e]; simpl.
  - apply hoare_ret. intros h HP. by apply HQ.
  - by apply hoare_raise.
Qed.

Lemma hoare_getattr {A} (P : heap num → Prop) (f : Value num → A) r (Q : A → heap num → Prop) (E : heap num → Prop) :
  (∀ h v, P h → h !! r = Some v → Q (f v) h) → (∀ h, P h → E h) →
  hoare P (getattr f r) Q E.
Proof.
  intros HQ HE h HP. unfold getattr. destruct (h !! r) as [v|] eqn:Hr; simpl.
  - by eapply HQ.
  - by apply HE.
Qed.

(** Allocating a node and attaching its rule. *)
Lemma hoare_new_node (P : heap num → Prop) d cs op (c : ref → closure num)
    (Q : ref → heap num → Prop) E :
  (∀ h, P h →
     Q (length h)
       (h ++ [mkValue d (of_int 0) (c (length h)) (list_to_set cs) op ""])) →
  hoare P (out ← __init__ d cs op; set_backward out (c out);; mret out) Q E.
Proof. intros HQ h HP. rewrite run_new_node. simpl. by apply HQ. Qed.

Lemma node_wf_new (h : heap num) d (c : closure num) cs op :
  operands c = cs → captured_out c = Some (length h) →
  Forall (λ r, r < length h) cs →
  node_wf (length h) (mkValue d (of_int 0) c (list_to_set cs) op "").
Proof.
  intros Hops Hout Hcs. split_and!; simpl.
  - unfold rule_matches. simpl. by rewrite Hops.
  - intros out Ho. congruence.
  - intros r Hr. apply elem_of_list_to_set in Hr.
    by eapply Forall_forall in Hcs.
Qed.

Lemma node_wf_leaf (i : ref) (d : num) op :
  node_wf i (mkValue d (of_int 0) BNone (list_to_set []) op "").
Proof.
  split_and!; simpl; [done|done|]. intros r Hr. set_solver.
Qed.

(** An operation keeps the store well formed, also when it raises, and the
    node it returns is a node of the store. *)
Definition keeps_wf (m : M num ref) : Prop :=
  hoare heap_wf m (λ out h, heap_wf h ∧ out < length h) heap_wf.

Lemma as_Value_wf (other : pyobj num) :
  hoare heap_wf (as_Value other)
    (λ o h, heap_wf h ∧ (other = PyValue o ∨ o < length h)) heap_wf.
Proof.
  destruct other as [r|n]; simpl.
  - apply hoare_ret. auto.
  - intros h Hwf. simpl. split; [|right; rewrite length_app; simpl; lia].
    apply heap_wf_snoc; [done|apply node_wf_leaf].
Qed.

Lemma __add___wf self other : keeps_wf (__add__ self other).
Proof.
  eapply hoare_bind; [apply as_Value_wf|]. intros o.
  eapply hoare_bind with (Q := λ _ h, heap_wf h ∧ self < length h).
  { apply hoare_getattr; [|tauto]. intros h v [Hwf _] Hv.
    split; [done|]. by eapply lookup_lt_Some. }
  intros a.
  eapply hoare_bind with (Q := λ _ h, heap_wf h ∧ self < length h ∧ o < length h).
  { apply hoare_getattr; [|tauto]. intros h v [Hwf ?] Hv.
    split_and!; [done|done|]. by eapply lookup_lt_Some. }
  intros b. apply hoare_new_node. intros h (Hwf & Hs & Ho).
  split; [|rewrite length_app; simpl; lia].
  apply heap_wf_snoc; [done|]. apply node_wf_new; [done|done|].
  by repeat constructor.
Qed.

Lemma __mul___wf self other : keeps_wf (__mul__ self other).
Proof.
  eapply hoare_bind; [apply as_Value_wf|]. intros o.
  eapply hoare_bind with (Q := λ _ h, heap_wf h ∧ self < length h).
  { apply hoare_getattr; [|tauto]. intros h v [Hwf _] Hv.
    split; [done|]. by eapply lookup_lt_Some. }
  intros a.
  eapply hoare_bind with (Q := λ _ h, heap_wf h ∧ self < length h ∧ o < length h).
  { apply hoare_getattr; [|tauto]. intros h v [Hwf ?] Hv.
    split_and!; [done|done|]. by eapply lookup_lt_Some. }
  intros b. apply hoare_new_node. intros h (Hwf & Hs & Ho).
  split; [|rewrite length_app; simpl; lia].
  apply heap_wf_snoc; [done|]. apply node_wf_new; [done|done|].
  by repeat constructor.
Qed.

Lemma __pow___wf self other : keeps_wf (__pow__ self other).
Proof.
  destruct other as [r|n]; simpl; [by apply hoare_raise|].
  eapply hoare_bind with (Q := λ _ h, heap_wf h ∧ self < length h).
  { apply hoare_getattr; [|done]. intros h v Hwf Hv.
    split; [done|]. by eapply lookup_lt_Some. }
  intros a. eapply hoare_bind with (Q := λ _ h, heap_wf h ∧ self < length h).
  { apply hoare_lift; tauto. }
  intros d. apply hoare_new_node. intros h (Hwf & Hs).
  split; [|rewrite length_app; simpl; lia].
  apply heap_wf_snoc; [done|]. apply node_wf_new; [done|done|].
  by repeat constructor.
Qed.

Lemma __radd___wf self other : keeps_wf (__radd__ self other).
Proof. apply __add___wf. Qed.

Lemma __rmul___wf self other : keeps_wf (__rmul__ self other).
Proof. apply __mul___wf. Qed.

Lemma __neg___wf self : keeps_wf (__neg__ self).
Proof. apply __mul___wf. Qed.

Lemma keeps_wf_then {A} (m : M num ref) (f : ref → A) (k : A → M num ref) :
  keeps_wf m → (∀ a, keeps_wf (k a)) → keeps_wf (r ← m; k (f r)).
Proof.
  intros Hm Hk. eapply hoare_bind; [exact Hm|]. intros r.
  eapply hoare_conseq; [apply Hk|tauto|done].
Qed.

Lemma __sub___wf self other : keeps_wf (__sub__ self other).
Proof.
  unfold __sub__, neg_obj. destruct other as [r|n].
  - eapply hoare_bind with (Q := λ _, heap_wf).
    + eapply hoare_bind; [apply __neg___wf|]. intros a. apply hoare_ret. tauto.
    + intros o. apply __add___wf.
  - eapply hoare_bind with (Q := λ _, heap_wf); [by apply hoare_ret|].
    intros o. apply __add___wf.
Qed.

Lemma __rsub___wf self other : keeps_wf (__rsub__ self other).
Proof.
  eapply hoare_bind; [apply __neg___wf|]. intros n.
  eapply hoare_conseq; [apply __radd___wf|tauto|done].
Qed.

Lemma __truediv___wf self other : keeps_wf (__truediv__ self other).
Proof.
  unfold __truediv__, inv_obj. destruct other as [r|n].
  - eapply hoare_bind with (Q := λ _, heap_wf).
    + eapply hoare_bind; [apply __pow___wf|]. intros a. apply hoare_ret. tauto.
    + intros o. apply __mul___wf.
  - eapply hoare_bind with (Q := λ _, heap_wf).
    + eapply hoare_bind with (Q := λ _, heap_wf); [by apply hoare_lift|].
      intros p. by apply hoare_ret.
    + intros o. apply __mul___wf.
Qed.

Lemma __rtruediv___wf self other : keeps_wf (__rtruediv__ self other).
Proof.
  eapply hoare_bind; [apply __pow___wf|]. intros p.
  eapply hoare_conseq; [apply __rmul___wf|tauto|done].
Qed.

Lemma tanh_wf self : keeps_wf (tanh self).
Proof.
  eapply hoare_bind with (Q := λ _ h, heap_wf h ∧ self < length h).
  { apply hoare_getattr; [|done]. intros h v Hwf Hv.
    split; [done|]. by eapply lookup_lt_Some. }
  intros x. eapply hoare_bind with (Q := λ _ h, heap_wf h ∧ self < length h).
  { apply hoare_lift; tauto. }
  intros e1. eapply hoare_bind with (Q := λ _ h, heap_wf h ∧ self < length h).
  { apply hoare_lift; tauto. }
  intros e2. eapply hoare_bind with (Q := λ _ h, heap_wf h ∧ self < length h).
  { apply hoare_lift; tauto. }
  intros t. apply hoare_new_node. intros h (Hwf & Hs).
  split; [|rewrite length_app; simpl; lia].
  apply heap_wf_snoc; [done|]. apply node_wf_new; [done|done|].
  by repeat constructor.
Qed.

Lemma relu_wf self : keeps_wf (relu self).
Proof.
  eapply hoare_bind with (Q := λ _ h, heap_wf h ∧ self < length h).
  { apply hoare_getattr; [|done]. intros h v Hwf Hv.
    split; [done|]. by eapply lookup_lt_Some. }
  intros x. apply hoare_new_node. intros h (Hwf & Hs).
  split; [|rewrite length_app; simpl; lia].
  apply heap_wf_snoc; [done|]. apply node_wf_new; [done|done|].
  by repeat constructor.
Qed.

Lemma exp_wf self : keeps_wf (exp self).
Proof.
  eapply hoare_bind with (Q := λ _ h, heap_wf h ∧ self < length h).
  { apply hoare_getattr; [|done]. intros h v Hwf Hv.
    split; [done|]. by eapply lookup_lt_Some. }
  intros x. eapply hoare_bind with (Q := λ _ h, heap_wf h ∧ self < length h).
  { apply hoare_lift; tauto. }
  intros e. apply hoare_new_node. intros h (Hwf & Hs).
  split; [|rewrite length_app; simpl; lia].
  apply heap_wf_snoc; [done|]. apply node_wf_new; [done|done|].
  by repeat constructor.
Qed.

(** A leaf made by [Value(data)]. *)
Lemma leaf_wf (d : num) : keeps_wf (__init__ d [] "").
Proof.
  intros h Hwf. simpl. split; [|rewrite length_app; simpl; lia].
  apply heap_wf_snoc; [done|apply node_wf_leaf].
Qed.

Lemma keeps_wf_bind (m : M num ref) (k : ref → M num ref) :
  keeps_wf m → (∀ a, keeps_wf (k a)) → keeps_wf (m ≫= k).
Proof.
  intros Hm Hk. eapply hoare_bind; [exact Hm|]. intros a.
  eapply hoare_conseq; [apply Hk|tauto|done].
Qed.

Lemma keeps_wf_final (m : M num ref) (h : heap num) :
  keeps_wf m → heap_wf h → heap_wf (final (m h)).
Proof.
  intros Hm Hwf. specialize (Hm h Hwf). destruct (res (m h)); tauto.
Qed.

(** [backward] keeps the store well formed. *)
Lemma grad_frame_wf (h h' : heap num) : grad_frame h h' → heap_wf h → heap_wf h'.
Proof.
  intros Hf Hwf i v' Hi.
  destruct (grad_frame_lookup_r _ _ _ _ Hf Hi) as (v & Hv & Hd & Hb & Hp & _).
  destruct (Hwf i v Hv) as (Hm & Ho & Hlt). unfold node_wf, rule_matches.
  rewrite Hb, Hp. done.
Qed.
End Hoare.

(** ** The writes of the backward pass *)

Section Accumulation.
Context {num : Type} `{!PyNum num}.

(** What a write does to the store. *)
Definition apply_write (w : write num) (h : heap num) : heap num :=
  match w with
  | SetGrad r g => alter (with_grad g) r h
  | AddGrad r d => alter (λ v, with_grad (nadd (grad v) d) v) r h
  end.

Definition replay (ws : list (write num)) (h : heap num) : heap num :=
  foldl (λ h w, apply_write w h) h ws.

(** What a write does to the gradient of node [i]. *)
Definition step_grad (i : ref) (g : num) (w : write num) : num :=
  match w with
  | SetGrad r v => if decide (r = i) then v else g
  | AddGrad r d => if decide (r = i) then nadd g d else g
  end.


(** The write is [r.grad += d] for an operand [r] in [S]. *)
Definition adds_to (S : list ref) (w : write num) : Prop :=
  ∃ r d, w = AddGrad r d ∧ r ∈ S.

(** The store a computation leaves is the store at entry after its writes. *)
Definition logged {A} (m : M num A) : Prop :=
  ∀ h, final (m h) = replay (writes (m h)) h.

Lemma replay_app ws1 ws2 h : replay (ws1 ++ ws2) h = replay ws2 (replay ws1 h).
Proof. unfold replay. by rewrite foldl_app. Qed.

Lemma logged_ret {A} (a : A) : logged (mret a).
Proof. done. Qed.

Lemma logged_raise {A} e : logged (raise (A := A) e).
Proof. done. Qed.

Lemma logged_lift {A} (r : result A) : logged (lift r).
Proof. by destruct r. Qed.

Lemma logged_getattr {A} (f : Value num → A) r : logged (getattr f r).
Proof. intros h. unfold getattr. by destruct (h !! r). Qed.

Lemma insert_as_alter (h : heap num) r v (f : Value num → Value num) :
  h !! r = Some v → <[r := f v]> h = alter f r h.
Proof.
  intros Hr. apply list_eq. intros i. destruct (decide (i = r)) as [->|Hne].
  - rewrite list_lookup_insert_eq by (by eapply lookup_lt_Some).
    by rewrite list_lookup_alter_eq, Hr.
  - rewrite list_lookup_insert_ne by done. by rewrite list_lookup_alter_ne.
Qed.

Lemma logged_set_grad r g : logged (set_grad r g).
Proof.
  intros h. unfold set_grad. destruct (h !! r) as [v|] eqn:Hr; simpl; [|done].
  by apply insert_as_alter.
Qed.

Lemma logged_iadd_grad r d : logged (iadd_grad r d).
Proof.
  intros h. unfold iadd_grad. destruct (h !! r) as [v|] eqn:Hr; simpl; [|done].
  by apply (insert_as_alter h r v (λ v, with_grad (nadd (grad v) d) v)).
Qed.

Lemma logged_bind {A B} (m : M num A) (k : A → M num B) :
  logged m → (∀ a, logged (k a)) → logged (m ≫= k).
Proof.
  intros Hm Hk h. rewrite run_bind. specialize (Hm h).
  destruct (res (m h)) as [a|e]; simpl; [|done].
  by rewrite replay_app, <- Hm, <- Hk.
Qed.

Lemma logged_for_each {A} (l : list A) (body : A → M num unit) :
  (∀ x, logged (body x)) → logged (for_each l body).
Proof.
  intros Hb. induction l as [|x l IH]; simpl; [done|].
  apply logged_bind; [apply Hb|intros _; apply IH].
Qed.

Lemma logged_call c : logged (call c).
Proof.
  destruct c; simpl;
    repeat first [ apply logged_ret | apply logged_getattr | apply logged_iadd_grad
                 | apply logged_lift | apply logged_bind | intros ? ].
Qed.

Lemma logged_backward iter self : logged (backward iter self).
Proof.
  intros h. unfold backward. destruct (topo_order iter h self) as [topo|]; [|done].
  apply logged_bind; [apply logged_set_grad|intros _].
  apply logged_for_each. intros node.
  apply logged_bind; [apply logged_getattr|intros c; apply logged_call].
Qed.

Lemma with_grad_with_grad (g g' : num) (v : Value num) :
  with_grad g' (with_grad g v) = with_grad g' v.
Proof. done. Qed.

Lemma replay_lookup ws (h : heap num) i :
  replay ws h !! i = (λ v, with_grad (foldl (step_grad i) (grad v) ws) v) <$> h !! i.
Proof.
  revert h. induction ws as [|w ws IH]; intros h; simpl.
  - destruct (h !! i) as [v|]; simpl; [|done]. by destruct v.
  - rewrite IH. destruct w as [r g|r d]; simpl; rewrite list_lookup_alter;
      destruct (decide (r = i)) as [->|Hne]; try done;
      by destruct (h !! i).
Qed.


(** *** What the rules write *)

Definition writes_add_to (S : list ref) {A} (m : M num A) : Prop :=
  ∀ h, Forall (adds_to S) (writes (m h)).

Lemma wat_ret S {A} (a : A) : writes_add_to S (mret a).
Proof. intros h. constructor. Qed.

Lemma wat_lift S {A} (r : result A) : writes_add_to S (lift r).
Proof. intros h. destruct r; constructor. Qed.

Lemma wat_getattr S {A} (f : Value num → A) r : writes_add_to S (getattr f r).
Proof. intros h. unfold getattr. destruct (h !! r); constructor. Qed.

Lemma wat_iadd_grad S r d : r ∈ S → writes_add_to S (iadd_grad r d).
Proof.
  intros Hr h. unfold iadd_grad. destruct (h !! r); simpl; [|constructor].
  constructor; [|constructor]. by exists r, d.
Qed.

Lemma wat_bind S {A B} (m : M num A) (k : A → M num B) :
  writes_add_to S m → (∀ a, writes_add_to S (k a)) → writes_add_to S (m ≫= k).
Proof.
  intros Hm Hk h. rewrite run_bind. specialize (Hm h).
  destruct (res (m h)) as [a|e]; simpl; [|done].
  apply Forall_app. split; [done|apply Hk].
Qed.

Lemma wat_call c : writes_add_to (operands c) (call c).
Proof.
  destruct c; simpl;
    repeat first [ apply wat_ret | apply wat_getattr | apply wat_lift
                 | apply wat_iadd_grad; set_solver | apply wat_bind | intros ? ].
Qed.

(** *** The loop over the nodes *)

Lemma for_each_writes {A} (P : heap num → Prop) (l : list A) (body : A → M num unit) h :
  (∀ x hk, P hk → P (final (body x hk))) → P h →
  ∃ per, writes (for_each l body h) = concat per ∧
    Forall2 (λ x ws, ∃ hk, P hk ∧ ws = writes (body x hk)) (take (length per) l) per ∧
    (res (for_each l body h) = Ok tt → length per = length l).
Proof.
  intros HP. revert h. induction l as [|x l IH]; intros h Hh; simpl.
  - exists []. split_and!; [done|constructor|done].
  - rewrite run_bind. destruct (res (body x h)) as [[]|e] eqn:Hres; simpl.
    + destruct (IH (final (body x h))) as (per & Hw & Hall & Hlen); [by apply HP|].
      exists (writes (body x h) :: per). simpl. split_and!.
      * by rewrite Hw.
      * constructor; [by exists h|done].
      * intros Hok. f_equal. by apply Hlen.
    + exists [writes (body x h)]. simpl. split_and!.
      * by rewrite app_nil_r.
      * rewrite take_0. repeat constructor. by exists h.
      * done.
Qed.

Lemma rule_writes_operands (h hk : heap num) (u : ref) :
  heap_wf h → grad_frame h hk →
  Forall (λ w, ∃ c d, w = AddGrad c d ∧ operand h c u)
    (writes ((c ← getattr _backward u; call c) hk)).
Proof.
  intros Hwf Hfr. destruct (hk !! u) as [vu'|] eqn:Hu.
  - rewrite (run_getattr_bind _ _ _ _ _ Hu).
    destruct (grad_frame_lookup_r _ _ _ _ Hfr Hu) as (vu & Hvu & _ & Hb & _).
    destruct (Hwf u vu Hvu) as (Hm & _ & _).
    eapply Forall_impl; [apply wat_call|]. intros w (r & d & -> & Hr).
    exists r, d. split; [done|]. exists vu. split; [done|].
    rewrite Hm, <- Hb. by apply elem_of_list_to_set.
  - rewrite run_bind. unfold getattr. rewrite Hu. constructor.
Qed.

End Accumulation.

(** ** Exact arithmetic: what the backward pass computes

    The gradients are sums of products, and the order of the additions
    depends on the order of the traversal.  Where the scalars form a
    commutative semiring (the integers, the rationals, the reals: not the
    floats, whose addition is not associative), the result is independent of
    that order and is the derivative of the root by the chain rule. *)

Class ExactArith (num : Type) `{!PyNum num} : Prop := {
  exact_semiring : semi_ring_theory (of_int 0) (of_int 1) nadd nmul (@eq num)
}.

Definition rbind {A B} (r : result A) (k : A → result B) : result B :=
  match r with Ok a => k a | Raise e => Raise e end.

Section Partials.
Context {num : Type} `{!PyNum num}.

Definition get_data (h : heap num) (r : ref) : result num :=
  match h !! r with Some v => Ok (data v) | None => Raise Stuck end.

(** The gradient of node [r], zero outside the store. *)
Definition gradf (h : heap num) (r : ref) : num :=
  match h !! r with Some v => grad v | None => of_int 0 end.

(** The local derivatives of a rule: for each write [r.grad += k * g] it
    makes, the operand [r] and the factor [k] on the gradient [g] of the
    output. *)
Definition partials (h : heap num) (c : closure num) : result (list (ref * num)) :=
  match c with
  | BNone => Ok []
  | BAdd self other _ => Ok [(self, of_int 1); (other, of_int 1)]
  | BMul self other _ =>
      rbind (get_data h other) (λ b,
      rbind (get_data h self) (λ a, Ok [(self, b); (other, a)]))
  | BPow self n _ =>
      rbind (get_data h self) (λ a,
      rbind (npow a (nsub n (of_int 1))) (λ p, Ok [(self, nmul n p)]))
  | BTanh self t _ =>
      rbind (npow t (of_int 2)) (λ t2, Ok [(self, nsub (of_int 1) t2)])
  | BRelu self out =>
      rbind (get_data h out) (λ d, Ok [(self, of_bool (ngt d (of_int 0)))])
  | BExp self out =>
      rbind (get_data h out) (λ d, Ok [(self, d)])
  end.

(** The rule can run: the nodes it names are in the store, and it does not
    write to the node whose gradient it reads. *)
Definition rule_ready (h : heap num) (c : closure num) : Prop :=
  (∀ r, r ∈ operands c → r < length h) ∧
  (∀ out, captured_out c = Some out → out < length h ∧ out ∉ operands c).

Lemma partials_targets h c ps :
  partials h c = Ok ps → ps.*1 = operands c.
Proof.
  destruct c; simpl; unfold rbind, get_data; intros Hp;
    repeat match type of Hp with
           | context [match ?x with _ => _ end] => destruct x; try done
           end; by simplify_eq.
Qed.

Lemma get_data_frame (h hk : heap num) r :
  grad_frame h hk → get_data hk r = get_data h r.
Proof.
  intros Hf. unfold get_data. destruct (h !! r) as [v|] eqn:Hr.
  - destruct (grad_frame_lookup _ _ _ _ Hf Hr) as (v' & -> & Hd & _). by rewrite Hd.
  - destruct (hk !! r) as [v'|] eqn:Hr'; [|done].
    destruct (grad_frame_lookup_r _ _ _ _ Hf Hr') as (v & Hv & _). congruence.
Qed.

Lemma partials_frame (h hk : heap num) c :
  grad_frame h hk → partials hk c = partials h c.
Proof.
  intros Hf. destruct c; simpl; by rewrite ?(get_data_frame h hk _ Hf).
Qed.

Lemma rule_ready_frame (h hk : heap num) c :
  grad_frame h hk → rule_ready h c → rule_ready hk c.
Proof.
  intros Hf. unfold rule_ready. by rewrite (grad_frame_length _ _ Hf).
Qed.

(** The derivative of node [u] by node [v], by the chain rule: one at
    [v] itself, and elsewhere the sum over the operands of [u] of the local
    derivative times the derivative of the operand.  The recursion descends
    to operands, which the arena allocates before [u]. *)
Fixpoint tangent (fuel : nat) (h : heap num) (v u : ref) : num :=
  match fuel with
  | 0 => of_int 0
  | S f =>
      if decide (u = v) then of_int 1
      else match h !! u with
           | Some vu =>
               match partials h (_backward vu) with
               | Ok ps =>
                   foldr (λ p acc, nadd (nmul p.2 (tangent f h v p.1)) acc)
                     (of_int 0) ps
               | Raise _ => of_int 0
               end
           | None => of_int 0
           end
  end.

(** The derivative of [root] by [v]. *)
Definition derivative (h : heap num) (root v : ref) : num :=
  tangent (length h) h v root.

(** The sum over [l] of [g w * f w]. *)
Definition wsum (g f : ref → num) (l : list ref) : num :=
  foldr (λ w acc, nadd (nmul (g w) (f w)) acc) (of_int 0) l.

(** The value an operation gives its result node, from the values of its
    operands: the first argument of the [Value(...)] call in the operation
    that attaches the rule [c]. *)
Definition forward (c : closure num) (val : ref → num) : result num :=
  match c with
  | BNone => Raise Stuck
  | BAdd self other _ => Ok (nadd (val self) (val other))
  | BMul self other _ => Ok (nmul (val self) (val other))
  | BPow self n _ => npow (val self) n
  | BTanh self _ _ =>
      rbind (math_exp (nmul (of_int 2) (val self))) (λ e1,
      rbind (math_exp (nmul (of_int 2) (val self))) (λ e2,
      ndiv (nsub e1 (of_int 1)) (nadd e2 (of_int 1))))
  | BRelu self _ =>
      Ok (if nlt (val self) (of_int 0) then of_int 0 else val self)
  | BExp self _ => math_exp (val self)
  end.

(** The value of node [u] as a function of the value [t] of node [x]: the
    forward computation of the graph run again with [x.data = t].  A leaf
    other than [x] keeps its value. *)
Fixpoint value_at (fuel : nat) (h : heap num) (x : ref) (t : num) (u : ref) : num :=
  match fuel with
  | 0 => of_int 0
  | S f =>
      if decide (u = x) then t
      else match h !! u with
           | Some vu =>
               match _backward vu with
               | BNone => data vu
               | c => match forward c (value_at f h x t) with
                      | Ok d => d
                      | Raise _ => of_int 0
                      end
               end
           | None => of_int 0
           end
  end.

(** The root as a function of the node [x]. *)
Definition expression (h : heap num) (root x : ref) (t : num) : num :=
  value_at (length h) h x t root.

Definition data_of (h : heap num) (r : ref) : num :=
  match h !! r with Some v => data v | None => of_int 0 end.

(** The node holds the value its operation computed from the values its
    operands hold (and the rule of [tanh] holds that value as [t]). *)
Definition node_consistent (h : heap num) (vu : Value num) : Prop :=
  _backward vu = BNone ∨
  (forward (_backward vu) (data_of h) = Ok (data vu) ∧
   ∀ s t o, _backward vu = BTanh s t o → t = data vu).

(** The order in which the rules run: every node before its operands. *)
Inductive sweep_order (h : heap num) : list ref → Prop :=
  | sweep_nil : sweep_order h []
  | sweep_cons u l :
      u ∉ l → (∀ c, operand h c u → c ∈ l) → sweep_order h l →
      sweep_order h (u :: l).

Lemma run_iadd (r : ref) (d : num) (h : heap num) v :
  h !! r = Some v →
  iadd_grad r d h =
    mkOutcome (Ok tt) (<[r := with_grad (nadd (grad v) d) v]> h) [AddGrad r d].
Proof. intros Hr. unfold iadd_grad. by rewrite Hr. Qed.

Lemma iadd_outcome (r : ref) (d : num) (h : heap num) :
  r < length h →
  res (iadd_grad r d h) = Ok tt ∧ writes (iadd_grad r d h) = [AddGrad r d].
Proof.
  intros Hr. destruct (lookup_lt_is_Some_2 h r Hr) as [v Hv].
  by rewrite (run_iadd r d h v Hv).
Qed.

Lemma foldr_tangent_ext (F G : ref → num) (ps : list (ref * num)) :
  (∀ p, p ∈ ps → F p.1 = G p.1) →
  foldr (λ p acc, nadd (nmul p.2 (F p.1)) acc) (of_int 0) ps =
  foldr (λ p acc, nadd (nmul p.2 (G p.1)) acc) (of_int 0) ps.
Proof.
  induction ps as [|p ps IH]; intros Hext; simpl; [done|].
  rewrite Hext by left. rewrite IH; [done|]. intros q Hq. apply Hext. by right.
Qed.

Lemma partials_operand (h : heap num) u vu ps p :
  heap_wf h → h !! u = Some vu → partials h (_backward vu) = Ok ps → p ∈ ps →
  operand h p.1 u.
Proof.
  intros Hwf Hu Hps Hp. exists vu. split; [done|].
  destruct (Hwf u vu Hu) as (Hm & _ & _). rewrite Hm.
  apply elem_of_list_to_set. rewrite <- (partials_targets _ _ _ Hps).
  by apply list_elem_of_fmap_2.
Qed.

Lemma tangent_fuel (h : heap num) v :
  heap_wf h → ∀ f f' u, u < f → u < f' → tangent f h v u = tangent f' h v u.
Proof.
  intros Hwf. induction f as [|f IH]; intros f' u Hf Hf'; [lia|].
  destruct f' as [|f']; [lia|]. simpl. case_decide; [done|].
  destruct (h !! u) as [vu|] eqn:Hu; [|done].
  destruct (partials h (_backward vu)) as [ps|e] eqn:Hps; [|done].
  apply foldr_tangent_ext. intros p Hp.
  pose proof (partials_operand h u vu ps p Hwf Hu Hps Hp) as Hop.
  pose proof (arena_ordered_operand h _ _ (heap_wf_arena_ordered h Hwf) Hop).
  apply IH; lia.
Qed.

Lemma derivative_self (h : heap num) v : v < length h → derivative h v v = of_int 1.
Proof.
  intros Hv. unfold derivative. destruct (length h); [lia|]. simpl.
  by case_decide.
Qed.

Lemma derivative_node (h : heap num) v u vu ps :
  heap_wf h → u ≠ v → h !! u = Some vu → partials h (_backward vu) = Ok ps →
  derivative h u v =
    foldr (λ p acc, nadd (nmul p.2 (derivative h p.1 v)) acc) (of_int 0) ps.
Proof.
  intros Hwf Hne Hu Hps. unfold derivative.
  pose proof (lookup_lt_Some _ _ _ Hu) as Hlt.
  rewrite (tangent_fuel h v Hwf (length h) (S u) u) by lia. simpl.
  case_decide; [done|]. rewrite Hu, Hps.
  apply foldr_tangent_ext. intros p Hp.
  pose proof (partials_operand h u vu ps p Hwf Hu Hps Hp) as Hop.
  pose proof (arena_ordered_operand h _ _ (heap_wf_arena_ordered h Hwf) Hop).
  apply tangent_fuel; [done|lia|lia].
Qed.

Lemma foldr_tangent_zero (F : ref → num) (ps : list (ref * num)) :
  (∀ x, nadd (of_int 0) x = x) → (∀ x, nmul x (of_int 0) = of_int 0) →
  (∀ p, p ∈ ps → F p.1 = of_int 0) →
  foldr (λ p acc, nadd (nmul p.2 (F p.1)) acc) (of_int 0) ps = of_int 0.
Proof.
  intros H0 Hm. induction ps as [|p ps IH]; intros Hz; simpl; [done|].
  rewrite Hz by left. rewrite IH; [by rewrite Hm, H0|].
  intros q Hq. apply Hz. by right.
Qed.

Lemma forward_ext (c : closure num) (val val' : ref → num) :
  (∀ r, r ∈ operands c → val r = val' r) → forward c val = forward c val'.
Proof.
  intros Hext. destruct c; simpl in *; try done;
    rewrite ?(Hext self) by set_solver; rewrite ?(Hext other) by set_solver; done.
Qed.

Lemma wf_operand (h : heap num) u vu r :
  heap_wf h → h !! u = Some vu → r ∈ operands (_backward vu) → operand h r u.
Proof.
  intros Hwf Hu Hr. exists vu. split; [done|].
  destruct (Hwf u vu Hu) as (Hm & _ & _). rewrite Hm.
  by apply elem_of_list_to_set.
Qed.

Lemma value_at_unfold (f : nat) (h : heap num) x t u :
  value_at (S f) h x t u =
    if decide (u = x) then t
    else match h !! u with
         | Some vu =>
             match _backward vu with
             | BNone => data vu
             | c => match forward c (value_at f h x t) with
                    | Ok d => d
                    | Raise _ => of_int 0
                    end
             end
         | None => of_int 0
         end.
Proof. done. Qed.

Lemma value_at_node (f : nat) (h : heap num) x t u vu :
  u ≠ x → h !! u = Some vu → _backward vu ≠ BNone →
  value_at (S f) h x t u =
    match forward (_backward vu) (value_at f h x t) with
    | Ok d => d
    | Raise _ => of_int 0
    end.
Proof.
  intros Hne Hu Hc. rewrite value_at_unfold, decide_False by done. rewrite Hu.
  by destruct (_backward vu).
Qed.

Lemma value_at_fuel (h : heap num) x t :
  heap_wf h → ∀ f f' u, u < f → u < f' → value_at f h x t u = value_at f' h x t u.
Proof.
  intros Hwf. induction f as [|f IH]; intros f' u Hf Hf'; [lia|].
  destruct f' as [|f']; [lia|]. rewrite !value_at_unfold. case_decide; [done|].
  destruct (h !! u) as [vu|] eqn:Hu; [|done].
  assert (forward (_backward vu) (value_at f h x t) =
          forward (_backward vu) (value_at f' h x t)) as Hfw.
  { apply forward_ext. intros r Hr.
    pose proof (wf_operand h u vu r Hwf Hu Hr) as Hop.
    pose proof (arena_ordered_operand h _ _ (heap_wf_arena_ordered h Hwf) Hop).
    apply IH; lia. }
  destruct (_backward vu); try done; by rewrite Hfw.
Qed.

(** At the value [x] holds, the forward computation gives every node the
    value it holds. *)
Lemma value_at_data (h : heap num) x root :
  heap_wf h →
  (∀ u vu, reachable h root u → h !! u = Some vu → node_consistent h vu) →
  ∀ f u, reachable h root u → u < f → u < length h →
    value_at f h x (data_of h x) u = data_of h u.
Proof.
  intros Hwf Hcons. induction f as [|f IH]; intros u Hreach Hf Hu; [lia|].
  rewrite value_at_unfold. case_decide as Hux; [by subst|].
  destruct (lookup_lt_is_Some_2 h u Hu) as [vu Hvu]. rewrite Hvu.
  assert (data_of h u = data vu) as -> by (unfold data_of; by rewrite Hvu).
  destruct (Hcons u vu Hreach Hvu) as [HN|[Hfw _]]; [by rewrite HN|].
  assert (forward (_backward vu) (value_at f h x (data_of h x)) =
          forward (_backward vu) (data_of h)) as Hext.
  { apply forward_ext. intros r Hr.
    pose proof (wf_operand h u vu r Hwf Hvu Hr) as Hop.
    pose proof (arena_ordered_operand h _ _ (heap_wf_arena_ordered h Hwf) Hop).
    apply IH; [by eapply reachable_step|lia|lia]. }
  destruct (_backward vu); try done; by rewrite Hext, Hfw.
Qed.

Lemma expression_node (h : heap num) x t u vu :
  heap_wf h → u ≠ x → h !! u = Some vu → _backward vu ≠ BNone →
  value_at (length h) h x t u =
    match forward (_backward vu) (value_at (length h) h x t) with
    | Ok d => d
    | Raise _ => of_int 0
    end.
Proof.
  intros Hwf Hne Hu Hc. pose proof (lookup_lt_Some _ _ _ Hu) as Hlt.
  rewrite (value_at_fuel h x t Hwf (length h) (S u) u) by lia.
  rewrite (value_at_node u h x t u vu) by done.
  assert (forward (_backward vu) (value_at u h x t) =
          forward (_backward vu) (value_at (length h) h x t)) as ->; [|done].
  apply forward_ext. intros r Hr.
  pose proof (wf_operand h u vu r Hwf Hu Hr) as Hop.
  pose proof (arena_ordered_operand h _ _ (heap_wf_arena_ordered h Hwf) Hop).
  apply value_at_fuel; [done|lia|lia].
Qed.

Lemma expression_self (h : heap num) x t :
  x < length h → value_at (length h) h x t x = t.
Proof.
  intros Hx. destruct (length h); [lia|]. rewrite value_at_unfold.
  by rewrite decide_True.
Qed.

Lemma expression_leaf (h : heap num) x t u vu :
  u ≠ x → h !! u = Some vu → _backward vu = BNone →
  value_at (length h) h x t u = data vu.
Proof.
  intros Hne Hu Hc. pose proof (lookup_lt_Some _ _ _ Hu) as Hlt.
  destruct (length h); [lia|]. rewrite value_at_unfold, decide_False by done.
  by rewrite Hu, Hc.
Qed.

Lemma sweep_order_operand (h : heap num) l w c :
  sweep_order h l → w ∈ l → operand h c w → c ∈ l.
Proof.
  induction 1 as [|u l Hu Hops Hl IH]; intros Hw Hc; [by apply elem_of_nil in Hw|].
  apply elem_of_cons in Hw as [->|Hw]; right; [by apply Hops|by apply IH].
Qed.

Lemma sweep_order_reachable (h : heap num) l w x :
  sweep_order h l → w ∈ l → reachable h w x → x ∈ l.
Proof.
  intros Hl Hw Hr. unfold reachable in Hr. revert x Hr. apply rtc_ind_r; [done|].
  intros y z _ Hyz Hy. by eapply sweep_order_operand.
Qed.

Lemma sweep_order_unreachable (h : heap num) u l w :
  sweep_order h (u :: l) → w ∈ l → ¬ reachable h w u.
Proof.
  intros Hs Hw Hr. inversion Hs as [|u' l' Hu Hops Hl]; subst.
  apply Hu. by eapply sweep_order_reachable.
Qed.

Lemma sweep_order_NoDup (h : heap num) l : sweep_order h l → NoDup l.
Proof. induction 1; by constructor. Qed.

Lemma sweep_order_reverse (h : heap num) (topo : list ref) :
  NoDup topo → (∀ c v, v ∈ topo → operand h c v → before topo c v) →
  sweep_order h (reverse topo).
Proof.
  induction topo as [|u t IH] using rev_ind; intros Hnd Hbf; [constructor|].
  rewrite reverse_app. simpl. apply NoDup_app in Hnd as (Hndt & Hdisj & _).
  assert (u ∉ t) as Hut.
  { intros Hu. apply (Hdisj u Hu). left. }
  constructor.
  - by rewrite elem_of_reverse.
  - intros c Hc. rewrite elem_of_reverse.
    destruct (Hbf c u) as (i & j & Hi & Hj & Hlt); [set_solver|done|].
    assert (j ≤ length t).
    { apply lookup_lt_Some in Hj. rewrite length_app in Hj. simpl in Hj. lia. }
    rewrite lookup_app_l in Hi by lia. by eapply list_elem_of_lookup_2.
  - apply IH; [done|]. intros c v Hv Hc.
    destruct (Hbf c v) as (i & j & Hi & Hj & Hlt); [set_solver|done|].
    assert (j < length t).
    { destruct (decide (j < length t)); [done|].
      rewrite lookup_app_r in Hj by lia.
      apply list_lookup_singleton_Some in Hj as [_ ->]. done. }
    exists i, j. rewrite lookup_app_l in Hi by lia.
    rewrite lookup_app_l in Hj by lia. done.
Qed.
End Partials.

(** ** The stores the operations build

    Every node of a store built by the operations is well formed and holds
    the value its operation computed. *)

Section Built.
Context {num : Type} `{!PyNum num}.

Definition heap_consistent (h : heap num) : Prop :=
  ∀ u vu, h !! u = Some vu → node_consistent h vu.

Definition built (h : heap num) : Prop := heap_wf h ∧ heap_consistent h.

Definition keeps_built (m : M num ref) : Prop :=
  hoare built m (λ out h, built h ∧ out < length h) built.

Lemma data_of_lookup (h : heap num) r v : h !! r = Some v → data_of h r = data v.
Proof. intros Hr. unfold data_of. by rewrite Hr. Qed.

Lemma data_of_app_l (h k : heap num) r :
  r < length h → data_of (h ++ k) r = data_of h r.
Proof. intros Hr. unfold data_of. by rewrite lookup_app_l. Qed.

Lemma built_nil : built [].
Proof. split; [apply heap_wf_nil|]. intros u vu Hu. by rewrite lookup_nil in Hu. Qed.

Lemma built_snoc (h : heap num) v :
  built h → node_wf (length h) v →
  (_backward v = BNone ∨
   (forward (_backward v) (data_of h) = Ok (data v) ∧
    ∀ s t o, _backward v = BTanh s t o → t = data v)) →
  built (h ++ [v]).
Proof.
  intros [Hwf Hcons] Hv Hnew. split; [by apply heap_wf_snoc|].
  assert (∀ u vu, (h ++ [v]) !! u = Some vu → node_wf u vu) as Hwf'
    by (by apply heap_wf_snoc).
  intros u vu Hu.
  assert (forward (_backward vu) (data_of (h ++ [v])) =
          forward (_backward vu) (data_of h)) as Hext.
  { apply forward_ext. intros r Hr. apply data_of_app_l.
    destruct (Hwf' u vu Hu) as (Hm & _ & Hlt).
    assert (r < u) by (apply Hlt; rewrite Hm; by apply elem_of_list_to_set).
    apply lookup_lt_Some in Hu. rewrite length_app in Hu. simpl in Hu. lia. }
  unfold node_consistent. rewrite Hext.
  apply lookup_app_Some in Hu as [Hu|[_ Hu]].
  - by apply (Hcons u vu).
  - apply list_lookup_singleton_Some in Hu as [_ ->]. done.
Qed.

Lemma hoare_new_node_built (P : heap num → Prop) d cs op (c : ref → closure num) :
  (∀ h, P h →
     built h ∧ Forall (λ r, r < length h) cs ∧
     operands (c (length h)) = cs ∧ captured_out (c (length h)) = Some (length h) ∧
     forward (c (length h)) (data_of h) = Ok d ∧
     (∀ s t o, c (length h) = BTanh s t o → t = d)) →
  hoare P (out ← __init__ d cs op; set_backward out (c out);; mret out)
    (λ out h, built h ∧ out < length h) built.
Proof.
  intros HP. apply hoare_new_node. intros h Hh.
  destruct (HP h Hh) as (Hb & Hcs & Hops & Hout & Hfw & Ht).
  split; [|rewrite length_app; simpl; lia].
  apply built_snoc; [done|by apply node_wf_new|]. right. simpl. by split.
Qed.

Lemma keeps_built_bind (m : M num ref) (k : ref → M num ref) :
  keeps_built m → (∀ a, keeps_built (k a)) → keeps_built (m ≫= k).
Proof.
  intros Hm Hk. eapply hoare_bind; [exact Hm|]. intros a.
  eapply hoare_conseq; [apply Hk|tauto|done].
Qed.

Lemma keeps_built_final (m : M num ref) (h : heap num) :
  keeps_built m → built h → built (final (m h)).
Proof.
  intros Hm Hb. specialize (Hm h Hb). destruct (res (m h)); tauto.
Qed.

Lemma leaf_built (d : num) : keeps_built (__init__ d [] "").
Proof.
  intros h Hb. simpl. split; [|rewrite length_app; simpl; lia].
  apply built_snoc; [done|apply node_wf_leaf|by left].
Qed.

Lemma as_Value_built (other : pyobj num) :
  hoare built (as_Value other)
    (λ o h, built h ∧ (other = PyValue o ∨ o < length h)) built.
Proof.
  destruct other as [r|n]; simpl.
  - apply hoare_ret. auto.
  - intros h Hb. simpl. split; [|right; rewrite length_app; simpl; lia].
    apply built_snoc; [done|apply node_wf_leaf|by left].
Qed.

(** Reading [r.data] in a store that satisfies [P]. *)
Lemma hoare_get_data (P : heap num → Prop) (r : ref) (E : heap num → Prop) :
  (∀ h, P h → E h) →
  hoare P (getattr data r)
    (λ a h, P h ∧ r < length h ∧ a = data_of h r) E.
Proof.
  intros HE. apply hoare_getattr; [|done]. intros h v HP Hv.
  split_and!; [done|by eapply lookup_lt_Some|by rewrite (data_of_lookup h r v)].
Qed.

Lemma hoare_lift_eq {A} (P : heap num → Prop) (r : result A) (E : heap num → Prop) :
  (∀ h, P h → E h) → hoare P (lift r) (λ a h, P h ∧ r = Ok a) E.
Proof. intros HE. apply hoare_lift; [tauto|done]. Qed.

Lemma __add___built self other : keeps_built (__add__ self other).
Proof.
  eapply hoare_bind; [apply as_Value_built|]. intros o.
  eapply hoare_bind; [apply hoare_get_data; tauto|]. intros a.
  eapply hoare_bind; [apply hoare_get_data; tauto|]. intros b.
  apply hoare_new_node_built. intros h (((Hb & _) & Hs & ->) & Ho & ->).
  split_and!; [done|by repeat constructor|done|done|done|done].
Qed.

Lemma __mul___built self other : keeps_built (__mul__ self other).
Proof.
  eapply hoare_bind; [apply as_Value_built|]. intros o.
  eapply hoare_bind; [apply hoare_get_data; tauto|]. intros a.
  eapply hoare_bind; [apply hoare_get_data; tauto|]. intros b.
  apply hoare_new_node_built. intros h (((Hb & _) & Hs & ->) & Ho & ->).
  split_and!; [done|by repeat constructor|done|done|done|done].
Qed.

Lemma __pow___built self other : keeps_built (__pow__ self other).
Proof.
  destruct other as [r|n]; simpl; [by apply hoare_raise|].
  eapply hoare_bind; [apply hoare_get_data; tauto|]. intros a.
  eapply hoare_bind; [apply hoare_lift_eq; tauto|]. intros d.
  apply hoare_new_node_built. intros h ((Hb & Hs & ->) & Hd).
  split_and!; [done|by repeat constructor|done|done|done|done].
Qed.

Lemma tanh_built self : keeps_built (tanh self).
Proof.
  eapply hoare_bind; [apply hoare_get_data; tauto|]. intros x.
  eapply hoare_bind; [apply hoare_lift_eq; tauto|]. intros e1.
  eapply hoare_bind; [apply hoare_lift_eq; tauto|]. intros e2.
  eapply hoare_bind; [apply hoare_lift_eq; tauto|]. intros t.
  apply hoare_new_node_built.
  intros h ((((Hb & Hs & ->) & He1) & He2) & Ht).
  split_and!; [done|by repeat constructor|done|done| |].
  - cbv beta. unfold forward, rbind. rewrite He1 in He2 |- *.
    injection He2 as <-. done.
  - intros s t0 o ?. by simplify_eq.
Qed.

Lemma relu_built self : keeps_built (relu self).
Proof.
  eapply hoare_bind; [apply hoare_get_data; tauto|]. intros x.
  apply hoare_new_node_built. intros h (Hb & Hs & ->).
  split_and!; [done|by repeat constructor|done|done|done|done].
Qed.

Lemma exp_built self : keeps_built (exp self).
Proof.
  eapply hoare_bind; [apply hoare_get_data; tauto|]. intros x.
  eapply hoare_bind; [apply hoare_lift_eq; tauto|]. intros e.
  apply hoare_new_node_built. intros h ((Hb & Hs & ->) & He).
  split_and!; [done|by repeat constructor|done|done|done|done].
Qed.

Lemma __radd___built self other : keeps_built (__radd__ self other).
Proof. apply __add___built. Qed.

Lemma __rmul___built self other : keeps_built (__rmul__ self other).
Proof. apply __mul___built. Qed.

Lemma __neg___built self : keeps_built (__neg__ self).
Proof. apply __mul___built. Qed.

Lemma __sub___built self other : keeps_built (__sub__ self other).
Proof.
  unfold __sub__, neg_obj. destruct other as [r|n].
  - eapply hoare_bind with (Q := λ _, built).
    + eapply hoare_bind; [apply __neg___built|]. intros a. apply hoare_ret. tauto.
    + intros o. apply __add___built.
  - eapply hoare_bind with (Q := λ _, built); [by apply hoare_ret|].
    intros o. apply __add___built.
Qed.

Lemma __rsub___built self other : keeps_built (__rsub__ self other).
Proof.
  eapply hoare_bind; [apply __neg___built|]. intros n.
  eapply hoare_conseq; [apply __radd___built|tauto|done].
Qed.

Lemma __truediv___built self other : keeps_built (__truediv__ self other).
Proof.
  unfold __truediv__, inv_obj. destruct other as [r|n].
  - eapply hoare_bind with (Q := λ _, built).
    + eapply hoare_bind; [apply __pow___built|]. intros a. apply hoare_ret. tauto.
    + intros o. apply __mul___built.
  - eapply hoare_bind with (Q := λ _, built).
    + eapply hoare_bind with (Q := λ _, built); [by apply hoare_lift|].
      intros p. by apply hoare_ret.
    + intros o. apply __mul___built.
Qed.

Lemma __rtruediv___built self other : keeps_built (__rtruediv__ self other).
Proof.
  eapply hoare_bind; [apply __pow___built|]. intros p.
  eapply hoare_conseq; [apply __rmul___built|tauto|done].
Qed.

(** [backward] changes no value: the store stays one the operations built. *)
Lemma grad_frame_built (h h' : heap num) : grad_frame h h' → built h → built h'.
Proof.
  intros Hf [Hwf Hcons]. split; [by eapply grad_frame_wf|].
  intros u vu' Hu.
  destruct (grad_frame_lookup_r _ _ _ _ Hf Hu) as (vu & Hvu & Hd & Hb & _).
  assert (∀ r, data_of h' r = data_of h r) as Hdata.
  { intros r. unfold data_of. destruct (h !! r) as [v|] eqn:Hr.
    - destruct (grad_frame_lookup _ _ _ _ Hf Hr) as (v' & -> & Hd' & _). done.
    - destruct (h' !! r) as [v'|] eqn:Hr'; [|done].
      destruct (grad_frame_lookup_r _ _ _ _ Hf Hr') as (v & Hv & _). congruence. }
  unfold node_consistent. rewrite Hb, Hd.
  rewrite (forward_ext _ (data_of h') (data_of h)) by (intros; apply Hdata).
  apply (Hcons u vu Hvu).
Qed.
End Built.

Section Adjoint.
Context {num : Type} `{!PyNum num} `{!ExactArith num}.
Add Ring num_ring : exact_semiring.

(** The gradient the rule reads. *)
Definition out_grad (h : heap num) (c : closure num) : num :=
  match captured_out c with Some out => gradf h out | None => of_int 0 end.

Lemma gradf_lookup (h : heap num) r v : h !! r = Some v → gradf h r = grad v.
Proof. intros Hr. unfold gradf. by rewrite Hr. Qed.

Lemma get_data_lookup (h : heap num) r v : h !! r = Some v → get_data h r = Ok (data v).
Proof. intros Hr. unfold get_data. by rewrite Hr. Qed.

(** Running a rule: it returns exactly when its local derivatives are
    defined, and then writes each of them times the gradient of the output. *)
Lemma call_outcome (h : heap num) (c : closure num) :
  rule_ready h c →
  match partials h c with
  | Ok ps => res (call c h) = Ok tt ∧
             writes (call c h) = map (λ p, AddGrad p.1 (nmul p.2 (out_grad h c))) ps
  | Raise e => res (call c h) = Raise e ∧ writes (call c h) = []
  end.
Proof.
  intros [Hops Hout]. unfold out_grad.
  destruct c as [|s o out|s o out|s n out|s t out|s out|s out]; simpl in *.
  - done.
  - destruct (Hout out eq_refl) as [Ho Hne].
    destruct (lookup_lt_is_Some_2 h out Ho) as [vout Hvout].
    destruct (lookup_lt_is_Some_2 h s) as [vs Hvs]; [apply Hops; set_solver|].
    rewrite (gradf_lookup _ _ _ Hvout).
    rewrite (run_getattr_bind _ _ _ _ _ Hvout).
    erewrite run_bind_Ok by (by apply run_iadd).
    set (h1 := <[s := _]> h).
    assert (h1 !! out = Some vout) as Hvout1.
    { unfold h1. rewrite list_lookup_insert_ne by set_solver. done. }
    rewrite (run_getattr_bind _ _ _ _ _ Hvout1).
    destruct (iadd_outcome o (grad vout) h1) as [-> ->].
    { unfold h1. rewrite length_insert. apply Hops. set_solver. }
    simpl. split; [done|]. f_equal; [|f_equal]; f_equal; ring.
  - destruct (Hout out eq_refl) as [Ho Hne].
    destruct (lookup_lt_is_Some_2 h out Ho) as [vout Hvout].
    destruct (lookup_lt_is_Some_2 h s) as [vs Hvs]; [apply Hops; set_solver|].
    destruct (lookup_lt_is_Some_2 h o) as [vo Hvo]; [apply Hops; set_solver|].
    rewrite (gradf_lookup _ _ _ Hvout).
    rewrite (get_data_lookup _ _ _ Hvo), (get_data_lookup _ _ _ Hvs). simpl.
    rewrite (run_getattr_bind _ _ _ _ _ Hvo), (run_getattr_bind _ _ _ _ _ Hvout).
    erewrite run_bind_Ok by (by apply run_iadd).
    set (h1 := <[s := _]> h).
    assert (h1 !! out = Some vout) as Hvout1.
    { unfold h1. rewrite list_lookup_insert_ne by set_solver. done. }
    assert (∃ vs1, h1 !! s = Some vs1 ∧ data vs1 = data vs) as (vs1 & Hvs1 & Hd1).
    { eexists. split; [apply list_lookup_insert_eq; by eapply lookup_lt_Some|done]. }
    rewrite (run_getattr_bind _ _ _ _ _ Hvs1), (run_getattr_bind _ _ _ _ _ Hvout1).
    destruct (iadd_outcome o (nmul (data vs1) (grad vout)) h1) as [-> ->].
    { unfold h1. rewrite length_insert. apply Hops. set_solver. }
    simpl. by rewrite Hd1.
  - destruct (Hout out eq_refl) as [Ho Hne].
    destruct (lookup_lt_is_Some_2 h out Ho) as [vout Hvout].
    destruct (lookup_lt_is_Some_2 h s) as [vs Hvs]; [apply Hops; set_solver|].
    rewrite (gradf_lookup _ _ _ Hvout).
    rewrite (get_data_lookup _ _ _ Hvs). simpl.
    rewrite (run_getattr_bind _ _ _ _ _ Hvs).
    destruct (npow (data vs) (nsub n (of_int 1))) as [p|e]; simpl; [|done].
    rewrite (run_getattr_bind _ _ _ _ _ Hvout).
    by rewrite (run_iadd _ _ _ _ Hvs).
  - destruct (Hout out eq_refl) as [Ho Hne].
    destruct (lookup_lt_is_Some_2 h out Ho) as [vout Hvout].
    destruct (lookup_lt_is_Some_2 h s) as [vs Hvs]; [apply Hops; set_solver|].
    rewrite (gradf_lookup _ _ _ Hvout).
    destruct (npow t (of_int 2)) as [t2|e]; simpl; [|done].
    rewrite (run_getattr_bind _ _ _ _ _ Hvout).
    by rewrite (run_iadd _ _ _ _ Hvs).
  - destruct (Hout out eq_refl) as [Ho Hne].
    destruct (lookup_lt_is_Some_2 h out Ho) as [vout Hvout].
    destruct (lookup_lt_is_Some_2 h s) as [vs Hvs]; [apply Hops; set_solver|].
    rewrite (gradf_lookup _ _ _ Hvout).
    rewrite (get_data_lookup _ _ _ Hvout). simpl.
    rewrite (run_getattr_bind _ _ _ _ _ Hvout), (run_getattr_bind _ _ _ _ _ Hvout).
    by rewrite (run_iadd _ _ _ _ Hvs).
  - destruct (Hout out eq_refl) as [Ho Hne].
    destruct (lookup_lt_is_Some_2 h out Ho) as [vout Hvout].
    destruct (lookup_lt_is_Some_2 h s) as [vs Hvs]; [apply Hops; set_solver|].
    rewrite (gradf_lookup _ _ _ Hvout).
    rewrite (get_data_lookup _ _ _ Hvout). simpl.
    rewrite (run_getattr_bind _ _ _ _ _ Hvout), (run_getattr_bind _ _ _ _ _ Hvout).
    by rewrite (run_iadd _ _ _ _ Hvs).
Qed.

(** *** Sums *)

Lemma wsum_ext_g (g g' f : ref → num) l :
  (∀ w, w ∈ l → g w = g' w) → wsum g f l = wsum g' f l.
Proof.
  induction l as [|w l IH]; intros Hext; simpl; [done|].
  rewrite Hext by left. rewrite IH; [done|]. intros x Hx. apply Hext. by right.
Qed.

Lemma wsum_zero_f (g f : ref → num) l :
  (∀ w, w ∈ l → f w = of_int 0) → wsum g f l = of_int 0.
Proof.
  induction l as [|w l IH]; intros Hz; simpl; [done|].
  rewrite Hz by left. rewrite IH; [ring|]. intros x Hx. apply Hz. by right.
Qed.

Lemma wsum_zero_g (f : ref → num) l : wsum (λ _, of_int 0) f l = of_int 0.
Proof. induction l as [|x l IH]; simpl; [done|]. rewrite IH. ring. Qed.

Lemma wsum_Permutation (g f : ref → num) l l' :
  l ≡ₚ l' → wsum g f l = wsum g f l'.
Proof.
  induction 1 as [|x l l' _ IH|x y l|l l' l'' _ IH1 _ IH2]; simpl.
  - done.
  - by rewrite IH.
  - ring.
  - by rewrite IH1.
Qed.

Lemma wsum_add_at (g g' f : ref → num) l a d :
  NoDup l → a ∈ l → g' a = nadd (g a) d → (∀ w, w ≠ a → g' w = g w) →
  wsum g' f l = nadd (wsum g f l) (nmul d (f a)).
Proof.
  intros Hnd Ha Hga Hother. induction Hnd as [|w l Hw Hnd IH]; [by apply elem_of_nil in Ha|].
  simpl. apply elem_of_cons in Ha as [->|Ha].
  - rewrite Hga. rewrite (wsum_ext_g g' g f l); [ring|].
    intros x Hx. apply Hother. intros ->. done.
  - rewrite IH by done. rewrite Hother; [ring|]. intros ->. done.
Qed.

Lemma wsum_indicator (g f : ref → num) l a :
  NoDup l → a ∈ l → g a = of_int 1 → (∀ w, w ∈ l → w ≠ a → g w = of_int 0) →
  wsum g f l = f a.
Proof.
  intros Hnd Ha Hga Hother. induction Hnd as [|w l Hw Hnd IH]; [by apply elem_of_nil in Ha|].
  simpl. apply elem_of_cons in Ha as [->|Ha].
  - rewrite Hga. rewrite (wsum_ext_g g (λ _, of_int 0) f l).
    + rewrite wsum_zero_g. ring.
    + intros x Hx. apply Hother; [by right|]. intros ->. done.
  - rewrite IH; [|done|].
    + rewrite Hother; [ring|by left|]. intros ->. done.
    + intros x Hx. apply Hother. by right.
Qed.

Lemma tangent_unreachable (h : heap num) v :
  heap_wf h → ∀ f u, ¬ reachable h u v → tangent f h v u = of_int 0.
Proof.
  intros Hwf. induction f as [|f IH]; intros u Hnr; simpl; [done|].
  case_decide as Huv.
  { subst. exfalso. apply Hnr. apply rtc_refl. }
  destruct (h !! u) as [vu|] eqn:Hu; [|done].
  destruct (partials h (_backward vu)) as [ps|e] eqn:Hps; [|done].
  apply foldr_tangent_zero; [intros; ring|intros; ring|].
  intros p Hp. apply IH. intros Hr. apply Hnr.
  eapply reachable_operand; [|exact Hr].
  by eapply partials_operand.
Qed.

(** *** The gradients after a list of additions *)

Lemma gradf_replay (ws : list (write num)) (h : heap num) w :
  gradf (replay ws h) w =
    match h !! w with
    | Some v => foldl (step_grad w) (grad v) ws
    | None => of_int 0
    end.
Proof. unfold gradf. rewrite replay_lookup. by destruct (h !! w). Qed.

Lemma gradf_apply_add (h : heap num) a d w :
  a < length h →
  gradf (apply_write (AddGrad a d) h) w =
    if decide (w = a) then nadd (gradf h a) d else gradf h w.
Proof.
  intros Ha. unfold gradf. simpl. rewrite list_lookup_alter.
  destruct (lookup_lt_is_Some_2 h a Ha) as [va Hva].
  destruct (decide (w = a)) as [->|Hne].
  - rewrite decide_True by done. by rewrite Hva.
  - by rewrite decide_False by done.
Qed.

Lemma length_apply_write (w : write num) (h : heap num) :
  length (apply_write w h) = length h.
Proof. destruct w; simpl; apply length_alter. Qed.

Lemma replay_cons (w : write num) ws (h : heap num) :
  replay (w :: ws) h = replay ws (apply_write w h).
Proof. done. Qed.

Lemma replay_adds_wsum (ps : list (ref * num)) (g : num) (hk : heap num) l (f : ref → num) :
  NoDup l → (∀ p, p ∈ ps → p.1 ∈ l ∧ p.1 < length hk) →
  wsum (gradf (replay (map (λ p, AddGrad p.1 (nmul p.2 g)) ps) hk)) f l =
    nadd (wsum (gradf hk) f l)
      (nmul g (foldr (λ p acc, nadd (nmul p.2 (f p.1)) acc) (of_int 0) ps)).
Proof.
  intros Hnd. revert hk. induction ps as [|p ps IH]; intros hk Hps.
  - simpl. ring.
  - rewrite map_cons, replay_cons. rewrite IH.
    + destruct (Hps p) as [Hpl Hplt]; [left|].
      rewrite (wsum_add_at (gradf hk) _ f l p.1 (nmul p.2 g) Hnd Hpl).
      * simpl. ring.
      * rewrite gradf_apply_add by done. by case_decide.
      * intros w Hw. rewrite gradf_apply_add by done. by case_decide.
    + intros q Hq. rewrite length_apply_write. apply Hps. by right.
Qed.

Lemma replay_adds_other (ps : list (ref * num)) (g : num) (hk : heap num) w :
  w ∉ ps.*1 →
  gradf (replay (map (λ p, AddGrad p.1 (nmul p.2 g)) ps) hk) w = gradf hk w.
Proof.
  intros Hw. rewrite gradf_replay. unfold gradf.
  destruct (hk !! w) as [v|]; [|done]. generalize (grad v). clear v.
  induction ps as [|p ps IH]; intros g0; simpl; [done|].
  rewrite fmap_cons in Hw. apply not_elem_of_cons in Hw as [Hne Hw].
  case_decide; [congruence|]. by apply IH.
Qed.

(** *** Running the rule of one node *)

Lemma wf_rule_ready (h : heap num) u vu :
  heap_wf h → h !! u = Some vu → rule_ready h (_backward vu).
Proof.
  intros Hwf Hu. destruct (Hwf u vu Hu) as (Hm & Hout & Hlt).
  pose proof (lookup_lt_Some _ _ _ Hu) as Hulen.
  assert (∀ r, r ∈ operands (_backward vu) → r < u) as Hops.
  { intros r Hr. apply Hlt. rewrite Hm. by apply elem_of_list_to_set. }
  split.
  - intros r Hr. specialize (Hops r Hr). lia.
  - intros out Ho. rewrite (Hout out Ho). split; [done|].
    intros Hin. specialize (Hops u Hin). lia.
Qed.

(** The body of the loop of [backward]. *)
Definition run_rule (node : ref) : M num unit :=
  c ← getattr _backward node; call c.

Lemma run_rule_outcome (h hk : heap num) u vu :
  heap_wf h → grad_frame h hk → h !! u = Some vu →
  match partials h (_backward vu) with
  | Ok ps =>
      res (run_rule u hk) = Ok tt ∧
      final (run_rule u hk) =
        replay (map (λ p, AddGrad p.1 (nmul p.2 (gradf hk u))) ps) hk
  | Raise e => res (run_rule u hk) = Raise e
  end.
Proof.
  intros Hwf Hfr Hu.
  destruct (grad_frame_lookup _ _ _ _ Hfr Hu) as (vu' & Hu' & _ & Hb & _).
  pose proof (logged_call (_backward vu) hk) as Hlog.
  pose proof (call_outcome hk (_backward vu)) as Hcall.
  rewrite (partials_frame h hk _ Hfr) in Hcall.
  unfold run_rule. rewrite (run_getattr_bind _ _ _ _ _ Hu'), Hb.
  destruct (partials h (_backward vu)) as [ps|e] eqn:Hps.
  - destruct Hcall as [Hres Hw].
    { eapply rule_ready_frame; [done|]. by eapply wf_rule_ready. }
    split; [done|]. rewrite Hlog, Hw. f_equal.
    destruct (Hwf u vu Hu) as (_ & Hout & _).
    unfold out_grad. destruct (captured_out (_backward vu)) as [out|] eqn:Hco.
    + by rewrite (Hout out eq_refl).
    + destruct (_backward vu); simpl in *; try done. by simplify_eq.
  - apply Hcall. eapply rule_ready_frame; [done|]. by eapply wf_rule_ready.
Qed.

Lemma for_each_cons_Ok {A} (x : A) l (body : A → M num unit) (h : heap num) :
  res (for_each (x :: l) body h) = Ok tt →
  res (body x h) = Ok tt ∧
  res (for_each l body (final (body x h))) = Ok tt ∧
  final (for_each (x :: l) body h) = final (for_each l body (final (body x h))).
Proof.
  simpl. rewrite run_bind. destruct (res (body x h)) as [[]|e]; simpl; [|done].
  done.
Qed.

(** *** The reverse sweep *)

Lemma sweep_gradients (h : heap num) l :
  heap_wf h → sweep_order h l → (∀ u, u ∈ l → u < length h) →
  ∀ hk, grad_frame h hk → res (for_each l run_rule hk) = Ok tt →
  ∀ v, v < length h →
    gradf (final (for_each l run_rule hk)) v =
      if decide (v ∈ l) then wsum (gradf hk) (λ w, derivative h w v) l
      else gradf hk v.
Proof.
  intros Hwf Hl. induction Hl as [|u l Hu Hops Hl IH]; intros Hvalid hk Hfr Hres v Hv.
  { done. }
  apply for_each_cons_Ok in Hres as (Hres1 & Hres2 & ->).
  destruct (lookup_lt_is_Some_2 h u) as [vu Hvu]; [apply Hvalid; left|].
  pose proof (run_rule_outcome h hk u vu Hwf Hfr Hvu) as Hrule.
  destruct (partials h (_backward vu)) as [ps|e] eqn:Hps; [|congruence].
  destruct Hrule as [_ Hfin].
  assert (grad_frame h (final (run_rule u hk))) as Hfr'.
  { eapply grad_frame_trans; [exact Hfr|].
    apply wgo_bind; [apply wgo_getattr|intros c; apply wgo_call]. }
  assert (∀ p, p ∈ ps → p.1 ∈ l ∧ p.1 < length hk) as Hps_in.
  { intros p Hp. pose proof (partials_operand h u vu ps p Hwf Hvu Hps Hp) as Hop.
    split; [by apply Hops|]. rewrite (grad_frame_length _ _ Hfr).
    apply Hvalid. right. by apply Hops. }
  assert (∀ w, w ∉ l → gradf (final (run_rule u hk)) w = gradf hk w) as Hother.
  { intros w Hw. rewrite Hfin. apply replay_adds_other.
    intros (p & -> & Hp)%list_elem_of_fmap. by destruct (Hps_in p Hp). }
  rewrite IH; [|intros w Hw; apply Hvalid; by right|done|done|done].
  pose proof (sweep_order_NoDup h l Hl) as Hnd.
  destruct (decide (v ∈ l)) as [Hvl|Hvl].
  - rewrite decide_True by (by right). simpl.
    assert (u ≠ v) as Hne by (intros ->; done).
    rewrite Hfin, (replay_adds_wsum ps _ hk l _ Hnd Hps_in).
    rewrite (derivative_node h v u vu ps Hwf Hne Hvu Hps). ring.
  - rewrite Hother by done. destruct (decide (v = u)) as [->|Hne].
    + rewrite decide_True by left. simpl.
      rewrite derivative_self by done.
      rewrite wsum_zero_f; [ring|]. intros w Hw. apply tangent_unreachable; [done|].
      eapply sweep_order_unreachable; [|exact Hw]. by constructor.
    + rewrite decide_False; [done|]. by intros [->|?]%elem_of_cons.
Qed.

(** The gradients after the seed. *)
Definition seeded (h : heap num) (self : ref) : ref → num :=
  λ w, if decide (w = self) then of_int 1 else gradf h w.

Lemma topo_order_valid iter (h : heap num) self topo :
  order_valid iter → heap_wf h → self < length h →
  topo_order iter h self = Some topo →
  NoDup topo ∧ (∀ u, u ∈ topo ↔ reachable h self u) ∧
  sweep_order h (reverse topo) ∧ (∀ u, u ∈ topo → u < length h).
Proof.
  intros Hiter Hwf Hself Htopo.
  pose proof (heap_wf_arena_ordered h Hwf) as Hord.
  destruct (topo_order_spec iter Hiter h self topo (arena_ordered_acyclic h Hord) Htopo)
    as (Hnd & Hreach & Hbf).
  split_and!; [done|done|by apply sweep_order_reverse|].
  intros u Hu. apply Hreach in Hu. unfold reachable in Hu. revert u Hu.
  apply rtc_ind_r; [done|]. intros y z _ Hyz _.
  by eapply (arena_ordered_closed h Hord).
Qed.

Lemma backward_unfold iter (h : heap num) self topo vr :
  topo_order iter h self = Some topo → h !! self = Some vr →
  let h1 := <[self := with_grad (of_int 1) vr]> h in
  res (backward iter self h) = res (for_each (reverse topo) run_rule h1) ∧
  final (backward iter self h) = final (for_each (reverse topo) run_rule h1).
Proof.
  intros Htopo Hvr h1. unfold backward. rewrite Htopo.
  erewrite run_bind_Ok; [|unfold set_grad; by rewrite Hvr]. done.
Qed.

Lemma gradf_seeded (h : heap num) self vr w :
  h !! self = Some vr →
  gradf (<[self := with_grad (of_int 1) vr]> h) w = seeded h self w.
Proof.
  intros Hvr. unfold gradf, seeded. destruct (decide (w = self)) as [->|Hne].
  - by rewrite list_lookup_insert_eq by (by eapply lookup_lt_Some).
  - by rewrite list_lookup_insert_ne by done.
Qed.

(** What [backward] leaves in every gradient, from any gradients at entry. *)
Lemma backward_gradients iter (h : heap num) self topo :
  order_valid iter → heap_wf h → self < length h →
  topo_order iter h self = Some topo → res (backward iter self h) = Ok tt →
  ∀ v, v < length h →
    gradf (final (backward iter self h)) v =
      if decide (v ∈ topo)
      then wsum (seeded h self) (λ w, derivative h w v) (reverse topo)
      else gradf h v.
Proof.
  intros Hiter Hwf Hself Htopo Hres v Hv.
  destruct (lookup_lt_is_Some_2 h self Hself) as [vr Hvr].
  destruct (backward_unfold iter h self topo vr Htopo Hvr) as [Hr Hf].
  destruct (topo_order_valid iter h self topo Hiter Hwf Hself Htopo)
    as (Hnd & Hreach & Hsweep & Hvalid).
  rewrite Hf. rewrite Hr in Hres.
  rewrite (sweep_gradients h (reverse topo) Hwf Hsweep); [| |by apply grad_frame_with_grad|done|done].
  2:{ intros u Hu. apply Hvalid. by apply elem_of_reverse. }
  destruct (decide (v ∈ topo)) as [Hin|Hnin].
  - rewrite decide_True by (by apply elem_of_reverse).
    apply wsum_ext_g. intros w _. by apply gradf_seeded.
  - rewrite decide_False by (by rewrite elem_of_reverse).
    rewrite (gradf_seeded h self vr v Hvr). unfold seeded.
    rewrite decide_False; [done|]. intros ->. apply Hnin, Hreach, rtc_refl.
Qed.

(** [backward] returns exactly when the local derivatives of every node
    reached from the root are defined. *)
Lemma for_each_rules_Ok (h : heap num) l :
  heap_wf h → (∀ u, u ∈ l → u < length h) →
  ∀ hk, grad_frame h hk →
    res (for_each l run_rule hk) = Ok tt ↔
    ∀ u vu, u ∈ l → h !! u = Some vu → is_Ok (partials h (_backward vu)).
Proof.
  intros Hwf. induction l as [|u l IH]; intros Hvalid hk Hfr.
  { split; [|done]. intros _ u vu Hu. by apply elem_of_nil in Hu. }
  destruct (lookup_lt_is_Some_2 h u) as [vu Hvu]; [apply Hvalid; left|].
  pose proof (run_rule_outcome h hk u vu Hwf Hfr Hvu) as Hrule.
  assert (grad_frame h (final (run_rule u hk))) as Hfr'.
  { eapply grad_frame_trans; [exact Hfr|].
    apply wgo_bind; [apply wgo_getattr|intros c; apply wgo_call]. }
  specialize (IH (λ w Hw, Hvalid w (list_elem_of_further _ _ _ Hw)) _ Hfr').
  split.
  - intros (Hres1 & Hres2 & _)%for_each_cons_Ok u' vu' Hu' Hvu'.
    apply elem_of_cons in Hu' as [->|Hu'].
    + simplify_eq. destruct (partials h (_backward vu)); [done|congruence].
    + by eapply IH.
  - intros Hall. simpl. rewrite run_bind.
    pose proof (Hall u vu (list_elem_of_here _ _) Hvu) as Hok.
    destruct (partials h (_backward vu)) as [ps|e]; [|done].
    destruct Hrule as [-> _]. simpl.
    apply IH. intros u' vu' Hu'. apply Hall. by right.
Qed.

Lemma backward_Ok_iff iter (h : heap num) self :
  order_valid iter → heap_wf h → self < length h →
  res (backward iter self h) = Ok tt ↔
  ∀ u vu, reachable h self u → h !! u = Some vu →
    is_Ok (partials h (_backward vu)).
Proof.
  intros Hiter Hwf Hself.
  pose proof (heap_wf_arena_ordered h Hwf) as Hord.
  destruct (topo_order_returns iter Hiter h self (arena_ordered_closed h Hord) Hself)
    as [topo Htopo].
  destruct (lookup_lt_is_Some_2 h self Hself) as [vr Hvr].
  destruct (backward_unfold iter h self topo vr Htopo Hvr) as [-> _].
  destruct (topo_order_valid iter h self topo Hiter Hwf Hself Htopo)
    as (Hnd & Hreach & Hsweep & Hvalid).
  rewrite (for_each_rules_Ok h (reverse topo) Hwf); [| |by apply grad_frame_with_grad].
  2:{ intros u Hu. apply Hvalid. by apply elem_of_reverse. }
  split; intros Hall u vu Hu; apply Hall.
  - by apply elem_of_reverse, Hreach.
  - by apply Hreach, elem_of_reverse.
Qed.

Lemma grad_frame_eq (h h1 h2 : heap num) :
  grad_frame h h1 → grad_frame h h2 →
  (∀ v, v < length h → gradf h1 v = gradf h2 v) → h1 = h2.
Proof.
  intros Hf1 Hf2 Hg. apply list_eq. intros i.
  destruct (h !! i) as [v|] eqn:Hi.
  - destruct (grad_frame_lookup _ _ _ _ Hf1 Hi) as (v1 & Hv1 & Hs1).
    destruct (grad_frame_lookup _ _ _ _ Hf2 Hi) as (v2 & Hv2 & Hs2).
    specialize (Hg i (lookup_lt_Some _ _ _ Hi)). unfold gradf in Hg.
    rewrite Hv1, Hv2 in Hg |- *. f_equal.
    destruct Hs1 as (?&?&?&?&?), Hs2 as (?&?&?&?&?).
    destruct v1, v2; simpl in *. congruence.
  - apply lookup_ge_None in Hi.
    rewrite (lookup_ge_None_2 h1), (lookup_ge_None_2 h2); [done| |].
    + by rewrite (grad_frame_length _ _ Hf2).
    + by rewrite (grad_frame_length _ _ Hf1).
Qed.

(** With all gradients zero at entry, [backward] leaves in every node the
    derivative of the root by that node. *)
Lemma backward_computes_derivative iter (h : heap num) self :
  order_valid iter → heap_wf h → self < length h →
  (∀ i v, h !! i = Some v → grad v = of_int 0) →
  res (backward iter self h) = Ok tt →
  ∀ v, v < length h →
    gradf (final (backward iter self h)) v = derivative h self v.
Proof.
  intros Hiter Hwf Hself Hzero Hres v Hv.
  pose proof (heap_wf_arena_ordered h Hwf) as Hord.
  destruct (topo_order_returns iter Hiter h self (arena_ordered_closed h Hord) Hself)
    as [topo Htopo].
  destruct (topo_order_valid iter h self topo Hiter Hwf Hself Htopo)
    as (Hnd & Hreach & Hsweep & Hvalid).
  rewrite (backward_gradients iter h self topo) by done.
  assert (∀ w, gradf h w = of_int 0) as Hg0.
  { intros w. unfold gradf. destruct (h !! w) as [vw|] eqn:Hw; [|done]. by eapply Hzero. }
  destruct (decide (v ∈ topo)) as [Hin|Hnin].
  - apply (wsum_indicator (seeded h self) (λ w, derivative h w v) (reverse topo) self).
    + by rewrite reverse_Permutation.
    + apply elem_of_reverse, Hreach, rtc_refl.
    + unfold seeded. by rewrite decide_True.
    + intros w _ Hne. unfold seeded. by rewrite decide_False.
  - rewrite Hg0. symmetry. apply tangent_unreachable; [done|].
    intros Hr. by apply Hnin, Hreach.
Qed.

(** C9 (in exact arithmetic): where the scalars form a commutative
    semiring, the store [backward] leaves does not depend on the order in
    which operand sets are iterated: if a run with one order returns, a run
    with any other order returns too, and leaves the same gradient in every
    node, whatever the gradients at entry. *)
Theorem gradients_order_independent (iter1 iter2 : set_order) (h : heap num) (self : ref) :
  order_valid iter1 → order_valid iter2 → heap_wf h → self < length h →
  res (backward iter1 self h) = Ok tt →
  res (backward iter2 self h) = Ok tt ∧
  final (backward iter2 self h) = final (backward iter1 self h).
Proof.
  intros Hiter1 Hiter2 Hwf Hself Hres1.
  assert (res (backward iter2 self h) = Ok tt) as Hres2.
  { apply (backward_Ok_iff iter2 h self Hiter2 Hwf Hself).
    by apply (backward_Ok_iff iter1 h self Hiter1 Hwf Hself). }
  split; [done|].
  pose proof (heap_wf_arena_ordered h Hwf) as Hord.
  pose proof (arena_ordered_closed h Hord) as Hcl.
  destruct (topo_order_returns iter1 Hiter1 h self Hcl Hself) as [topo1 Htopo1].
  destruct (topo_order_returns iter2 Hiter2 h self Hcl Hself) as [topo2 Htopo2].
  destruct (topo_order_valid iter1 h self topo1 Hiter1 Hwf Hself Htopo1)
    as (Hnd1 & Hreach1 & _ & _).
  destruct (topo_order_valid iter2 h self topo2 Hiter2 Hwf Hself Htopo2)
    as (Hnd2 & Hreach2 & _ & _).
  apply (grad_frame_eq h); [apply wgo_backward|apply wgo_backward|].
  intros v Hv.
  rewrite (backward_gradients iter1 h self topo1) by done.
  rewrite (backward_gradients iter2 h self topo2) by done.
  assert (topo2 ≡ₚ topo1) as Hperm.
  { apply NoDup_Permutation; [done|done|]. intros u. by rewrite Hreach1, Hreach2. }
  destruct (decide (v ∈ topo1)) as [Hin|Hnin].
  - rewrite decide_True by (by rewrite Hperm).
    apply wsum_Permutation. by rewrite !reverse_Permutation.
  - by rewrite decide_False by (by rewrite Hperm).
Qed.
End Adjoint.

(** ** Python floats: the engine on binary64 numbers *)

(** A platform on which the examples below run.  Of the C library's [pow]
    it has the two cases the C standard fixes exactly, [pow(x, 0) = 1] and
    [pow(x, 1) = x]; the examples reach no other. *)
Definition example_runtime : PyRuntime := {|
  libm_exp := λ _, Raise OverflowError;
  libm_pow := λ x y, if (y =? 0)%float then Ok 1%float
                     else if (y =? 1)%float then Ok x
                     else Raise OverflowError;
  float_str := λ _, ""
|}.

(** [Value(d)] as it sits in the store. *)
Definition leaf (d : float) : Value float :=
  mkValue d 0%float BNone ∅ "" "".

Section Floats.
Context `{!PyRuntime}.

Lemma run_set_grad (r : ref) (g : float) (h : heap float) v :
  h !! r = Some v →
  set_grad r g h = mkOutcome (Ok tt) (<[r := with_grad g v]> h) [SetGrad r g].
Proof. intros Hr. unfold set_grad. by rewrite Hr. Qed.

Lemma run_iadd_grad (r : ref) (d : float) (h : heap float) v :
  h !! r = Some v →
  iadd_grad r d h =
    mkOutcome (Ok tt) (<[r := with_grad (grad v + d)%float v]> h) [AddGrad r d].
Proof. intros Hr. unfold iadd_grad. by rewrite Hr. Qed.

(** C8: [backward] on a node without operands sets [grad] of that node to
    [1.0] and does nothing else: the call returns, the store it leaves is
    the store at entry with that one attribute replaced, and the only write
    is the seed. *)
Theorem backward_on_leaf (iter : set_order) (h : heap float) (self : ref) vr :
  order_valid iter → h !! self = Some vr → _prev vr = ∅ → rule_matches vr →
  backward iter self h =
    mkOutcome (Ok tt) (<[self := with_grad 1%float vr]> h) [SetGrad self 1%float].
Proof. exact (backward_no_operands iter h self vr). Qed.

(** C2: for a leaf [x] with gradient zero, [y = x + x] has the one operand
    [x], and [y.backward()] returns with [x.grad == 2.0]: after the seed,
    the rule of [y] adds [1.0] to [x.grad] twice. *)
Theorem fan_out_accumulates (iter : set_order) (h : heap float) (x : ref) vx :
  order_valid iter → h !! x = Some vx → is_leaf vx → grad vx = 0%float →
  let o := __add__ x (PyValue x) h in
  let y := length h in
  res o = Ok y ∧
  (∃ vy, final o !! y = Some vy ∧ _prev vy = {[x]}) ∧
  let o' := backward iter y (final o) in
  res o' = Ok tt ∧
  writes o' = [SetGrad y 1%float; AddGrad x 1%float; AddGrad x 1%float] ∧
  final o' !! x = Some (with_grad 2%float vx).
Proof.
  intros Hiter Hx Hleaf Hg. pose proof (lookup_lt_Some _ _ _ Hx) as Hlt.
  rewrite (run_add x x h vx vx Hx Hx). simpl.
  set (y := length h).
  set (vy := mkValue (data vx + data vx)%float (float_of_int 0) (BAdd x x y)
               ({[x]} ∪ ({[x]} ∪ ∅)) "+" "").
  set (h1 := h ++ [vy]).
  assert (h1 !! y = Some vy) as Hy1 by (by apply list_lookup_middle).
  assert (h1 !! x = Some vx) as Hx1 by (by apply lookup_app_l_Some).
  split; [done|]. split.
  { exists vy. split; [done|]. simpl. set_solver. }
  rewrite (backward_shallow iter Hiter h1 y vy Hy1).
  2:{ simpl. subst y. set_solver by lia. }
  2:{ simpl. intros c Hc. assert (c = x) as -> by set_solver. by exists vx. }
  set (h2 := <[y := with_grad 1%float vy]> h1).
  assert (h2 !! y = Some (with_grad 1%float vy)) as Hy2.
  { apply list_lookup_insert_eq. by eapply lookup_lt_Some. }
  assert (h2 !! x = Some vx) as Hx2.
  { unfold h2. rewrite list_lookup_insert_ne by (subst y; lia). done. }
  erewrite run_bind_Ok by (by apply run_set_grad).
  change (call (_backward vy)) with (call (num := float) (BAdd x x y)).
  unfold call.
  rewrite (run_getattr_bind _ _ _ _ _ Hy2).
  set (h3 := <[x := with_grad (grad vx + 1)%float vx]> h2).
  assert (h3 !! y = Some (with_grad 1%float vy)) as Hy3.
  { unfold h3. rewrite list_lookup_insert_ne by (subst y; lia). done. }
  assert (h3 !! x = Some (with_grad (grad vx + 1)%float vx)) as Hx3.
  { apply list_lookup_insert_eq. by eapply lookup_lt_Some. }
  erewrite run_bind_Ok by (by apply run_iadd_grad).
  rewrite (run_getattr_bind _ _ _ _ _ Hy3).
  rewrite (run_iadd_grad _ _ _ _ Hx3). simpl.
  split_and!; [done|done|].
  rewrite list_lookup_insert_eq by (by eapply lookup_lt_Some).
  unfold with_grad. simpl. rewrite Hg. done.
Qed.

Lemma float_of_bool (b : bool) :
  of_bool b = (if b then 1 else 0)%float.
Proof. by destruct b. Qed.

(** The rule of a [relu] node: what it writes. *)
Lemma run_call_relu (h : heap float) (s t : ref) vs vt :
  h !! s = Some vs → h !! t = Some vt →
  call (BRelu s t) h =
    let d := ((if (0 <? data vt) then 1 else 0) * grad vt)%float in
    mkOutcome (Ok tt) (<[s := with_grad (grad vs + d)%float vs]> h) [AddGrad s d].
Proof.
  intros Hs Ht. unfold call.
  rewrite (run_getattr_bind _ _ _ _ _ Ht), (run_getattr_bind _ _ _ _ _ Ht).
  rewrite (run_iadd_grad _ _ _ _ Hs). by rewrite float_of_bool.
Qed.

(** C5: [relu] of a node whose value is [0.0] has the value [0.0], and
    [backward] from it adds [0.0] to the gradient of the input.  In any
    store, the rule of a [relu] node adds the gradient [g] of its output
    (as [1 * g]) when the value of the output is greater than zero, and
    [0 * g] otherwise. *)
Theorem relu_at_zero (iter : set_order) (h : heap float) (a : ref) va :
  order_valid iter → h !! a = Some va → is_leaf va → data va = 0%float →
  let o := relu a h in
  let out := length h in
  res o = Ok out ∧
  (∃ vo, final o !! out = Some vo ∧ data vo = 0%float) ∧
  (let o' := backward iter out (final o) in
   res o' = Ok tt ∧
   writes o' = [SetGrad out 1%float; AddGrad a 0%float] ∧
   final o' !! a = Some (with_grad (grad va + 0)%float va)) ∧
  (∀ (h' : heap float) s t vs vt, h' !! s = Some vs → h' !! t = Some vt →
     writes (call (BRelu s t) h') =
       [AddGrad s (if (0 <? data vt)%float then (1 * grad vt)%float
                   else (0 * grad vt)%float)]).
Proof.
  intros Hiter Ha Hleaf Hd. pose proof (lookup_lt_Some _ _ _ Ha) as Hlt.
  rewrite (run_relu a h va Ha). simpl. rewrite Hd.
  set (out := length h).
  set (vo := mkValue 0%float (float_of_int 0) (BRelu a out) ({[a]} ∪ ∅) "ReLU" "").
  change (if (0 <? float_of_int 0)%float then float_of_int 0 else 0%float)
    with 0%float.
  fold vo. set (h1 := h ++ [vo]).
  assert (h1 !! out = Some vo) as Ho1 by (by apply list_lookup_middle).
  assert (h1 !! a = Some va) as Ha1 by (by apply lookup_app_l_Some).
  split; [done|]. split; [by exists vo|]. split.
  - rewrite (backward_shallow iter Hiter h1 out vo Ho1).
    2:{ simpl. subst out. set_solver by lia. }
    2:{ simpl. intros c Hc. assert (c = a) as -> by set_solver. by exists va. }
    set (h2 := <[out := with_grad (of_int 1) vo]> h1).
    assert (h2 !! out = Some (with_grad (of_int 1) vo)) as Ho2.
    { apply list_lookup_insert_eq. by eapply lookup_lt_Some. }
    assert (h2 !! a = Some va) as Ha2.
    { unfold h2. rewrite list_lookup_insert_ne by (subst out; lia). done. }
    erewrite run_bind_Ok by (by apply run_set_grad).
    change (call (_backward vo)) with (call (num := float) (BRelu a out)).
    cbv beta. fold h2. rewrite (run_call_relu h2 a out _ _ Ha2 Ho2). simpl.
    split_and!; [done|done|].
    by rewrite list_lookup_insert_eq by (by eapply lookup_lt_Some).
  - intros h' s t vs vt Hs Ht.
    etransitivity; [exact (f_equal writes (run_call_relu h' s t vs vt Hs Ht))|].
    simpl. by destruct (0 <? data vt)%float.
Qed.

(** C6: for a leaf [a] with value [3.0], [a + 2] and [2 + a] are the same
    computation: both give a node with value [5.0], and [backward] from it
    leaves [a.grad == 1.0]. *)
Theorem add_number_either_side (iter : set_order) (h : heap float) (a : ref) va :
  order_valid iter → h !! a = Some va → is_leaf va →
  data va = 3%float → grad va = 0%float →
  let two := PyNumber (of_int 2) in
  let y := S (length h) in
  ∀ o, o = __add__ a two h ∨ o = __radd__ a two h →
    res o = Ok y ∧
    (∃ vy, final o !! y = Some vy ∧ data vy = 5%float) ∧
    let o' := backward iter y (final o) in
    res o' = Ok tt ∧ final o' !! a = Some (with_grad 1%float va).
Proof.
  intros Hiter Ha Hleaf Hd Hg two y o Ho.
  assert (o = __add__ a two h) as -> by (by destruct Ho).
  pose proof (lookup_lt_Some _ _ _ Ha) as Hlt.
  unfold two. rewrite (run_add_number a _ h va Ha). simpl. rewrite Hd.
  set (k := length h). fold k in y.
  set (vk := mkValue (float_of_int 2) (float_of_int 0) BNone ∅ "" "").
  set (vy := mkValue (3 + float_of_int 2)%float (float_of_int 0) (BAdd a k (S k))
               ({[a]} ∪ ({[k]} ∪ ∅)) "+" "").
  set (h1 := h ++ [vk; vy]).
  assert (h1 !! a = Some va) as Ha1 by (by apply lookup_app_l_Some).
  assert (h1 !! k = Some vk) as Hk1 by (by apply list_lookup_middle).
  assert (h1 !! y = Some vy) as Hy1.
  { unfold h1. rewrite lookup_app_r by (subst y k; lia).
    by replace (y - length h) with 1 by (subst y k; lia). }
  split; [done|]. split; [by exists vy|].
  rewrite (backward_shallow iter Hiter h1 y vy Hy1).
  2:{ simpl. subst y k. set_solver by lia. }
  2:{ simpl. intros c Hc.
      assert (c = a ∨ c = k) as [-> | ->] by set_solver; [by exists va|by exists vk]. }
  set (h2 := <[y := with_grad 1%float vy]> h1).
  assert (h2 !! y = Some (with_grad 1%float vy)) as Hy2.
  { apply list_lookup_insert_eq. by eapply lookup_lt_Some. }
  assert (h2 !! a = Some va) as Ha2.
  { unfold h2. rewrite list_lookup_insert_ne by (subst y k; lia). done. }
  erewrite run_bind_Ok by (by apply run_set_grad).
  change (call (_backward vy)) with (call (num := float) (BAdd a k y)).
  unfold call.
  rewrite (run_getattr_bind _ _ _ _ _ Hy2).
  set (h3 := <[a := with_grad (grad va + 1)%float va]> h2).
  assert (h3 !! y = Some (with_grad 1%float vy)) as Hy3.
  { unfold h3. rewrite list_lookup_insert_ne by (subst y k; lia). done. }
  assert (h3 !! k = Some vk) as Hk3.
  { unfold h3, h2. rewrite !list_lookup_insert_ne by (subst y k; lia). done. }
  erewrite run_bind_Ok by (by apply run_iadd_grad).
  rewrite (run_getattr_bind _ _ _ _ _ Hy3).
  rewrite (run_iadd_grad _ _ _ _ Hk3). simpl.
  split; [done|].
  rewrite list_lookup_insert_ne by (subst k; lia).
  unfold h3. rewrite list_lookup_insert_eq by (by eapply lookup_lt_Some).
  unfold with_grad. simpl. rewrite Hg. done.
Qed.
End Floats.

(** ** The power operation *)

Section Power.
Context {num : Type} `{!PyNum num}.

Lemma run_call_pow (h : heap num) (a : ref) (n : num) (out : ref) va vo :
  h !! a = Some va → h !! out = Some vo →
  call (BPow a n out) h =
    match npow (data va) (nsub n (of_int 1)) with
    | Ok p =>
        let d := nmul (nmul n p) (grad vo) in
        mkOutcome (Ok tt) (<[a := with_grad (nadd (grad va) d) va]> h) [AddGrad a d]
    | Raise e => mkOutcome (Raise e) h []
    end.
Proof.
  intros Ha Ho. unfold call. rewrite (run_getattr_bind _ _ _ _ _ Ha).
  destruct (npow (data va) (nsub n (of_int 1))) as [p|e].
  - rewrite run_lift_bind, (run_getattr_bind _ _ _ _ _ Ho).
    unfold iadd_grad. by rewrite Ha.
  - reflexivity.
Qed.

(** C7 (as the code has it): a node-valued exponent fails at the call with
    [AssertionError], and the store is left as it was: no node is built.
    With a constant exponent [n] the check passes, and the operation
    returns exactly when [a.data ** n] does: it then appends the result
    node, and otherwise raises what [**] raised.  The rule of the result
    node adds [n * a.data ** (n - 1) * g] to [a.grad] when
    [a.data ** (n - 1)] returns, and raises what it raised otherwise. *)
Theorem pow_contract (h : heap num) (a : ref) va :
  h !! a = Some va →
  (∀ r, __pow__ a (PyValue r) h =
          mkOutcome (Raise (AssertionError "only supports int/float powers")) h []) ∧
  (∀ n, __pow__ a (PyNumber n) h =
          match npow (data va) n with
          | Ok d =>
              mkOutcome (Ok (length h))
                (h ++ [mkValue d (of_int 0) (BPow a n (length h)) {[a]}
                         ("**" +:+ num_str n) ""]) []
          | Raise e => mkOutcome (Raise e) h []
          end) ∧
  (∀ n out vo, h !! out = Some vo →
     call (BPow a n out) h =
       match npow (data va) (nsub n (of_int 1)) with
       | Ok p =>
           mkOutcome (Ok tt)
             (<[a := with_grad (nadd (grad va) (nmul (nmul n p) (grad vo))) va]> h)
             [AddGrad a (nmul (nmul n p) (grad vo))]
       | Raise e => mkOutcome (Raise e) h []
       end).
Proof.
  intros Ha. split_and!.
  - reflexivity.
  - intros n. destruct (npow (data va) n) as [d|e] eqn:Hd.
    + rewrite (run_pow_number a n h va d Ha Hd). do 2 f_equal.
      f_equal. f_equal. simpl. by rewrite (right_id_L ∅ (∪)).
    + unfold __pow__. rewrite (run_getattr_bind _ _ _ _ _ Ha). by rewrite Hd.
  - intros n out vo Ho. by rewrite (run_call_pow h a n out va vo Ha Ho).
Qed.
End Power.

(** ** The integers as exact scalars

    An instance on which the results for exact arithmetic can be run.
    Division and negative powers are defined where they are exact. *)

Definition Z_div (x y : Z) : result Z :=
  if (y =? 0)%Z then Raise ZeroDivisionError
  else if (x mod y =? 0)%Z then Ok (x / y)%Z else Raise OverflowError.

Definition Z_pow (x n : Z) : result Z :=
  if (0 <=? n)%Z then Ok (x ^ n)%Z
  else if (x =? 0)%Z then Raise ZeroDivisionError
  else Z_div 1 (x ^ (- n))%Z.

#[export] Instance Z_num : PyNum Z := {|
  of_int := λ z, z;
  nadd := Z.add;
  nsub := Z.sub;
  nmul := Z.mul;
  nneg := Z.opp;
  ndiv := Z_div;
  npow := Z_pow;
  math_exp := λ x, if (x =? 0)%Z then Ok 1%Z else Raise OverflowError;
  nlt := Z.ltb;
  num_str := λ _, ""
|}.

#[export] Instance Z_exact : ExactArith Z.
Proof.
  split. constructor; simpl; intros; lia.
Qed.

(** ** The reals as exact scalars: the gradient is the derivative *)

Definition R_ltb (x y : R) : bool := if Rlt_dec x y then true else false.

Definition R_div (x y : R) : result R :=
  if Req_dec_T y 0 then Raise ZeroDivisionError else Ok (x / y)%R.

(** The integer a real is, when it is one. *)
Definition is_int (n : R) : option Z :=
  if Req_dec_T n (IZR (up n - 1)) then Some (up n - 1)%Z else None.

(** [x ** n] on the reals: an integer power for an integer exponent (zero to
    a negative power raises); otherwise [exp (n * ln x)] for a positive base
    and zero for zero to a positive power.  A negative base to a fractional
    power is a complex number in Python, outside the reals: [Stuck]. *)
Definition R_pow (x n : R) : result R :=
  match is_int n with
  | Some k =>
      if Req_dec_T x 0 then
        if (k <? 0)%Z then Raise ZeroDivisionError else Ok (powerRZ x k)
      else Ok (powerRZ x k)
  | None =>
      if Rlt_dec 0 x then Ok (Rpower x n)
      else if Req_dec_T x 0 then
        if Rlt_dec 0 n then Ok 0%R else Raise ZeroDivisionError
      else Raise Stuck
  end.

#[export] Instance R_num : PyNum R := {|
  of_int := IZR;
  nadd := Rplus;
  nsub := Rminus;
  nmul := Rmult;
  nneg := Ropp;
  ndiv := R_div;
  npow := R_pow;
  math_exp := λ x, Ok (Rtrigo_def.exp x);
  nlt := R_ltb;
  num_str := λ _, ""
|}.

#[export] Instance R_exact : ExactArith R.
Proof. split. constructor; simpl; intros; ring. Qed.

Section RealDerivative.
Local Open Scope R_scope.

Lemma is_int_IZR (k : Z) : is_int (IZR k) = Some k.
Proof.
  unfold is_int.
  assert (up (IZR k) = (k + 1)%Z) as ->.
  { symmetry. apply up_tech; [lra|]. rewrite plus_IZR. lra. }
  replace (k + 1 - 1)%Z with k by lia.
  destruct (Req_dec_T (IZR k) (IZR k)); [done|congruence].
Qed.

Lemma is_int_Some (n : R) (k : Z) : is_int n = Some k → n = IZR k.
Proof.
  unfold is_int. destruct (Req_dec_T n (IZR (up n - 1))) as [Heq|]; [|done].
  intros ?. simplify_eq. done.
Qed.

Lemma is_int_pred (n : R) :
  is_int (n - 1) = (λ k, (k - 1)%Z) <$> is_int n.
Proof.
  destruct (is_int n) as [k|] eqn:Hn; simpl.
  - apply is_int_Some in Hn. subst. rewrite <- minus_IZR. apply is_int_IZR.
  - destruct (is_int (n - 1)) as [k|] eqn:Hn1; [|done].
    apply is_int_Some in Hn1.
    assert (n = IZR (k + 1)) as Hk by (rewrite plus_IZR; lra).
    rewrite Hk, is_int_IZR in Hn. done.
Qed.

(** *** The functions of one variable behind the unary operations *)

Definition relu_fun (y : R) : R := if R_ltb y 0 then 0 else y.

Definition tanh_fun (y : R) : R :=
  (Rtrigo_def.exp (2 * y) - 1) / (Rtrigo_def.exp (2 * y) + 1).

Definition pow_fun (n y : R) : R :=
  match R_pow y n with Ok r => r | Raise _ => 0 end.

Lemma derivable_pt_lim_eq (f : R → R) (x l l' : R) :
  derivable_pt_lim f x l → l = l' → derivable_pt_lim f x l'.
Proof. by intros H <-. Qed.

Lemma relu_derivative (y : R) :
  y ≠ 0 →
  derivable_pt_lim relu_fun y (if R_ltb 0 (relu_fun y) then 1 else 0).
Proof.
  intros Hy. unfold relu_fun at 2, R_ltb.
  destruct (Rlt_dec y 0) as [Hneg|Hpos].
  - destruct (Rlt_dec 0 0) as [?|_]; [lra|].
    apply (derivable_pt_lim_locally_ext (fct_cte 0) relu_fun y (y - 1) 0); [lra| |].
    + intros z Hz. unfold relu_fun, R_ltb, fct_cte.
      destruct (Rlt_dec z 0); [done|lra].
    + apply derivable_pt_lim_const.
  - destruct (Rlt_dec 0 y) as [_|?]; [|lra].
    apply (derivable_pt_lim_locally_ext id relu_fun y 0 (y + 1)); [lra| |].
    + intros z Hz. unfold relu_fun, R_ltb, id.
      destruct (Rlt_dec z 0); [lra|done].
    + apply derivable_pt_lim_id.
Qed.

Lemma tanh_derivative (y : R) :
  derivable_pt_lim tanh_fun y (1 - tanh_fun y * tanh_fun y).
Proof.
  pose proof (exp_pos (2 * y)) as He.
  assert (derivable_pt_lim (λ z, Rtrigo_def.exp (2 * z)) y (Rtrigo_def.exp (2 * y) * 2)) as Hexp.
  { apply (derivable_pt_lim_comp (λ z, 2 * z) Rtrigo_def.exp).
    - apply (derivable_pt_lim_eq (mult_real_fct 2 id) y (2 * 1)); [|ring].
      apply derivable_pt_lim_scal, derivable_pt_lim_id.
    - apply derivable_pt_lim_exp. }
  eapply derivable_pt_lim_eq.
  - apply (derivable_pt_lim_div (λ z, Rtrigo_def.exp (2 * z) - 1)
                                (λ z, Rtrigo_def.exp (2 * z) + 1)).
    + apply (derivable_pt_lim_minus _ (fct_cte 1)); [exact Hexp|].
      apply derivable_pt_lim_const.
    + apply (derivable_pt_lim_plus _ (fct_cte 1)); [exact Hexp|].
      apply derivable_pt_lim_const.
    + lra.
  - unfold tanh_fun, Rsqr. field. lra.
Qed.

Lemma powerRZ_nonneg (z : R) (k : Z) :
  (0 <= k)%Z → powerRZ z k = z ^ Z.to_nat k.
Proof. destruct k; simpl; [done|done|lia]. Qed.

Lemma powerRZ_nonpos (z : R) (k : Z) :
  (k <= 0)%Z → powerRZ z k = / z ^ Z.to_nat (- k).
Proof. destruct k; simpl; [by rewrite Rinv_1|lia|done]. Qed.

Lemma pow_derivative_nat (y : R) (k : Z) :
  (1 <= k)%Z →
  derivable_pt_lim (λ z, z ^ Z.to_nat k) y (IZR k * powerRZ y (k - 1)).
Proof.
  intros Hk. eapply derivable_pt_lim_eq; [apply derivable_pt_lim_pow|].
  rewrite INR_IZR_INZ, Z2Nat.id by lia. f_equal.
  rewrite powerRZ_nonneg by lia. f_equal.
  rewrite Z2Nat.inj_sub by lia. simpl. lia.
Qed.

Lemma pow_derivative_inv (y : R) (k : Z) :
  (k <= 0)%Z → y ≠ 0 →
  derivable_pt_lim (λ z, / z ^ Z.to_nat (- k)) y (IZR k * powerRZ y (k - 1)).
Proof.
  intros Hk Hy. set (m := Z.to_nat (- k)).
  assert (IZR k = - INR m) as ->.
  { unfold m. rewrite INR_IZR_INZ, Z2Nat.id by lia. rewrite opp_IZR. lra. }
  assert (powerRZ y (k - 1) = / y ^ S m) as ->.
  { rewrite powerRZ_nonpos by lia. do 2 f_equal. unfold m. lia. }
  pose proof (pow_nonzero y m Hy) as Hm.
  eapply derivable_pt_lim_eq.
  - apply (derivable_pt_lim_ext (fct_cte 1 / (λ z, z ^ m))%F).
    + intros z. unfold div_fct, fct_cte. lra.
    + apply derivable_pt_lim_div; [apply derivable_pt_lim_const|apply derivable_pt_lim_pow|done].
  - unfold fct_cte, Rsqr. destruct m as [|m']; simpl in *.
    + rewrite Rmult_0_l. field. done.
    + pose proof (pow_nonzero y m' Hy). field. done.
Qed.

(** The derivative of [y ** n] in [y] is [n * y ** (n - 1)], where that
    power is defined and, for a fractional [n], the base is positive. *)
Lemma pow_derivative (n y p : R) :
  R_pow y (n - 1) = Ok p → (is_int n = None → 0 < y) →
  derivable_pt_lim (pow_fun n) y (n * p).
Proof.
  intros Hp Hreg. unfold R_pow in Hp. rewrite is_int_pred in Hp.
  destruct (is_int n) as [k|] eqn:Hn; simpl in Hp.
  - pose proof (is_int_Some n k Hn) as ->.
    assert (p = powerRZ y (k - 1) ∧ (y ≠ 0 ∨ (1 <= k)%Z)) as [-> Hcase].
    { destruct (Req_dec_T y 0) as [Hy0|Hy0].
      - destruct (k - 1 <? 0)%Z eqn:Hk; [done|]. simplify_eq.
        split; [done|]. right. lia.
      - simplify_eq. split; [done|by left]. }
    assert (∀ z, z ≠ 0 ∨ (0 <= k)%Z → pow_fun (IZR k) z = powerRZ z k) as Hfun.
    { intros z Hz. unfold pow_fun, R_pow. rewrite is_int_IZR.
      destruct (Req_dec_T z 0) as [Hz0|Hz0]; [|done].
      destruct (k <? 0)%Z eqn:Hk; [|done]. destruct Hz; [done|lia]. }
    destruct (Z_le_gt_dec 1 k) as [Hk1|Hk0].
    + apply (derivable_pt_lim_ext (λ z, z ^ Z.to_nat k)).
      * intros z. rewrite Hfun by (right; lia). by rewrite powerRZ_nonneg by lia.
      * by apply pow_derivative_nat.
    + destruct Hcase as [Hy0|?]; [|lia].
      assert (∃ a b, a < y < b ∧ ∀ z, a < z < b → z ≠ 0) as (a & b & Hab & Hnz).
      { destruct (Rlt_dec 0 y).
        - exists 0, (y + 1). split; [lra|]. intros z Hz. lra.
        - exists (y - 1), 0. split; [lra|]. intros z Hz. lra. }
      apply (derivable_pt_lim_locally_ext (λ z, / z ^ Z.to_nat (- k)) _ y a b _ Hab).
      * intros z Hz. rewrite Hfun by (left; by apply Hnz).
        by rewrite powerRZ_nonpos by lia.
      * apply pow_derivative_inv; [lia|done].
  - specialize (Hreg eq_refl).
    destruct (Rlt_dec 0 y) as [_|?]; [|done]. simplify_eq.
    apply (derivable_pt_lim_locally_ext (λ z, Rpower z n) _ y 0 (y + 1)); [lra| |].
    + intros z Hz. unfold pow_fun, R_pow. rewrite Hn.
      destruct (Rlt_dec 0 z); [done|lra].
    + by apply derivable_pt_lim_power.
Qed.

(** The symmetric difference quotient tends to the derivative. *)
Lemma central_difference (f : R → R) (x l : R) :
  derivable_pt_lim f x l →
  ∀ tol, 0 < tol → ∃ delta, 0 < delta ∧ ∀ eps, 0 < eps < delta →
    Rabs ((f (x + eps) - f (x - eps)) / (2 * eps) - l) < tol.
Proof.
  intros Hd tol Htol. destruct (Hd tol Htol) as [delta Hdelta].
  exists delta. split; [apply cond_pos|]. intros eps [Heps0 Heps].
  pose proof (Hdelta eps) as H1. pose proof (Hdelta (- eps)) as H2.
  rewrite Rabs_pos_eq in H1 by lra. rewrite Rabs_Ropp, Rabs_pos_eq in H2 by lra.
  specialize (H1 ltac:(lra) Heps). specialize (H2 ltac:(lra) Heps).
  apply Rabs_def2 in H1, H2. apply Rabs_def1.
  - replace ((f (x + eps) - f (x - eps)) / (2 * eps) - l)
      with (((f (x + eps) - f x) / eps - l) / 2 +
            ((f (x + - eps) - f x) / - eps - l) / 2) by (unfold Rminus; field; lra).
    lra.
  - replace ((f (x + eps) - f (x - eps)) / (2 * eps) - l)
      with (((f (x + eps) - f x) / eps - l) / 2 +
            ((f (x + - eps) - f x) / - eps - l) / 2) by (unfold Rminus; field; lra).
    lra.
Qed.

(** The points at which the operations are differentiable: no [relu] at
    zero, no fractional power of a base that is not positive. *)
Definition regular (h : heap R) (root : ref) : Prop :=
  ∀ u vu, reachable h root u → h !! u = Some vu →
    match _backward vu with
    | BRelu s _ => data_of h s ≠ 0
    | BPow s n _ => is_int n = None → 0 < data_of h s
    | _ => True
    end.

Lemma get_data_valid (h : heap R) r :
  (r < length h)%nat → get_data h r = Ok (data_of h r).
Proof.
  intros Hr. destruct (lookup_lt_is_Some_2 h r Hr) as [v Hv].
  unfold get_data, data_of. by rewrite Hv.
Qed.

Lemma R_pow_square (t : R) : R_pow t 2 = Ok (t * t).
Proof.
  unfold R_pow. rewrite is_int_IZR. simpl.
  destruct (Req_dec_T t 0); by rewrite Rmult_1_r.
Qed.

Lemma forward_tanh_R (y : R) :
  R_div (Rtrigo_def.exp (2 * y) - 1) (Rtrigo_def.exp (2 * y) + 1) = Ok (tanh_fun y).
Proof.
  unfold R_div. pose proof (exp_pos (2 * y)).
  destruct (Req_dec_T (Rtrigo_def.exp (2 * y) + 1) 0); [lra|done].
Qed.

(** Every node reached from the root is, as a function of [x], derivable at
    the value [x] holds, with the derivative the chain rule gives. *)
Lemma node_derivative (h : heap R) (root x : ref) :
  heap_wf h → (x < length h)%nat →
  (∀ u vu, reachable h root u → h !! u = Some vu → node_consistent h vu) →
  regular h root →
  (∀ u vu, reachable h root u → h !! u = Some vu →
     is_Ok (partials h (_backward vu))) →
  ∀ u, reachable h root u → (u < length h)%nat →
    derivable_pt_lim (λ t, value_at (length h) h x t u) (data_of h x)
      (derivative h u x).
Proof.
  intros Hwf Hx Hcons Hreg Hpart u.
  induction u as [u IH] using lt_wf_ind. intros Hreach Hu.
  destruct (decide (u = x)) as [->|Hne].
  { rewrite derivative_self by done.
    apply (derivable_pt_lim_ext id); [|apply derivable_pt_lim_id].
    intros t. by rewrite expression_self. }
  destruct (lookup_lt_is_Some_2 h u Hu) as [vu Hvu].
  pose proof (Hpart u vu Hreach Hvu) as Hok.
  destruct (partials h (_backward vu)) as [ps|e] eqn:Hps; [clear Hok|done].
  rewrite (derivative_node h x u vu ps Hwf Hne Hvu Hps).
  pose proof (heap_wf_arena_ordered h Hwf) as Hord.
  assert (∀ s, s ∈ operands (_backward vu) →
            (s < length h)%nat ∧
            derivable_pt_lim (λ t, value_at (length h) h x t s) (data_of h x)
              (derivative h s x) ∧
            value_at (length h) h x (data_of h x) s = data_of h s) as Hops.
  { intros s Hs. pose proof (wf_operand h u vu s Hwf Hvu Hs) as Hop.
    pose proof (arena_ordered_operand h _ _ Hord Hop) as Hlt.
    pose proof (reachable_step h root u s Hreach Hop) as Hrs.
    split_and!; [lia|apply IH; [done|done|lia]|].
    apply (value_at_data h x root Hwf Hcons); [done|lia|lia]. }
  pose proof (Hcons u vu Hreach Hvu) as Hcu. unfold node_consistent in Hcu.
  pose proof (Hreg u vu Hreach Hvu) as Hru.
  destruct (Hwf u vu Hvu) as (_ & Hout & _).
  destruct (_backward vu) as [|s o out|s o out|s n out|s t0 out|s out|s out] eqn:Hc;
    simpl in Hps, Hops.
  - simplify_eq. simpl.
    apply (derivable_pt_lim_ext (fct_cte (data vu))); [|apply derivable_pt_lim_const].
    intros t. by rewrite (expression_leaf h x t u vu).
  - simplify_eq. simpl.
    destruct (Hops s) as (_ & Hds & _); [set_solver|].
    destruct (Hops o) as (_ & Hdo & _); [set_solver|].
    apply (derivable_pt_lim_ext
             (λ t, value_at (length h) h x t s + value_at (length h) h x t o)).
    { intros t. rewrite (expression_node h x t u vu) by (done || by rewrite Hc).
      by rewrite Hc. }
    eapply derivable_pt_lim_eq; [apply (derivable_pt_lim_plus _ _ _ _ _ Hds Hdo)|].
    lra.
  - destruct (Hops s) as (Hs & Hds & Hvs); [set_solver|].
    destruct (Hops o) as (Ho & Hdo & Hvo); [set_solver|].
    rewrite (get_data_valid h o Ho), (get_data_valid h s Hs) in Hps.
    simpl in Hps. simplify_eq. simpl.
    apply (derivable_pt_lim_ext
             (λ t, value_at (length h) h x t s * value_at (length h) h x t o)).
    { intros t. rewrite (expression_node h x t u vu) by (done || by rewrite Hc).
      by rewrite Hc. }
    eapply derivable_pt_lim_eq; [apply (derivable_pt_lim_mult _ _ _ _ _ Hds Hdo)|].
    rewrite Hvs, Hvo. lra.
  - destruct (Hops s) as (Hs & Hds & Hvs); [set_solver|].
    rewrite (get_data_valid h s Hs) in Hps. simpl in Hps.
    destruct (R_pow (data_of h s) (n - 1)) as [p|] eqn:Hp; [|done].
    simpl in Hps. simplify_eq. simpl.
    apply (derivable_pt_lim_ext
             (comp (pow_fun n) (λ t, value_at (length h) h x t s))).
    { intros t. rewrite (expression_node h x t u vu) by (done || by rewrite Hc).
      by rewrite Hc. }
    eapply derivable_pt_lim_eq.
    + eapply derivable_pt_lim_comp; [exact Hds|]. cbv beta. rewrite Hvs.
      by apply (pow_derivative n (data_of h s) p).
    + lra.
  - destruct (Hops s) as (Hs & Hds & Hvs); [set_solver|].
    change (npow t0 (of_int 2)) with (R_pow t0 2) in Hps.
    rewrite R_pow_square in Hps. simpl in Hps. simplify_eq. simpl.
    destruct Hcu as [?|[Hfw Ht]]; [done|].
    specialize (Ht s t0 out eq_refl). simpl in Hfw.
    change (R_div ?a ?b) with (R_div a b) in Hfw.
    rewrite forward_tanh_R in Hfw. injection Hfw as Hfw.
    apply (derivable_pt_lim_ext
             (comp tanh_fun (λ t, value_at (length h) h x t s))).
    { intros t. rewrite (expression_node h x t u vu) by (done || by rewrite Hc).
      rewrite Hc. simpl. by rewrite forward_tanh_R. }
    eapply derivable_pt_lim_eq.
    + eapply derivable_pt_lim_comp; [exact Hds|]. cbv beta. rewrite Hvs.
      apply tanh_derivative.
    + rewrite Ht, <- Hfw. lra.
  - destruct (Hops s) as (Hs & Hds & Hvs); [set_solver|].
    rewrite (Hout out eq_refl) in Hps.
    rewrite (get_data_valid h u Hu) in Hps. simpl in Hps. simplify_eq. simpl.
    destruct Hcu as [?|[Hfw _]]; [done|]. simpl in Hfw.
    assert (data_of h u = relu_fun (data_of h s)) as Hdu.
    { unfold data_of at 1. rewrite Hvu. by simplify_eq. }
    apply (derivable_pt_lim_ext
             (comp relu_fun (λ t, value_at (length h) h x t s))).
    { intros t. rewrite (expression_node h x t u vu) by (done || by rewrite Hc).
      by rewrite Hc. }
    eapply derivable_pt_lim_eq.
    + eapply derivable_pt_lim_comp; [exact Hds|]. cbv beta. rewrite Hvs.
      by apply relu_derivative.
    + rewrite Hdu. unfold of_bool, ngt. simpl.
      destruct (R_ltb 0 (relu_fun (data_of h s))); lra.
  - destruct (Hops s) as (Hs & Hds & Hvs); [set_solver|].
    rewrite (Hout out eq_refl) in Hps.
    rewrite (get_data_valid h u Hu) in Hps. simpl in Hps. simplify_eq. simpl.
    destruct Hcu as [?|[Hfw _]]; [done|]. simpl in Hfw.
    assert (data_of h u = Rtrigo_def.exp (data_of h s)) as Hdu.
    { unfold data_of at 1. rewrite Hvu. by simplify_eq. }
    apply (derivable_pt_lim_ext
             (comp Rtrigo_def.exp (λ t, value_at (length h) h x t s))).
    { intros t. rewrite (expression_node h x t u vu) by (done || by rewrite Hc).
      by rewrite Hc. }
    eapply derivable_pt_lim_eq.
    + eapply derivable_pt_lim_comp; [exact Hds|]. cbv beta. rewrite Hvs.
      apply derivable_pt_lim_exp.
    + rewrite Hdu. lra.
Qed.

(** C1 (in exact arithmetic, at the points where the operations are
    differentiable): let the store hold an expression built by the
    operations, with all gradients zero, and let [backward] from its root
    return.  Then the gradient [backward] leaves in a node [x] is the
    derivative at [x.data] of the root as a function of [x], the other
    leaves held fixed; so the central difference quotient of that function
    is within any tolerance of the gradient once [eps] is small enough. *)
Theorem gradient_is_derivative (iter : set_order) (h : heap R) (self x : ref) :
  order_valid iter → heap_wf h → (self < length h)%nat → (x < length h)%nat →
  (∀ u vu, reachable h self u → h !! u = Some vu → node_consistent h vu) →
  regular h self →
  (∀ i v, h !! i = Some v → grad v = 0) →
  res (backward iter self h) = Ok tt →
  let g := gradf (final (backward iter self h)) x in
  let f := expression h self x in
  f (data_of h x) = data_of h self ∧
  derivable_pt_lim f (data_of h x) g ∧
  ∀ tol, 0 < tol → ∃ delta, 0 < delta ∧ ∀ eps, 0 < eps < delta →
    Rabs ((f (data_of h x + eps) - f (data_of h x - eps)) / (2 * eps) - g) < tol.
Proof.
  intros Hiter Hwf Hself Hx Hcons Hreg Hzero Hres g f.
  assert (g = derivative h self x) as Hg.
  { by apply (backward_computes_derivative iter h self). }
  assert (derivable_pt_lim f (data_of h x) g) as Hd.
  { rewrite Hg. apply (node_derivative h self x); try done.
    - by apply (backward_Ok_iff iter h self).
    - apply rtc_refl. }
  split_and!; [|done|by apply central_difference].
  apply (value_at_data h x self Hwf Hcons); [apply rtc_refl|done|done].
Qed.
End RealDerivative.

(** * Examples *)

Section Examples.
#[local] Existing Instance example_runtime.

(** [Value(0.0) ** -1] raises [ZeroDivisionError] and builds no node;
    [Value(0.0) ** 0] returns, and [backward] from it raises
    [ZeroDivisionError] in the rule of the power. *)
Lemma pow_zero_base_raises :
  __pow__ 0 (PyNumber (-1)%float) [leaf 0%float] =
    mkOutcome (Raise ZeroDivisionError) [leaf 0%float] [] ∧
  (let o := __pow__ 0 (PyNumber 0%float) [leaf 0%float] in
   res o = Ok 1 ∧
   res (backward ascending 1 (final o)) = Raise ZeroDivisionError).
Proof. split; [|split]; by vm_compute. Qed.

Lemma pow_contract_witness :
  __pow__ 0 (PyValue 0) [leaf 3%float] =
    mkOutcome (Raise (AssertionError "only supports int/float powers"))
      [leaf 3%float] [] ∧
  res (__pow__ 0 (PyNumber 1%float) [leaf 3%float]) = Ok 1.
Proof.
  destruct (pow_contract [leaf 3%float] 0 (leaf 3%float) eq_refl) as (H1 & H2 & _).
  split; [apply H1|]. rewrite (H2 1%float). reflexivity.
Defined.

(** [y = x * x + x]: the node [x] is used three times. *)
Definition shared_operand : heap float :=
  final ((x ← __init__ 2%float [] "";
          s ← __mul__ x (PyValue x);
          __add__ s (PyValue x)) []).

Lemma topo_order_topological_witness :
  ∃ topo, topo_order ascending shared_operand 2 = Some topo ∧
    NoDup topo ∧
    (∀ u, u ∈ topo ↔ reachable shared_operand 2 u) ∧
    (∀ c v, v ∈ topo → operand shared_operand c v → before topo c v) ∧
    (∀ u u', reachable shared_operand 2 u → reachable shared_operand 2 u' →
       u ≠ u' → shared_operand !! u = shared_operand !! u' →
       u ∈ topo ∧ u' ∈ topo).
Proof.
  assert (arena_ordered shared_operand) as Ha
    by (apply (bool_decide_unpack _); by vm_compute).
  apply (topo_order_topological ascending shared_operand 2).
  - apply ascending_valid.
  - by apply arena_ordered_closed.
  - by apply arena_ordered_acyclic.
  - vm_compute. lia.
Defined.

Lemma leaf_is_leaf d : is_leaf (leaf d).
Proof. by split. Qed.

Lemma backward_on_leaf_witness :
  backward ascending 0 [leaf 7%float] =
    mkOutcome (Ok tt) [with_grad 1%float (leaf 7%float)] [SetGrad 0 1%float].
Proof.
  apply (backward_on_leaf ascending [leaf 7%float] 0 (leaf 7%float)).
  - apply ascending_valid.
  - reflexivity.
  - reflexivity.
  - reflexivity.
Defined.

Lemma fan_out_accumulates_witness :
  let h := [leaf 5%float] in
  let o' := backward ascending 1 (final (__add__ 0 (PyValue 0) h)) in
  res o' = Ok tt ∧ final o' !! 0 = Some (with_grad 2%float (leaf 5%float)).
Proof.
  destruct (fan_out_accumulates ascending [leaf 5%float] 0 (leaf 5%float))
    as (_ & _ & H1 & _ & H2).
  - apply ascending_valid.
  - reflexivity.
  - apply leaf_is_leaf.
  - reflexivity.
  - split; [exact H1|exact H2].
Defined.

Lemma relu_at_zero_witness :
  let h := [leaf 0%float] in
  let o := relu 0 h in
  res o = Ok 1 ∧
  final (backward ascending 1 (final o)) !! 0 = Some (leaf 0%float).
Proof.
  destruct (relu_at_zero ascending [leaf 0%float] 0 (leaf 0%float))
    as (H1 & _ & (_ & _ & H2) & _).
  - apply ascending_valid.
  - reflexivity.
  - apply leaf_is_leaf.
  - reflexivity.
  - split; [exact H1|exact H2].
Defined.

Lemma add_number_either_side_witness :
  let h := [leaf 3%float] in
  let o := __radd__ 0 (PyNumber 2%float) h in
  res o = Ok 2 ∧
  final (backward ascending 2 (final o)) !! 0 = Some (with_grad 1%float (leaf 3%float)).
Proof.
  pose proof (add_number_either_side ascending [leaf 3%float] 0 (leaf 3%float)
                ascending_valid) as H.
  destruct (H eq_refl (leaf_is_leaf _) eq_refl eq_refl
              (__radd__ 0 (PyNumber (of_int 2)) [leaf 3%float]))
    as (H1 & _ & _ & H2).
  - right. reflexivity.
  - split; [exact H1|exact H2].
Defined.


(** [r = x * 1e16 + (x + x)]: the rules of the two operands of [r] add
    [1e16] and twice [1.0] to [x.grad]. *)
Definition absorbing_sum : heap float :=
  final ((x ← __init__ 1%float [] "";
          a ← __mul__ x (PyNumber 1e16%float);
          b ← __add__ x (PyValue x);
          __add__ a (PyValue b)) []).

(** On floats the gradient of [x] depends on the order in which the
    operand set of [r] is iterated: [(1.0 + 1.0) + 1e16] one way,
    [(1e16 + 1.0) + 1.0 = 1e16] the other. *)
Lemma float_gradient_depends_on_order :
  Forall (λ v, grad v = 0%float) absorbing_sum ∧
  res (backward ascending 4 absorbing_sum) = Ok tt ∧
  res (backward descending 4 absorbing_sum) = Ok tt ∧
  grad <$> final (backward ascending 4 absorbing_sum) !! 0 = Some 10000000000000002%float ∧
  grad <$> final (backward descending 4 absorbing_sum) !! 0 = Some 10000000000000000%float.
Proof.
  split_and!; try by vm_compute.
  vm_compute. repeat constructor.
Qed.

(** The same graph over the integers. *)
Definition shared_operand_Z : heap Z :=
  final ((x ← __init__ 2%Z [] "";
          s ← __mul__ x (PyValue x);
          __add__ s (PyValue x)) []).

Lemma gradients_order_independent_witness :
  res (backward descending 2 shared_operand_Z) = Ok tt ∧
  final (backward descending 2 shared_operand_Z) =
    final (backward ascending 2 shared_operand_Z).
Proof.
  apply (gradients_order_independent ascending descending shared_operand_Z 2).
  - apply ascending_valid.
  - apply descending_valid.
  - apply keeps_wf_final; [|apply heap_wf_nil].
    apply keeps_wf_bind; [apply leaf_wf|]. intros x.
    apply keeps_wf_bind; [apply __mul___wf|]. intros s. apply __add___wf.
  - vm_compute. lia.
  - by vm_compute.
Defined.

(** [relu(x)] as a store, for the value [x] of the leaf. *)
Definition relu_of (x : float) : heap float :=
  final ((a ← __init__ x [] ""; relu a) []).

(** At the kink of [relu] the gradient is not the central difference: at
    [x = 0.0], [backward] leaves [x.grad == 0.0], and with [eps = 1e-6] the
    difference quotient [(relu(eps) - relu(-eps)) / (2 * eps)] is [0.5]. *)
Lemma relu_gradient_is_not_central_difference :
  let eps := 1e-6%float in
  res (backward ascending 1 (relu_of 0)) = Ok tt ∧
  grad <$> final (backward ascending 1 (relu_of 0)) !! 0 = Some 0%float ∧
  data <$> relu_of (0 + eps) !! 1 = Some eps ∧
  data <$> relu_of (0 - eps) !! 1 = Some 0%float ∧
  ((eps - 0) / (2 * eps) = 0.5)%float.
Proof. split_and!; by vm_compute. Qed.
End Examples.

(** [y = x * x + x] at [x = 3], over the reals. *)
Definition polynomial_R : heap R :=
  [ mkValue 3%R 0%R BNone (list_to_set []) "" "";
    mkValue (3 * 3)%R 0%R (BMul 0 0 1) (list_to_set [0; 0]) "*" "";
    mkValue (3 * 3 + 3)%R 0%R (BAdd 1 0 2) (list_to_set [1; 0]) "+" "" ].

Lemma polynomial_R_built :
  final ((x ← __init__ 3%R [] "";
          s ← __mul__ x (PyValue x);
          __add__ s (PyValue x)) []) = polynomial_R.
Proof. reflexivity. Qed.

Lemma polynomial_R_is_built : built polynomial_R.
Proof.
  rewrite <- polynomial_R_built.
  apply keeps_built_final; [|apply built_nil].
  apply keeps_built_bind; [apply leaf_built|]. intros x.
  apply keeps_built_bind; [apply __mul___built|]. intros s. apply __add___built.
Qed.

Lemma gradient_is_derivative_witness :
  derivable_pt_lim (expression polynomial_R 2 0) 3
    (gradf (final (backward ascending 2 polynomial_R)) 0).
Proof.
  destruct (gradient_is_derivative ascending polynomial_R 2 0) as (_ & Hd & _).
  - apply ascending_valid.
  - apply polynomial_R_is_built.
  - simpl. lia.
  - simpl. lia.
  - intros u vu _ Hu. by apply (proj2 polynomial_R_is_built u vu).
  - intros u vu _ Hu.
    destruct u as [|[|[|u]]]; simpl in Hu; simplify_eq; done.
  - intros u vu Hu.
    destruct u as [|[|[|u]]]; simpl in Hu; simplify_eq; done.
  - apply (backward_Ok_iff ascending polynomial_R 2 ascending_valid
             (proj1 polynomial_R_is_built)).
    + simpl. lia.
    + intros u vu _ Hu.
      destruct u as [|[|[|u]]]; simpl in Hu; simplify_eq; done.
  - exact Hd.
Defined.

(** * More of the engine *)

(** ** The frame of the forward operations

    The operations build new objects and attach rules to them; they assign
    nothing to an object that exists. *)

Section Allocation.
Context {num : Type} `{!PyNum num}.

(** [m] only allocates: the store it leaves, on return or raise, is the
    store at entry followed by new objects whose gradient is zero, and it
    writes no gradient. *)
Definition only_allocates {A} (m : M num A) : Prop :=
  ∀ h, ∃ new,
    final (m h) = h ++ new ∧ Forall (λ v, grad v = of_int 0) new ∧
    writes (m h) = [].

(** [m] only allocates, and what it returns is the last object it
    allocated. *)
Definition returns_fresh (m : M num ref) : Prop :=
  ∀ h, ∃ new,
    final (m h) = h ++ new ∧ Forall (λ v, grad v = of_int 0) new ∧
    writes (m h) = [] ∧
    ∀ out, res (m h) = Ok out → S out = length (h ++ new) ∧ length h ≤ out.

Lemma returns_fresh_only_allocates (m : M num ref) :
  returns_fresh m → only_allocates m.
Proof. intros Hm h. destruct (Hm h) as (new & ? & ? & ? & _). by exists new. Qed.

Lemma only_allocates_ret {A} (a : A) : only_allocates (mret a).
Proof. intros h. exists []. by rewrite app_nil_r. Qed.

Lemma only_allocates_raise {A} e : only_allocates (raise (A := A) e).
Proof. intros h. exists []. by rewrite app_nil_r. Qed.

Lemma only_allocates_lift {A} (r : result A) : only_allocates (lift r).
Proof. destruct r; [apply only_allocates_ret|apply only_allocates_raise]. Qed.

Lemma only_allocates_getattr {A} (f : Value num → A) r :
  only_allocates (getattr f r).
Proof.
  intros h. exists []. unfold getattr. rewrite app_nil_r.
  by destruct (h !! r).
Qed.

Lemma only_allocates_bind {A B} (m : M num A) (k : A → M num B) :
  only_allocates m → (∀ a, only_allocates (k a)) → only_allocates (m ≫= k).
Proof.
  intros Hm Hk h. rewrite run_bind. destruct (Hm h) as (new & Hf & Hz & Hw).
  destruct (res (m h)) as [a|e]; simpl; [|by exists new].
  destruct (Hk a (final (m h))) as (new' & Hf' & Hz' & Hw').
  exists (new ++ new'). split_and!.
  - by rewrite Hf', Hf, app_assoc.
  - by apply Forall_app.
  - by rewrite Hw, Hw'.
Qed.

Lemma returns_fresh_bind {A} (m : M num A) (k : A → M num ref) :
  only_allocates m → (∀ a, returns_fresh (k a)) → returns_fresh (m ≫= k).
Proof.
  intros Hm Hk h. rewrite run_bind. destruct (Hm h) as (new & Hf & Hz & Hw).
  destruct (res (m h)) as [a|e]; simpl; [|by exists new].
  destruct (Hk a (final (m h))) as (new' & Hf' & Hz' & Hw' & Hout).
  exists (new ++ new'). split_and!.
  - by rewrite Hf', Hf, app_assoc.
  - by apply Forall_app.
  - by rewrite Hw, Hw'.
  - intros out Ho. destruct (Hout out Ho) as [H1 H2].
    rewrite Hf in H1, H2. rewrite app_assoc. split; [done|].
    rewrite length_app in H2. lia.
Qed.

Lemma returns_fresh_new_node d cs op (c : ref → closure num) :
  returns_fresh (out ← __init__ d cs op; set_backward out (c out);; mret out).
Proof.
  intros h. rewrite run_new_node. simpl. eexists. split_and!; [done| |done|].
  - by repeat constructor.
  - intros out [= <-]. rewrite length_app. simpl. lia.
Qed.

Lemma returns_fresh___init__ d cs op : returns_fresh (__init__ d cs op).
Proof.
  intros h. simpl. eexists. split_and!; [done| |done|].
  - by repeat constructor.
  - intros out [= <-]. rewrite length_app. simpl. lia.
Qed.

Lemma only_allocates_as_Value (other : pyobj num) : only_allocates (as_Value other).
Proof.
  destruct other as [r|n]; simpl; [apply only_allocates_ret|].
  apply returns_fresh_only_allocates, returns_fresh___init__.
Qed.

Ltac allocation :=
  repeat first
    [ apply returns_fresh_new_node
    | apply only_allocates_as_Value
    | apply only_allocates_getattr
    | apply only_allocates_lift
    | apply only_allocates_ret
    | apply only_allocates_raise
    | apply returns_fresh_bind
    | intros ? ].

Lemma returns_fresh___add__ self other : returns_fresh (__add__ self other).
Proof. unfold __add__. allocation. Qed.

Lemma returns_fresh___mul__ self other : returns_fresh (__mul__ self other).
Proof. unfold __mul__. allocation. Qed.

Lemma returns_fresh___pow__ self (n : num) :
  returns_fresh (__pow__ self (PyNumber n)).
Proof. unfold __pow__. allocation. Qed.

Lemma only_allocates___pow__ self other : only_allocates (__pow__ self other).
Proof.
  destruct other as [r|n]; [apply only_allocates_raise|].
  apply returns_fresh_only_allocates, returns_fresh___pow__.
Qed.

Lemma returns_fresh___sub__ self other : returns_fresh (__sub__ self other).
Proof.
  unfold __sub__. apply returns_fresh_bind; [|intros o; apply returns_fresh___add__].
  destruct other as [r|n]; simpl; [|apply only_allocates_ret].
  apply only_allocates_bind; [|intros ?; apply only_allocates_ret].
  apply returns_fresh_only_allocates, returns_fresh___mul__.
Qed.

Lemma returns_fresh___rsub__ self (other : num) : returns_fresh (__rsub__ self other).
Proof.
  unfold __rsub__. apply returns_fresh_bind; [|intros o; apply returns_fresh___add__].
  apply returns_fresh_only_allocates, returns_fresh___mul__.
Qed.

Lemma returns_fresh___truediv__ self other : returns_fresh (__truediv__ self other).
Proof.
  unfold __truediv__. apply returns_fresh_bind; [|intros o; apply returns_fresh___mul__].
  destruct other as [r|n]; simpl.
  - apply only_allocates_bind; [|intros ?; apply only_allocates_ret].
    apply returns_fresh_only_allocates, returns_fresh___pow__.
  - apply only_allocates_bind; [apply only_allocates_lift|].
    intros ?; apply only_allocates_ret.
Qed.

Lemma returns_fresh___rtruediv__ self (other : num) :
  returns_fresh (__rtruediv__ self other).
Proof.
  unfold __rtruediv__. apply returns_fresh_bind; [|intros o; apply returns_fresh___mul__].
  apply returns_fresh_only_allocates, returns_fresh___pow__.
Qed.

Lemma returns_fresh_tanh self : returns_fresh (tanh self).
Proof. unfold tanh. allocation. Qed.

Lemma returns_fresh_relu self : returns_fresh (relu self).
Proof. unfold relu. allocation. Qed.

Lemma returns_fresh_exp self : returns_fresh (exp self).
Proof. unfold exp. allocation. Qed.

(** X1: no operation changes an object that exists or writes a gradient.
    Whether it returns or raises, the store it leaves is the store at entry
    followed by the objects it built, each with gradient zero; and when it
    returns, it returns the object it built last, never one of its
    arguments. *)
Theorem operations_only_allocate (self : ref) (other : pyobj num) (n : num) :
  returns_fresh (__add__ self other) ∧ returns_fresh (__radd__ self other) ∧
  returns_fresh (__mul__ self other) ∧ returns_fresh (__rmul__ self other) ∧
  only_allocates (__pow__ self other) ∧
  returns_fresh (__pow__ self (PyNumber n)) ∧
  returns_fresh (__neg__ self) ∧
  returns_fresh (__sub__ self other) ∧ returns_fresh (__rsub__ self n) ∧
  returns_fresh (__truediv__ self other) ∧ returns_fresh (__rtruediv__ self n) ∧
  returns_fresh (tanh self) ∧ returns_fresh (relu self) ∧
  returns_fresh (exp self).
Proof.
  split_and!.
  - apply returns_fresh___add__.
  - apply returns_fresh___add__.
  - apply returns_fresh___mul__.
  - apply returns_fresh___mul__.
  - apply only_allocates___pow__.
  - apply returns_fresh___pow__.
  - apply returns_fresh___mul__.
  - apply returns_fresh___sub__.
  - apply returns_fresh___rsub__.
  - apply returns_fresh___truediv__.
  - apply returns_fresh___rtruediv__.
  - apply returns_fresh_tanh.
  - apply returns_fresh_relu.
  - apply returns_fresh_exp.
Qed.

(** X2: every operation keeps the invariant of the stores the engine
    builds, on return and on raise: the operands of a node were allocated
    before it (so the graph has no cycle), the rule of a node names the
    node as [out] and its operand set as the objects it adds to, and the
    node holds the value its operation gives for the values its operands
    hold.  The node returned is a node of the store. *)
Theorem operations_keep_built (self : ref) (other : pyobj num) (n d : num) :
  keeps_built (__init__ d [] "") ∧
  keeps_built (__add__ self other) ∧ keeps_built (__radd__ self other) ∧
  keeps_built (__mul__ self other) ∧ keeps_built (__rmul__ self other) ∧
  keeps_built (__pow__ self other) ∧ keeps_built (__neg__ self) ∧
  keeps_built (__sub__ self other) ∧ keeps_built (__rsub__ self n) ∧
  keeps_built (__truediv__ self other) ∧ keeps_built (__rtruediv__ self n) ∧
  keeps_built (tanh self) ∧ keeps_built (relu self) ∧ keeps_built (exp self).
Proof.
  split_and!.
  - apply leaf_built.
  - apply __add___built.
  - apply __radd___built.
  - apply __mul___built.
  - apply __rmul___built.
  - apply __pow___built.
  - apply __neg___built.
  - apply __sub___built.
  - apply __rsub___built.
  - apply __truediv___built.
  - apply __rtruediv___built.
  - apply tanh_built.
  - apply relu_built.
  - apply exp_built.
Qed.
End Allocation.

(** ** When the backward pass returns *)

Section Returns.
Context {num : Type} `{!PyNum num}.

(** The power a rule evaluates is defined.  Only the rules of [**] and
    [tanh] evaluate one; the rules of [+], [*], [relu] and [exp] cannot
    raise. *)
Definition rule_defined (h : heap num) (c : closure num) : Prop :=
  match c with
  | BPow self n _ => is_Ok (npow (data_of h self) (nsub n (of_int 1)))
  | BTanh _ t _ => is_Ok (npow t (of_int 2))
  | _ => True
  end.

Lemma hoare_getattr_in {A} (P : heap num → Prop) (f : Value num → A) r
    (Q : A → heap num → Prop) (E : heap num → Prop) :
  (∀ h, P h → r < length h) →
  (∀ h v, P h → h !! r = Some v → Q (f v) h) →
  hoare P (getattr f r) Q E.
Proof.
  intros Hr HQ h HP. unfold getattr.
  destruct (lookup_lt_is_Some_2 h r (Hr h HP)) as [v Hv]. rewrite Hv. simpl.
  by eapply HQ.
Qed.

Lemma hoare_lift_in {A} (P : heap num → Prop) (r : result A)
    (Q : A → heap num → Prop) (E : heap num → Prop) :
  (∀ h, P h → is_Ok r) → (∀ h a, P h → r = Ok a → Q a h) →
  hoare P (lift r) Q E.
Proof.
  intros Hr HQ h HP. specialize (Hr h HP). destruct r as [a|e]; [|done].
  simpl. by apply HQ.
Qed.

Lemma hoare_iadd_grad_in (h0 : heap num) r d (E : heap num → Prop) :
  r < length h0 →
  hoare (grad_frame h0) (iadd_grad r d) (λ _, grad_frame h0) E.
Proof.
  intros Hr hk Hfr. unfold iadd_grad.
  rewrite <- (grad_frame_length _ _ Hfr) in Hr.
  destruct (lookup_lt_is_Some_2 hk r Hr) as [v Hv]. rewrite Hv. simpl.
  eapply grad_frame_trans; [exact Hfr|]. by apply grad_frame_with_grad.
Qed.

Lemma hoare_read_in {A} (h0 : heap num) (f : Value num → A) r (E : heap num → Prop) :
  r < length h0 →
  hoare (grad_frame h0) (getattr f r) (λ _, grad_frame h0) E.
Proof.
  intros Hr. apply hoare_getattr_in; [|done].
  intros hk Hfr. by rewrite (grad_frame_length _ _ Hfr).
Qed.

Lemma data_of_frame (h hk : heap num) r :
  grad_frame h hk → data_of hk r = data_of h r.
Proof.
  intros Hfr. unfold data_of. destruct (h !! r) as [v|] eqn:Hr.
  - destruct (grad_frame_lookup _ _ _ _ Hfr Hr) as (v' & -> & Hd & _). done.
  - destruct (hk !! r) as [v'|] eqn:Hr'; [|done].
    destruct (grad_frame_lookup_r _ _ _ _ Hfr Hr') as (v & Hv & _). congruence.
Qed.

(** A rule whose power is defined returns. *)
Lemma call_returns (h : heap num) (c : closure num) :
  rule_ready h c → rule_defined h c →
  hoare (grad_frame h) (call c) (λ _, grad_frame h) (λ _, False).
Proof.
  intros [Hops Hout] Hdef.
  assert (∀ o, captured_out c = Some o → o < length h) as Ho
    by (intros o Hc; by apply Hout).
  destruct c as [|s o out|s o out|s n out|s t out|s out|s out]; simpl in *.
  - by apply hoare_ret.
  - eapply hoare_bind; [apply hoare_read_in; by apply Ho|]. intros g.
    eapply hoare_bind; [apply hoare_iadd_grad_in, Hops; set_solver|]. intros ?.
    eapply hoare_bind; [apply hoare_read_in; by apply Ho|]. intros g'.
    apply hoare_iadd_grad_in, Hops. set_solver.
  - eapply hoare_bind; [apply hoare_read_in, Hops; set_solver|]. intros b.
    eapply hoare_bind; [apply hoare_read_in; by apply Ho|]. intros g.
    eapply hoare_bind; [apply hoare_iadd_grad_in, Hops; set_solver|]. intros ?.
    eapply hoare_bind; [apply hoare_read_in, Hops; set_solver|]. intros a'.
    eapply hoare_bind; [apply hoare_read_in; by apply Ho|]. intros g'.
    apply hoare_iadd_grad_in, Hops. set_solver.
  - eapply hoare_bind with (Q := λ a hk, grad_frame h hk ∧ a = data_of h s).
    { apply hoare_getattr_in.
      - intros hk Hfr. rewrite (grad_frame_length _ _ Hfr). apply Hops. set_solver.
      - intros hk v Hfr Hv. split; [done|].
        rewrite <- (data_of_frame h hk s Hfr). unfold data_of. by rewrite Hv. }
    intros a. eapply hoare_bind with (Q := λ _, grad_frame h).
    { apply hoare_lift_in; [|tauto]. by intros hk [_ ->]. }
    intros p.
    eapply hoare_bind; [apply hoare_read_in; by apply Ho|]. intros g.
    apply hoare_iadd_grad_in, Hops. set_solver.
  - eapply hoare_bind with (Q := λ _, grad_frame h).
    { apply hoare_lift_in; [done|tauto]. }
    intros t2.
    eapply hoare_bind; [apply hoare_read_in; by apply Ho|]. intros g.
    apply hoare_iadd_grad_in, Hops. set_solver.
  - eapply hoare_bind; [apply hoare_read_in; by apply Ho|]. intros d.
    eapply hoare_bind; [apply hoare_read_in; by apply Ho|]. intros g.
    apply hoare_iadd_grad_in, Hops. set_solver.
  - eapply hoare_bind; [apply hoare_read_in; by apply Ho|]. intros d.
    eapply hoare_bind; [apply hoare_read_in; by apply Ho|]. intros g.
    apply hoare_iadd_grad_in, Hops. set_solver.
Qed.

(** A rule that returns had its power defined. *)
Lemma call_defined (h hk : heap num) (c : closure num) :
  grad_frame h hk → rule_ready h c →
  res (call c hk) = Ok tt → rule_defined h c.
Proof.
  intros Hfr [Hops _] Hres.
  destruct c as [|s o out|s o out|s n out|s t out|s out|s out]; simpl in *; try done.
  - assert (s < length hk) as Hs.
    { rewrite (grad_frame_length _ _ Hfr). apply Hops. set_solver. }
    destruct (lookup_lt_is_Some_2 hk s Hs) as [v Hv].
    rewrite (run_getattr_bind _ _ _ _ _ Hv) in Hres.
    rewrite <- (data_of_frame h hk s Hfr). unfold data_of. rewrite Hv.
    destruct (npow (data v) (nsub n (of_int 1))); [done|].
    rewrite run_bind in Hres. simpl in Hres. done.
  - destruct (npow t (of_int 2)); [done|].
    rewrite run_bind in Hres. simpl in Hres. done.
Qed.

Lemma run_rule_returns (h hk : heap num) u vu :
  heap_wf h → grad_frame h hk → h !! u = Some vu →
  res (run_rule u hk) = Ok tt ↔ rule_defined h (_backward vu).
Proof.
  intros Hwf Hfr Hvu.
  destruct (grad_frame_lookup _ _ _ _ Hfr Hvu) as (vu' & Hvu' & _ & Hb & _).
  unfold run_rule. rewrite (run_getattr_bind _ _ _ _ _ Hvu'), Hb.
  pose proof (wf_rule_ready h u vu Hwf Hvu) as Hready.
  split.
  - by apply call_defined.
  - intros Hdef. pose proof (call_returns h _ Hready Hdef hk Hfr) as Hc.
    by destruct (res (call (_backward vu) hk)) as [[]|e].
Qed.

Lemma for_each_rules_return (h : heap num) l :
  heap_wf h → (∀ u, u ∈ l → u < length h) →
  ∀ hk, grad_frame h hk →
    res (for_each l run_rule hk) = Ok tt ↔
    ∀ u vu, u ∈ l → h !! u = Some vu → rule_defined h (_backward vu).
Proof.
  intros Hwf. induction l as [|u l IH]; intros Hvalid hk Hfr.
  { split; [|done]. intros _ u vu Hu. by apply elem_of_nil in Hu. }
  destruct (lookup_lt_is_Some_2 h u) as [vu Hvu]; [apply Hvalid; left|].
  pose proof (run_rule_returns h hk u vu Hwf Hfr Hvu) as Hrule.
  assert (grad_frame h (final (run_rule u hk))) as Hfr'.
  { eapply grad_frame_trans; [exact Hfr|].
    apply wgo_bind; [apply wgo_getattr|intros c; apply wgo_call]. }
  specialize (IH (λ w Hw, Hvalid w (list_elem_of_further _ _ _ Hw)) _ Hfr').
  split.
  - intros (Hres1 & Hres2 & _)%for_each_cons_Ok u' vu' Hu' Hvu'.
    apply elem_of_cons in Hu' as [->|Hu'].
    + simplify_eq. by apply Hrule.
    + by eapply IH.
  - intros Hall. simpl. rewrite run_bind.
    assert (res (run_rule u hk) = Ok tt) as Hr.
    { apply Hrule, (Hall u vu); [left|done]. }
    change (res ((getattr _backward u ≫= λ c, call c) hk)) with (res (run_rule u hk)).
    rewrite Hr. simpl. apply IH. intros u' vu' Hu'. apply Hall. by right.
Qed.

Lemma reachable_le (h : heap num) (r u : ref) :
  arena_ordered h → reachable h r u → u ≤ r.
Proof.
  intros Hord Hr. unfold reachable in Hr.
  induction Hr as [|x y z Hxy _ IH]; [done|].
  pose proof (arena_ordered_operand h _ _ Hord Hxy). lia.
Qed.

(** The writes of [backward]: the seed, then additions to nodes reached
    from the root, the root not among them. *)
Lemma backward_log iter (h : heap num) (self : ref) :
  order_valid iter → heap_wf h → self < length h →
  ∃ ws, writes (backward iter self h) = SetGrad self (of_int 1) :: ws ∧
    Forall (λ w, ∃ c d, w = AddGrad c d ∧ c ≠ self ∧ reachable h self c) ws.
Proof.
  intros Hiter Hwf Hself.
  pose proof (heap_wf_arena_ordered h Hwf) as Hord.
  destruct (topo_order_returns iter Hiter h self (arena_ordered_closed h Hord) Hself)
    as [topo Htopo].
  destruct (lookup_lt_is_Some_2 h self Hself) as [vr Hvr].
  destruct (topo_order_spec iter Hiter h self topo (arena_ordered_acyclic h Hord) Htopo)
    as (_ & Hreach & _).
  unfold backward. rewrite Htopo.
  set (h1 := <[self := with_grad (of_int 1) vr]> h).
  erewrite run_bind_Ok; [|unfold set_grad; by rewrite Hvr]. fold h1.
  destruct (for_each_writes (grad_frame h) (reverse topo)
              (λ node, c ← getattr _backward node; call c) h1)
    as (per & Hw & Hall & _).
  { intros x hk Hk. eapply grad_frame_trans; [exact Hk|].
    apply wgo_bind; [apply wgo_getattr|intros c; apply wgo_call]. }
  { by apply grad_frame_with_grad. }
  exists (concat per). simpl. split; [by rewrite Hw|].
  apply Forall_concat.
  assert (Forall (λ u, reachable h self u) (take (length per) (reverse topo))) as Hus.
  { apply Forall_forall. intros u Hu. apply Hreach.
    apply elem_of_reverse. apply elem_of_take in Hu as (j & Hj & _).
    by eapply list_elem_of_lookup_2. }
  clear Hw. induction Hall as [|u ws us per' (hk & Hk & ->) _ IH];
    [constructor|].
  apply Forall_cons in Hus as [Hu Hus]. constructor; [|by apply IH].
  eapply Forall_impl; [by apply (rule_writes_operands h hk u)|].
  intros w (c & d & -> & Hop). exists c, d. split_and!; [done| |].
  - pose proof (arena_ordered_operand h _ _ Hord Hop).
    pose proof (reachable_le h self u Hord Hu). lia.
  - by eapply reachable_step.
Qed.

Lemma step_grad_other (i : ref) (g : num) (ws : list (write num)) :
  Forall (λ w, ∃ c d, w = AddGrad c d ∧ c ≠ i) ws →
  foldl (step_grad i) g ws = g.
Proof.
  intros Hws. induction Hws as [|w ws (c & d & -> & Hne) _ IH]; [done|].
  simpl. by rewrite decide_False.
Qed.

(** X3: on a store built by the operations, [backward] returns exactly when
    every rule it runs can evaluate its power: [a.data ** (n - 1)] for each
    node [a ** n] reached from the root and [t ** 2] for each [tanh] node.
    A graph of [+], [*], [relu] and [exp] nodes alone never makes
    [backward] raise. *)
Theorem backward_returns_iff iter (h : heap num) (self : ref) :
  order_valid iter → heap_wf h → self < length h →
  res (backward iter self h) = Ok tt ↔
  ∀ u vu, reachable h self u → h !! u = Some vu → rule_defined h (_backward vu).
Proof.
  intros Hiter Hwf Hself.
  pose proof (heap_wf_arena_ordered h Hwf) as Hord.
  destruct (topo_order_returns iter Hiter h self (arena_ordered_closed h Hord) Hself)
    as [topo Htopo].
  destruct (lookup_lt_is_Some_2 h self Hself) as [vr Hvr].
  destruct (topo_order_spec iter Hiter h self topo (arena_ordered_acyclic h Hord) Htopo)
    as (_ & Hreach & _).
  assert (res (backward iter self h) =
          res (for_each (reverse topo) run_rule
                 (<[self := with_grad (of_int 1) vr]> h))) as ->.
  { unfold backward. rewrite Htopo.
    erewrite run_bind_Ok; [|unfold set_grad; by rewrite Hvr]. done. }
  rewrite (for_each_rules_return h (reverse topo) Hwf); [| |by apply grad_frame_with_grad].
  2:{ intros u Hu. apply elem_of_reverse, Hreach in Hu.
      pose proof (reachable_le h self u Hord Hu). lia. }
  split; intros Hall u vu Hu; apply Hall.
  - by apply elem_of_reverse, Hreach.
  - by apply Hreach, elem_of_reverse.
Qed.

(** X4: [backward] touches only what the root is built from.  The store it
    leaves, on return or raise, holds [1] as the gradient of the root,
    whatever it held at entry, and every node that is not reached from the
    root exactly as it was. *)
Theorem backward_frame iter (h : heap num) (self : ref) :
  order_valid iter → heap_wf h → self < length h →
  let h' := final (backward iter self h) in
  gradf h' self = of_int 1 ∧
  ∀ i, ¬ reachable h self i → h' !! i = h !! i.
Proof.
  intros Hiter Hwf Hself h'.
  destruct (backward_log iter h self Hiter Hwf Hself) as (ws & Hw & Hws).
  unfold h'. rewrite (logged_backward iter self h), Hw.
  split.
  - unfold gradf. rewrite replay_lookup.
    destruct (lookup_lt_is_Some_2 h self Hself) as [vr ->]. simpl.
    rewrite decide_True by done. apply step_grad_other.
    eapply Forall_impl; [exact Hws|]. intros w (c & d & -> & Hne & _). eauto.
  - intros i Hi. rewrite replay_lookup.
    destruct (h !! i) as [v|]; [|done]. simpl. f_equal.
    rewrite decide_False by (intros ->; apply Hi, rtc_refl).
    rewrite step_grad_other; [by destruct v|].
    eapply Forall_impl; [exact Hws|]. intros w (c & d & -> & _ & Hc).
    exists c, d. split; [done|]. by intros ->.
Qed.
End Returns.

(** ** What each rule contributes

    Every node is written to by the rules of its consumers, and only by
    them.  The amount a rule adds is a product of the data of the store,
    which [backward] does not change, and of the gradient of the node
    whose rule it is; and when the rule of a node runs, all the consumers of
    that node have run, so that gradient is the one the node ends with. *)

Section Contributions.
Context {num : Type} `{!PyNum num}.





















End Contributions.

(** ** Gradients left by an earlier pass

    [backward] assigns only the gradient of the root; every other gradient
    it adds to.  What a node holds at entry is still there at the end. *)

Section Stale.
Context {num : Type} `{!PyNum num} `{!ExactArith num}.
Add Ring num_ring_stale : exact_semiring.

(** The store with every gradient set to zero. *)
Definition zero_grads (h : heap num) : heap num := with_grad (of_int 0) <$> h.

Lemma zero_grads_frame (h : heap num) : grad_frame h (zero_grads h).
Proof.
  unfold grad_frame, zero_grads. apply Forall2_fmap_r, Forall_Forall2_diag.
  apply Forall_forall. intros v _. by repeat split.
Qed.

Lemma operand_frame (h hk : heap num) c v :
  grad_frame h hk → operand hk c v → operand h c v.
Proof.
  intros Hfr (vr' & Hv' & Hc).
  destruct (grad_frame_lookup_r _ _ _ _ Hfr Hv') as (vr & Hv & _ & _ & Hp & _).
  exists vr. split; [done|]. by rewrite <- Hp.
Qed.

Lemma reachable_frame (h hk : heap num) r u :
  grad_frame h hk → reachable hk r u → reachable h r u.
Proof.
  intros Hfr Hr. unfold reachable in *.
  induction Hr as [|x y z Hxy _ IH]; [done|].
  eapply rtc_l; [|exact IH]. by eapply operand_frame.
Qed.

Lemma tangent_frame (h hk : heap num) v :
  grad_frame h hk → ∀ f u, tangent f hk v u = tangent f h v u.
Proof.
  intros Hfr f. induction f as [|f IH]; intros u; [done|]. simpl.
  case_decide; [done|].
  destruct (h !! u) as [vu|] eqn:Hu.
  - destruct (grad_frame_lookup _ _ _ _ Hfr Hu) as (vu' & -> & _ & Hb & _).
    rewrite Hb, (partials_frame h hk _ Hfr).
    destruct (partials h (_backward vu)) as [ps|]; [|done].
    apply foldr_ext; [|done|done]. intros p acc. by rewrite IH.
  - destruct (hk !! u) as [vu'|] eqn:Hu'; [|done].
    destruct (grad_frame_lookup_r _ _ _ _ Hfr Hu') as (vu & Hvu & _). congruence.
Qed.

Lemma gradf_zero_grads (h : heap num) w : gradf (zero_grads h) w = of_int 0.
Proof.
  unfold gradf, zero_grads. rewrite list_lookup_fmap.
  by destruct (h !! w).
Qed.

(** X5 (in exact arithmetic): [backward] adds to the gradient a node holds
    at entry.  If the other nodes of the graph hold gradient zero, the
    gradient [backward] leaves in [x] is what [x] held at entry plus what
    [backward] leaves in [x] when every gradient is zero at entry; a second
    pass over the same leaf without resetting its gradient sums the two. *)
Theorem backward_accumulates iter (h : heap num) (self x : ref) :
  order_valid iter → heap_wf h → self < length h → x < length h → x ≠ self →
  (∀ w, reachable h self w → w ≠ x → w ≠ self → gradf h w = of_int 0) →
  res (backward iter self h) = Ok tt →
  res (backward iter self (zero_grads h)) = Ok tt ∧
  gradf (final (backward iter self h)) x =
    nadd (gradf h x) (gradf (final (backward iter self (zero_grads h))) x).
Proof.
  intros Hiter Hwf Hself Hx Hne Hzero Hres.
  pose proof (zero_grads_frame h) as Hfr.
  pose proof (grad_frame_wf h _ Hfr Hwf) as Hwf0.
  pose proof (grad_frame_length _ _ Hfr) as Hlen.
  assert (res (backward iter self (zero_grads h)) = Ok tt) as Hres0.
  { apply (backward_Ok_iff iter _ self Hiter Hwf0); [by rewrite Hlen|].
    intros u vu' Hu Hvu'.
    destruct (grad_frame_lookup_r _ _ _ _ Hfr Hvu') as (vu & Hvu & _ & Hb & _).
    rewrite Hb, (partials_frame h _ _ Hfr).
    apply (proj1 (backward_Ok_iff iter h self Hiter Hwf Hself) Hres u vu);
      [by eapply reachable_frame|done]. }
  split; [done|].
  rewrite (backward_computes_derivative iter (zero_grads h) self Hiter Hwf0);
    [|by rewrite Hlen| |done|by rewrite Hlen].
  2:{ intros i v Hi. unfold zero_grads in Hi. rewrite list_lookup_fmap in Hi.
      destruct (h !! i); simpl in Hi; by simplify_eq. }
  unfold derivative. rewrite Hlen, (tangent_frame h _ x Hfr).
  fold (derivative h self x).
  pose proof (heap_wf_arena_ordered h Hwf) as Hord.
  destruct (topo_order_returns iter Hiter h self (arena_ordered_closed h Hord) Hself)
    as [topo Htopo].
  destruct (topo_order_valid iter h self topo Hiter Hwf Hself Htopo)
    as (Hnd & Hreach & _ & _).
  rewrite (backward_gradients iter h self topo) by done.
  destruct (decide (x ∈ topo)) as [Hin|Hnin].
  - set (g0 := λ w, if decide (w = self) then of_int 1 else of_int 0 : num).
    set (g1 := λ w, if decide (w = x) then gradf h x else g0 w).
    rewrite (wsum_ext_g (seeded h self) g1).
    2:{ intros w Hw. apply elem_of_reverse, Hreach in Hw.
        unfold seeded, g1, g0. destruct (decide (w = x)) as [->|Hwx].
        - by rewrite decide_False.
        - case_decide; [done|]. by apply Hzero. }
    rewrite (wsum_add_at g0 g1 _ _ x (gradf h x)).
    + rewrite (derivative_self h x Hx).
      rewrite (wsum_indicator g0 _ _ self).
      * ring.
      * by rewrite reverse_Permutation.
      * apply elem_of_reverse, Hreach, rtc_refl.
      * unfold g0. by rewrite decide_True.
      * intros w _ Hw. unfold g0. by rewrite decide_False.
    + by rewrite reverse_Permutation.
    + by apply elem_of_reverse.
    + unfold g1, g0. rewrite decide_True by done. rewrite decide_False by done. ring.
    + intros w Hw. unfold g1. by rewrite decide_False.
  - unfold derivative. rewrite tangent_unreachable; [ring|done|].
    intros Hr. by apply Hnin, Hreach.
Qed.
End Stale.

(** ** One operation over leaves: its value and its rule *)

Section OneRule.
Context {num : Type} `{!PyNum num}.

Lemma run_mul self other h va vb :
  h !! self = Some va → h !! other = Some vb →
  __mul__ self (PyValue other) h =
    mkOutcome (Ok (length h))
      (h ++ [mkValue (nmul (data va) (data vb)) (of_int 0)
               (BMul self other (length h)) (list_to_set [self; other]) "*" ""]) [].
Proof.
  intros Ha Hb. unfold __mul__. simpl. rewrite run_ret_bind.
  rewrite (run_getattr_bind _ _ _ _ _ Ha), (run_getattr_bind _ _ _ _ _ Hb).
  by rewrite run_new_node.
Qed.

Lemma run_mul_number self (n : num) h va :
  h !! self = Some va →
  __mul__ self (PyNumber n) h =
    mkOutcome (Ok (S (length h)))
      (h ++ [mkValue n (of_int 0) BNone ∅ "" "";
             mkValue (nmul (data va) n) (of_int 0)
               (BMul self (length h) (S (length h)))
               (list_to_set [self; length h]) "*" ""]) [].
Proof.
  intros Ha. unfold __mul__. simpl.
  erewrite run_bind_Ok by reflexivity. simpl.
  erewrite (run_getattr_bind _ _ self) by (by apply lookup_app_l_Some).
  erewrite (run_getattr_bind _ _ (length h)) by (by apply list_lookup_middle).
  rewrite run_new_node. simpl. rewrite length_app. simpl.
  by rewrite Nat.add_1_r, <- app_assoc.
Qed.

(** What the rule of a product writes. *)
Lemma call_mul (hk : heap num) (s o out : ref) vs vo vout :
  hk !! s = Some vs → hk !! o = Some vo → hk !! out = Some vout →
  out ≠ s → out ≠ o →
  res (call (BMul s o out) hk) = Ok tt ∧
  writes (call (BMul s o out) hk) =
    [AddGrad s (nmul (data vo) (grad vout)); AddGrad o (nmul (data vs) (grad vout))].
Proof.
  intros Hs Ho Hout Hns Hno. unfold call.
  rewrite (run_getattr_bind _ _ _ _ _ Ho), (run_getattr_bind _ _ _ _ _ Hout).
  erewrite run_bind_Ok by (by apply run_iadd).
  set (h2 := <[s := _]> hk).
  assert (h2 !! s = Some (with_grad (nadd (grad vs) (nmul (data vo) (grad vout))) vs))
    as Hs2 by (apply list_lookup_insert_eq; by eapply lookup_lt_Some).
  assert (h2 !! out = Some vout) as Hout2
    by (unfold h2; by rewrite list_lookup_insert_ne).
  rewrite (run_getattr_bind _ _ _ _ _ Hs2), (run_getattr_bind _ _ _ _ _ Hout2).
  simpl.
  destruct (iadd_outcome o (nmul (data vs) (grad vout)) h2) as [-> ->]; [|done].
  unfold h2. rewrite length_insert. by eapply lookup_lt_Some.
Qed.

(** What the rule of [exp] writes. *)
Lemma call_exp (hk : heap num) (s out : ref) vs vout :
  hk !! s = Some vs → hk !! out = Some vout →
  res (call (BExp s out) hk) = Ok tt ∧
  writes (call (BExp s out) hk) = [AddGrad s (nmul (data vout) (grad vout))].
Proof.
  intros Hs Hout. unfold call.
  rewrite !(run_getattr_bind _ _ _ _ _ Hout).
  by rewrite (run_iadd _ _ _ _ Hs).
Qed.

(** What the rule of [tanh] writes, when [t ** 2] is defined. *)
Lemma call_tanh (hk : heap num) (s out : ref) (t t2 : num) vs vout :
  hk !! s = Some vs → hk !! out = Some vout → npow t (of_int 2) = Ok t2 →
  res (call (BTanh s t out) hk) = Ok tt ∧
  writes (call (BTanh s t out) hk) =
    [AddGrad s (nmul (nsub (of_int 1) t2) (grad vout))].
Proof.
  intros Hs Hout Ht. unfold call. rewrite Ht, run_lift_bind.
  rewrite (run_getattr_bind _ _ _ _ _ Hout).
  by rewrite (run_iadd _ _ _ _ Hs).
Qed.

(** [backward] from a node whose operands are leaves: the seed, then the
    writes of the rule of the node. *)
Lemma backward_one_rule iter (h : heap num) (self : ref) vr ws :
  order_valid iter → h !! self = Some vr → self ∉ _prev vr →
  (∀ c, c ∈ _prev vr → ∃ vc, h !! c = Some vc ∧ is_leaf vc) →
  (let h1 := <[self := with_grad (of_int 1) vr]> h in
   res (call (_backward vr) h1) = Ok tt ∧ writes (call (_backward vr) h1) = ws) →
  res (backward iter self h) = Ok tt ∧
  writes (backward iter self h) = SetGrad self (of_int 1) :: ws ∧
  ∀ i v, h !! i = Some v →
    gradf (final (backward iter self h)) i =
      foldl (step_grad i) (grad v) (SetGrad self (of_int 1) :: ws).
Proof.
  intros Hiter Hself Hns Hleaves [Hres Hws].
  assert (writes (backward iter self h) = SetGrad self (of_int 1) :: ws) as Hw.
  { rewrite (backward_shallow iter Hiter h self vr Hself Hns Hleaves).
    erewrite run_bind_Ok; [|unfold set_grad; by rewrite Hself]. simpl.
    by rewrite Hws. }
  split_and!; [|done|].
  - rewrite (backward_shallow iter Hiter h self vr Hself Hns Hleaves).
    erewrite run_bind_Ok; [|unfold set_grad; by rewrite Hself]. done.
  - intros i v Hi. rewrite (logged_backward iter self h), Hw.
    unfold gradf. by rewrite replay_lookup, Hi.
Qed.

(** X6: the product rule.  For leaves [a] and [b], [a * b] is a new node
    with value [a.data * b.data] and operands [a] and [b]; [backward] from
    it returns and adds [b.data * 1] to [a.grad] and [a.data * 1] to
    [b.grad], [1] being the seed.  When [a] and [b] are the same object
    both amounts are added to it, one after the other. *)
Theorem product_rule iter (h : heap num) (a b : ref) va vb :
  order_valid iter → h !! a = Some va → h !! b = Some vb →
  is_leaf va → is_leaf vb →
  let o := __mul__ a (PyValue b) h in
  let y := length h in
  res o = Ok y ∧ data_of (final o) y = nmul (data va) (data vb) ∧
  let o' := backward iter y (final o) in
  res o' = Ok tt ∧
  writes o' = [SetGrad y (of_int 1);
               AddGrad a (nmul (data vb) (of_int 1));
               AddGrad b (nmul (data va) (of_int 1))] ∧
  (a ≠ b →
   gradf (final o') a = nadd (grad va) (nmul (data vb) (of_int 1)) ∧
   gradf (final o') b = nadd (grad vb) (nmul (data va) (of_int 1))) ∧
  (a = b →
   gradf (final o') a =
     nadd (nadd (grad va) (nmul (data va) (of_int 1))) (nmul (data va) (of_int 1))).
Proof.
  intros Hiter Ha Hb Hla Hlb o y.
  pose proof (lookup_lt_Some _ _ _ Ha) as Hlta.
  pose proof (lookup_lt_Some _ _ _ Hb) as Hltb.
  unfold o. rewrite (run_mul a b h va vb Ha Hb). simpl. fold y.
  set (vy := mkValue (nmul (data va) (data vb)) (of_int 0) (BMul a b y)
               ({[a]} ∪ ({[b]} ∪ ∅)) "*" "").
  set (h1 := h ++ [vy]).
  assert (h1 !! y = Some vy) as Hy1 by (by apply list_lookup_middle).
  assert (h1 !! a = Some va) as Ha1 by (by apply lookup_app_l_Some).
  assert (h1 !! b = Some vb) as Hb1 by (by apply lookup_app_l_Some).
  split; [done|]. split; [unfold data_of; by rewrite Hy1|].
  destruct (backward_one_rule iter h1 y vy
              [AddGrad a (nmul (data vb) (of_int 1));
               AddGrad b (nmul (data va) (of_int 1))] Hiter Hy1)
    as (Hres & Hw & Hg).
  { simpl. subst y. set_solver by lia. }
  { simpl. intros c Hc.
    assert (c = a ∨ c = b) as [-> | ->] by set_solver; eauto. }
  { simpl. apply (call_mul _ a b y va vb (with_grad (of_int 1) vy)).
    - rewrite list_lookup_insert_ne by (subst y; lia). done.
    - rewrite list_lookup_insert_ne by (subst y; lia). done.
    - apply list_lookup_insert_eq. by eapply lookup_lt_Some.
    - subst y; lia.
    - subst y; lia. }
  split_and!; [done|done| |].
  - intros Hne. rewrite (Hg a va Ha1), (Hg b vb Hb1). simpl.
    rewrite !(decide_False (P := y = a)) by (subst y; lia).
    rewrite !(decide_False (P := y = b)) by (subst y; lia).
    rewrite (decide_True (P := a = a)), (decide_True (P := b = b)) by done.
    rewrite (decide_False (P := b = a)) by done.
    by rewrite (decide_False (P := a = b)) by done.
  - intros <-. assert (vb = va) as -> by congruence.
    rewrite (Hg a va Ha1). simpl.
    rewrite !(decide_False (P := y = a)) by (subst y; lia).
    by rewrite !(decide_True (P := a = a)) by done.
Qed.

(** X7: [a.exp()].  When [math.exp(a.data)] raises, [exp] raises the same
    and builds nothing.  Otherwise it returns a new node holding that
    value [e], and [backward] from it (for a leaf [a]) returns and adds
    [e * 1] to [a.grad]. *)
Theorem exp_contract iter (h : heap num) (a : ref) va :
  order_valid iter → h !! a = Some va → is_leaf va →
  match math_exp (data va) with
  | Raise e => exp a h = mkOutcome (Raise e) h []
  | Ok e =>
      let o := exp a h in
      let y := length h in
      res o = Ok y ∧ data_of (final o) y = e ∧
      let o' := backward iter y (final o) in
      res o' = Ok tt ∧
      gradf (final o') a = nadd (grad va) (nmul e (of_int 1))
  end.
Proof.
  intros Hiter Ha Hla. pose proof (lookup_lt_Some _ _ _ Ha) as Hlta.
  unfold exp. rewrite (run_getattr_bind _ _ _ _ _ Ha).
  destruct (math_exp (data va)) as [e|err]; [|done].
  rewrite run_lift_bind, run_new_node. simpl.
  set (y := length h).
  set (vy := mkValue e (of_int 0) (BExp a y) ({[a]} ∪ ∅) "exp" "").
  set (h1 := h ++ [vy]).
  assert (h1 !! y = Some vy) as Hy1 by (by apply list_lookup_middle).
  assert (h1 !! a = Some va) as Ha1 by (by apply lookup_app_l_Some).
  split; [done|]. split; [unfold data_of; by rewrite Hy1|].
  destruct (backward_one_rule iter h1 y vy
              [AddGrad a (nmul e (of_int 1))] Hiter Hy1)
    as (Hres & Hw & Hg).
  { simpl. subst y. set_solver by lia. }
  { simpl. intros c Hc. assert (c = a) as -> by set_solver. eauto. }
  { simpl. apply (call_exp _ a y va (with_grad (of_int 1) vy)).
    - rewrite list_lookup_insert_ne by (subst y; lia). done.
    - apply list_lookup_insert_eq. by eapply lookup_lt_Some. }
  split; [done|]. rewrite (Hg a va Ha1). simpl.
  rewrite !(decide_False (P := y = a)) by (subst y; lia).
  by rewrite decide_True.
Qed.

Lemma tanh_outcome iter (h : heap num) (a : ref) va :
  order_valid iter → h !! a = Some va → is_leaf va →
  match math_exp (nmul (of_int 2) (data va)) with
  | Raise e => tanh a h = mkOutcome (Raise e) h []
  | Ok e =>
      match ndiv (nsub e (of_int 1)) (nadd e (of_int 1)) with
      | Raise e' => tanh a h = mkOutcome (Raise e') h []
      | Ok t =>
          let o := tanh a h in
          let y := length h in
          res o = Ok y ∧ data_of (final o) y = t ∧
          ∀ t2, npow t (of_int 2) = Ok t2 →
            let o' := backward iter y (final o) in
            res o' = Ok tt ∧
            gradf (final o') a =
              nadd (grad va) (nmul (nsub (of_int 1) t2) (of_int 1))
      end
  end.
Proof.
  intros Hiter Ha Hla. pose proof (lookup_lt_Some _ _ _ Ha) as Hlta.
  unfold tanh. rewrite (run_getattr_bind _ _ _ _ _ Ha).
  destruct (math_exp (nmul (of_int 2) (data va))) as [e|err]; [|done].
  rewrite !run_lift_bind.
  destruct (ndiv (nsub e (of_int 1)) (nadd e (of_int 1))) as [t|err]; [|done].
  rewrite run_lift_bind, run_new_node. simpl.
  set (y := length h).
  set (vy := mkValue t (of_int 0) (BTanh a t y) ({[a]} ∪ ∅) "tanh" "").
  set (h1 := h ++ [vy]).
  assert (h1 !! y = Some vy) as Hy1 by (by apply list_lookup_middle).
  assert (h1 !! a = Some va) as Ha1 by (by apply lookup_app_l_Some).
  split; [done|]. split; [unfold data_of; by rewrite Hy1|].
  intros t2 Ht2.
  destruct (backward_one_rule iter h1 y vy
              [AddGrad a (nmul (nsub (of_int 1) t2) (of_int 1))] Hiter Hy1)
    as (Hres & Hw & Hg).
  { simpl. subst y. set_solver by lia. }
  { simpl. intros c Hc. assert (c = a) as -> by set_solver. eauto. }
  { simpl. apply (call_tanh _ a y t t2 va (with_grad (of_int 1) vy)).
    - rewrite list_lookup_insert_ne by (subst y; lia). done.
    - apply list_lookup_insert_eq. by eapply lookup_lt_Some.
    - done. }
  split; [done|]. rewrite (Hg a va Ha1). simpl.
  rewrite !(decide_False (P := y = a)) by (subst y; lia).
  by rewrite decide_True.
Qed.

(** X8: [a.tanh()].  The operation evaluates [math.exp(2 * a.data)] and
    raises what that raises, building nothing: so it fails where the
    exponential overflows, although the hyperbolic tangent is bounded.
    With [e] the exponential, it raises what [(e - 1) / (e + 1)] raises,
    and otherwise returns a new node holding that quotient [t].  The rule
    of the node evaluates [t ** 2]; when that is [t2], [backward] from the
    node (for a leaf [a]) returns and adds [(1 - t2) * 1] to [a.grad]. *)
Theorem tanh_contract iter (h : heap num) (a : ref) va :
  order_valid iter → h !! a = Some va → is_leaf va →
  match math_exp (nmul (of_int 2) (data va)) with
  | Raise e => tanh a h = mkOutcome (Raise e) h []
  | Ok e =>
      match ndiv (nsub e (of_int 1)) (nadd e (of_int 1)) with
      | Raise e' => tanh a h = mkOutcome (Raise e') h []
      | Ok t =>
          let o := tanh a h in
          let y := length h in
          res o = Ok y ∧ data_of (final o) y = t ∧
          ∀ t2, npow t (of_int 2) = Ok t2 →
            let o' := backward iter y (final o) in
            res o' = Ok tt ∧
            gradf (final o') a =
              nadd (grad va) (nmul (nsub (of_int 1) t2) (of_int 1))
      end
  end.
Proof. exact (tanh_outcome iter h a va). Qed.
End OneRule.

(** ** Division *)

Section Division.
Context `{!PyRuntime}.

Lemma float_pow_zero_inverse (z : float) :
  (z =? 0)%float = true → float_pow z (float_of_int (-1)) = Raise ZeroDivisionError.
Proof. intros Hz. unfold float_pow. by rewrite Hz. Qed.

(** X9: division by zero, on floats.  [a / b] for a node [b] whose value
    is zero ([0.0] or [-0.0]), [a / 0] and [n / b] all raise
    [ZeroDivisionError], on every platform, and build nothing: the store is
    left as it was.  The exception comes from [** -1], which every
    division goes through. *)
Theorem division_by_zero (h : heap float) (a b : ref) va vb (n z : float) :
  h !! a = Some va → h !! b = Some vb →
  (data vb =? 0)%float = true → (z =? 0)%float = true →
  __truediv__ a (PyValue b) h = mkOutcome (Raise ZeroDivisionError) h [] ∧
  __truediv__ a (PyNumber z) h = mkOutcome (Raise ZeroDivisionError) h [] ∧
  __rtruediv__ b n h = mkOutcome (Raise ZeroDivisionError) h [].
Proof.
  intros Ha Hb Hvb Hz.
  assert (__pow__ b (PyNumber (of_int (-1))) h =
          mkOutcome (Raise ZeroDivisionError) h []) as Hpow.
  { unfold __pow__. rewrite (run_getattr_bind _ _ _ _ _ Hb).
    change (npow (data vb) (of_int (-1))) with (float_pow (data vb) (float_of_int (-1))).
    by rewrite (float_pow_zero_inverse _ Hvb). }
  split_and!.
  - unfold __truediv__, inv_obj. rewrite run_bind, run_bind, Hpow. done.
  - unfold __truediv__, inv_obj. rewrite run_bind, run_bind.
    change (npow z (of_int (-1))) with (float_pow z (float_of_int (-1))).
    by rewrite (float_pow_zero_inverse _ Hz).
  - unfold __rtruediv__. rewrite run_bind, Hpow. done.
Qed.
End Division.

(** ** Subtraction and division, in exact arithmetic

    [a - b] is built as [a + b * -1] and [a / b] as [a * b ** -1].  Over
    the reals these have the value and the gradients of the difference and
    of the quotient. *)

Section Derived.
Context {num : Type} `{!PyNum num}.

Lemma reachable_cases (h : heap num) (r u : ref) vr :
  h !! r = Some vr → reachable h r u →
  u = r ∨ ∃ c, c ∈ _prev vr ∧ reachable h c u.
Proof.
  intros Hr Hreach. apply rtc_inv in Hreach as [->|(c & (vr' & Hr' & Hc) & Hcu)];
    [by left|].
  right. exists c. split; [|done]. congruence.
Qed.

Lemma reachable_leaf (h : heap num) (c u : ref) vc :
  h !! c = Some vc → is_leaf vc → reachable h c u → u = c.
Proof.
  intros Hc [Hp _] Hreach.
  destruct (reachable_cases h c u vc Hc Hreach) as [?|(c' & Hc' & _)]; [done|].
  rewrite Hp in Hc'. set_solver.
Qed.

Lemma derivative_leaf (h : heap num) (u v : ref) vu :
  heap_wf h → h !! u = Some vu → is_leaf vu → u ≠ v →
  derivative h u v = of_int 0.
Proof.
  intros Hwf Hu [_ Hb] Hne.
  rewrite (derivative_node h v u vu [] Hwf Hne Hu); [done|]. by rewrite Hb.
Qed.

Lemma partials_leaf (h : heap num) vu : is_leaf vu → is_Ok (partials h (_backward vu)).
Proof. intros [_ ->]. done. Qed.

(** [a - b] for nodes [a] and [b]: the constant [-1], the product
    [b * -1] and the sum. *)
Lemma run_sub (a b : ref) (h : heap num) va vb :
  h !! a = Some va → h !! b = Some vb →
  let n := length h in
  __sub__ a (PyValue b) h =
    mkOutcome (Ok (S (S n)))
      (h ++ [mkValue (of_int (-1)) (of_int 0) BNone ∅ "" "";
             mkValue (nmul (data vb) (of_int (-1))) (of_int 0)
               (BMul b n (S n)) (list_to_set [b; n]) "*" "";
             mkValue (nadd (data va) (nmul (data vb) (of_int (-1)))) (of_int 0)
               (BAdd a (S n) (S (S n))) (list_to_set [a; S n]) "+" ""]) [].
Proof.
  intros Ha Hb n. unfold __sub__, neg_obj, __neg__.
  set (vk := mkValue (of_int (-1)) (of_int 0) BNone ∅ "" "").
  set (vm := mkValue (nmul (data vb) (of_int (-1))) (of_int 0)
               (BMul b n (S n)) (list_to_set [b; n]) "*" "").
  set (h2 := h ++ [vk; vm]).
  assert ((r ← __mul__ b (PyNumber (of_int (-1))); mret (PyValue (num := num) r)) h =
          mkOutcome (Ok (PyValue (S n))) h2 []) as Hneg.
  { erewrite run_bind_Ok by (by apply run_mul_number). reflexivity. }
  rewrite (run_bind_Ok _ _ _ _ _ _ Hneg). cbv beta.
  assert (h2 !! a = Some va) as Ha2 by (by apply lookup_app_l_Some).
  assert (h2 !! S n = Some vm) as Hm2.
  { unfold h2. rewrite lookup_app_r by (subst n; lia).
    by replace (S n - length h) with 1 by (subst n; lia). }
  rewrite (run_add a (S n) h2 va vm Ha2 Hm2).
  assert (length h2 = S (S n)) as ->.
  { unfold h2. rewrite length_app. simpl. subst n. lia. }
  unfold h2. by rewrite <- app_assoc.
Qed.

(** [a / b] for nodes [a] and [b]: the power [b ** -1] and the product. *)
Lemma run_truediv (a b : ref) (h : heap num) va vb d :
  h !! a = Some va → h !! b = Some vb → npow (data vb) (of_int (-1)) = Ok d →
  let n := length h in
  __truediv__ a (PyValue b) h =
    mkOutcome (Ok (S n))
      (h ++ [mkValue d (of_int 0) (BPow b (of_int (-1)) n) (list_to_set [b])
               ("**" +:+ num_str (of_int (-1))) "";
             mkValue (nmul (data va) d) (of_int 0)
               (BMul a n (S n)) (list_to_set [a; n]) "*" ""]) [].
Proof.
  intros Ha Hb Hd n. unfold __truediv__, inv_obj.
  set (vp := mkValue d (of_int 0) (BPow b (of_int (-1)) n) (list_to_set [b])
               ("**" +:+ num_str (of_int (-1))) "").
  set (h2 := h ++ [vp]).
  assert ((p ← __pow__ b (PyNumber (of_int (-1))); mret (PyValue (num := num) p)) h =
          mkOutcome (Ok (PyValue n)) h2 []) as Hinv.
  { erewrite run_bind_Ok by (by apply (run_pow_number b _ h vb d)). reflexivity. }
  rewrite (run_bind_Ok _ _ _ _ _ _ Hinv). cbv beta.
  assert (h2 !! a = Some va) as Ha2 by (by apply lookup_app_l_Some).
  assert (h2 !! n = Some vp) as Hp2 by (by apply list_lookup_middle).
  rewrite (run_mul a n h2 va vp Ha2 Hp2).
  assert (length h2 = S n) as ->.
  { unfold h2. rewrite length_app. simpl. subst n. lia. }
  unfold h2. by rewrite <- app_assoc.
Qed.
End Derived.

Section DerivedReal.
Local Open Scope R_scope.

Lemma derivative_add (h : heap R) (u v s o out : ref) vu :
  heap_wf h → h !! u = Some vu → _backward vu = BAdd s o out → u ≠ v →
  derivative h u v = derivative h s v + derivative h o v.
Proof.
  intros Hwf Hu Hb Hne.
  rewrite (derivative_node h v u vu [(s, 1); (o, 1)] Hwf Hne Hu); [simpl; lra|].
  by rewrite Hb.
Qed.

Lemma derivative_mul (h : heap R) (u v s o out : ref) vu vs vo :
  heap_wf h → h !! u = Some vu → _backward vu = BMul s o out → u ≠ v →
  h !! s = Some vs → h !! o = Some vo →
  derivative h u v = data vo * derivative h s v + data vs * derivative h o v.
Proof.
  intros Hwf Hu Hb Hne Hs Ho.
  rewrite (derivative_node h v u vu [(s, data vo); (o, data vs)] Hwf Hne Hu);
    [simpl; lra|].
  rewrite Hb. simpl. unfold get_data. by rewrite Ho, Hs.
Qed.

Lemma derivative_pow (h : heap R) (u v s out : ref) (n p : R) vu vs :
  heap_wf h → h !! u = Some vu → _backward vu = BPow s n out → u ≠ v →
  h !! s = Some vs → R_pow (data vs) (n - 1) = Ok p →
  derivative h u v = n * p * derivative h s v.
Proof.
  intros Hwf Hu Hb Hne Hs Hp.
  rewrite (derivative_node h v u vu [(s, n * p)] Hwf Hne Hu); [simpl; lra|].
  rewrite Hb. simpl. unfold get_data. rewrite Hs. simpl.
  change (npow (data vs) (n - 1)) with (R_pow (data vs) (n - 1)). by rewrite Hp.
Qed.

Lemma R_pow_inverse (x : R) : x ≠ 0 → R_pow x (-1) = Ok (/ x).
Proof.
  intros Hx. unfold R_pow. rewrite (is_int_IZR (-1)).
  destruct (Req_dec_T x 0); [done|]. f_equal. simpl. by rewrite Rmult_1_r.
Qed.

Lemma R_pow_inverse_square (x : R) : x ≠ 0 → R_pow x (-1 - 1) = Ok (/ (x * x)).
Proof.
  intros Hx. unfold R_pow. replace (-1 - 1) with (IZR (-2)) by lra.
  rewrite (is_int_IZR (-2)).
  destruct (Req_dec_T x 0); [done|]. f_equal. simpl. by rewrite Rmult_1_r.
Qed.

(** X10 (over the reals): subtraction.  For distinct leaves [a] and [b] of
    a store built by the operations, with every gradient zero, [a - b]
    returns a node whose value is [a.data - b.data], and [backward] from it
    returns with [a.grad = 1] and [b.grad = -1]. *)
Theorem sub_value_and_gradients iter (h : heap R) (a b : ref) va vb :
  order_valid iter → heap_wf h → (∀ i v, h !! i = Some v → grad v = 0) →
  h !! a = Some va → h !! b = Some vb → is_leaf va → is_leaf vb → a ≠ b →
  let o := __sub__ a (PyValue b) h in
  ∃ r, res o = Ok r ∧ data_of (final o) r = data va - data vb ∧
    let o' := backward iter r (final o) in
    res o' = Ok tt ∧ gradf (final o') a = 1 ∧ gradf (final o') b = -1.
Proof.
  intros Hiter Hwf Hzero Ha Hb Hla Hlb Hne o.
  pose proof (lookup_lt_Some _ _ _ Ha) as Hlta.
  pose proof (lookup_lt_Some _ _ _ Hb) as Hltb.
  pose proof (keeps_wf_final _ h (__sub___wf a (PyValue b)) Hwf) as Hwf3.
  fold o in Hwf3. revert Hwf3.
  unfold o. rewrite (run_sub a b h va vb Ha Hb). cbv zeta.
  set (n := length h).
  set (vk := mkValue (of_int (-1)) (of_int 0) BNone ∅ "" "").
  set (vm := mkValue (nmul (data vb) (of_int (-1))) (of_int 0)
               (BMul b n (S n)) (list_to_set [b; n]) "*" "").
  set (vs := mkValue (nadd (data va) (nmul (data vb) (of_int (-1)))) (of_int 0)
               (BAdd a (S n) (S (S n))) (list_to_set [a; S n]) "+" "").
  set (h3 := h ++ [vk; vm; vs]).
  change (final (mkOutcome (Ok (S (S n))) h3 [])) with h3.
  change (res (mkOutcome (A := ref) (Ok (S (S n))) h3 [])) with (Ok (A := ref) (S (S n))).
  intros Hwf3.
  assert (∀ j v, [vk; vm; vs] !! j = Some v → h3 !! (n + j)%nat = Some v) as Hnew.
  { intros j v Hj. unfold h3. rewrite lookup_app_r by (subst n; lia).
    by replace (n + j - length h)%nat with j by (subst n; lia). }
  pose proof (Hnew 0%nat vk eq_refl) as Hk3. rewrite Nat.add_0_r in Hk3.
  pose proof (Hnew 1%nat vm eq_refl) as Hm3. rewrite Nat.add_1_r in Hm3.
  pose proof (Hnew 2%nat vs eq_refl) as Hs3.
  replace (n + 2)%nat with (S (S n)) in Hs3 by lia.
  assert (h3 !! a = Some va) as Ha3 by (by apply lookup_app_l_Some).
  assert (h3 !! b = Some vb) as Hb3 by (by apply lookup_app_l_Some).
  assert (length h3 = S (S (S n))) as Hlen3.
  { unfold h3. rewrite length_app. simpl. subst n. lia. }
  assert (is_leaf vk) as Hlk by done.
  exists (S (S n)). split; [done|]. split.
  { unfold data_of. rewrite Hs3. simpl. lra. }
  set (o' := backward iter (S (S n)) h3).
  assert (res o' = Ok tt) as Hres.
  { apply (backward_Ok_iff iter h3 (S (S n)) Hiter Hwf3); [lia|].
    intros u vu Hu Hvu.
    destruct (reachable_cases h3 _ u vs Hs3 Hu) as [->|(c & Hc & Hcu)];
      [by simplify_eq|].
    assert (c = a ∨ c = S n) as [-> | ->] by (simpl in Hc; set_solver).
    { rewrite (reachable_leaf h3 a u va Ha3 Hla Hcu) in Hvu. simplify_eq.
      by apply partials_leaf. }
    destruct (reachable_cases h3 _ u vm Hm3 Hcu) as [->|(c & Hc' & Hcu')].
    { simplify_eq. simpl. unfold get_data. by rewrite Hk3, Hb3. }
    assert (c = b ∨ c = n) as [-> | ->] by (simpl in Hc'; set_solver).
    - rewrite (reachable_leaf h3 b u vb Hb3 Hlb Hcu') in Hvu. simplify_eq.
      by apply partials_leaf.
    - rewrite (reachable_leaf h3 n u vk Hk3 Hlk Hcu') in Hvu. simplify_eq.
      by apply partials_leaf. }
  split; [done|].
  assert (∀ i v, h3 !! i = Some v → grad v = 0) as Hzero3.
  { intros i v Hi. unfold h3 in Hi.
    apply lookup_app_Some in Hi as [Hi|[_ Hi]]; [by eapply Hzero|].
    destruct (i - length h)%nat as [|[|[|?]]]; simpl in Hi; by simplify_eq. }
  unfold o'.
  rewrite !(backward_computes_derivative iter h3 (S (S n)) Hiter Hwf3) by (done || lia).
  rewrite !(derivative_add h3 (S (S n)) _ a (S n) (S (S n)) vs Hwf3 Hs3 eq_refl)
    by (subst n; lia).
  rewrite !(derivative_mul h3 (S n) _ b n (S n) vm vb vk Hwf3 Hm3 eq_refl)
    by (done || subst n; lia).
  rewrite (derivative_self h3 a), (derivative_self h3 b) by lia.
  rewrite (derivative_leaf h3 b a vb), (derivative_leaf h3 a b va) by done.
  rewrite !(derivative_leaf h3 n _ vk) by (done || subst n; lia).
  simpl. split; lra.
Qed.

(** X11 (over the reals): division.  For distinct leaves [a] and [b] of a
    store built by the operations, with every gradient zero and [b.data]
    not zero, [a / b] returns a node whose value is [a.data / b.data], and
    [backward] from it returns with [a.grad = 1 / b.data] and
    [b.grad = - a.data / b.data ** 2]. *)
Theorem truediv_value_and_gradients iter (h : heap R) (a b : ref) va vb :
  order_valid iter → heap_wf h → (∀ i v, h !! i = Some v → grad v = 0) →
  h !! a = Some va → h !! b = Some vb → is_leaf va → is_leaf vb → a ≠ b →
  data vb ≠ 0 →
  let o := __truediv__ a (PyValue b) h in
  ∃ r, res o = Ok r ∧ data_of (final o) r = data va / data vb ∧
    let o' := backward iter r (final o) in
    res o' = Ok tt ∧
    gradf (final o') a = / data vb ∧
    gradf (final o') b = - data va / (data vb * data vb).
Proof.
  intros Hiter Hwf Hzero Ha Hb Hla Hlb Hne Hnz o.
  pose proof (lookup_lt_Some _ _ _ Ha) as Hlta.
  pose proof (lookup_lt_Some _ _ _ Hb) as Hltb.
  pose proof (keeps_wf_final _ h (__truediv___wf a (PyValue b)) Hwf) as Hwf3.
  fold o in Hwf3. revert Hwf3.
  assert (npow (data vb) (of_int (-1)) = Ok (/ data vb)) as Hinv
    by exact (R_pow_inverse _ Hnz).
  unfold o. rewrite (run_truediv a b h va vb (/ data vb) Ha Hb Hinv).
  cbv zeta.
  set (n := length h).
  set (vp := mkValue (/ data vb) (of_int 0) (BPow b (of_int (-1)) n) (list_to_set [b])
               ("**" +:+ num_str (of_int (-1))) "").
  set (vm := mkValue (nmul (data va) (/ data vb)) (of_int 0)
               (BMul a n (S n)) (list_to_set [a; n]) "*" "").
  set (h3 := h ++ [vp; vm]).
  change (final (mkOutcome (Ok (S n)) h3 [])) with h3.
  change (res (mkOutcome (A := ref) (Ok (S n)) h3 [])) with (Ok (A := ref) (S n)).
  intros Hwf3.
  assert (∀ j v, [vp; vm] !! j = Some v → h3 !! (n + j)%nat = Some v) as Hnew.
  { intros j v Hj. unfold h3. rewrite lookup_app_r by (subst n; lia).
    by replace (n + j - length h)%nat with j by (subst n; lia). }
  pose proof (Hnew 0%nat vp eq_refl) as Hp3. rewrite Nat.add_0_r in Hp3.
  pose proof (Hnew 1%nat vm eq_refl) as Hm3. rewrite Nat.add_1_r in Hm3.
  assert (h3 !! a = Some va) as Ha3 by (by apply lookup_app_l_Some).
  assert (h3 !! b = Some vb) as Hb3 by (by apply lookup_app_l_Some).
  assert (length h3 = S (S n)) as Hlen3.
  { unfold h3. rewrite length_app. simpl. subst n. lia. }
  exists (S n). split; [done|]. split.
  { unfold data_of. rewrite Hm3. simpl. lra. }
  set (o' := backward iter (S n) h3).
  assert (is_Ok (partials h3 (_backward vp))) as Hpp.
  { simpl. unfold get_data. rewrite Hb3. simpl.
    change (npow (data vb) (-1 - 1)) with (R_pow (data vb) (-1 - 1)).
    by rewrite (R_pow_inverse_square _ Hnz). }
  assert (res o' = Ok tt) as Hres.
  { apply (backward_Ok_iff iter h3 (S n) Hiter Hwf3); [lia|].
    intros u vu Hu Hvu.
    destruct (reachable_cases h3 _ u vm Hm3 Hu) as [->|(c & Hc & Hcu)].
    { simplify_eq. simpl. unfold get_data. by rewrite Hp3, Ha3. }
    assert (c = a ∨ c = n) as [-> | ->] by (simpl in Hc; set_solver).
    { rewrite (reachable_leaf h3 a u va Ha3 Hla Hcu) in Hvu. simplify_eq.
      by apply partials_leaf. }
    destruct (reachable_cases h3 _ u vp Hp3 Hcu) as [->|(c & Hc' & Hcu')];
      [by simplify_eq|].
    assert (c = b) as -> by (simpl in Hc'; set_solver).
    rewrite (reachable_leaf h3 b u vb Hb3 Hlb Hcu') in Hvu. simplify_eq.
    by apply partials_leaf. }
  split; [done|].
  assert (∀ i v, h3 !! i = Some v → grad v = 0) as Hzero3.
  { intros i v Hi. unfold h3 in Hi.
    apply lookup_app_Some in Hi as [Hi|[_ Hi]]; [by eapply Hzero|].
    destruct (i - length h)%nat as [|[|?]]; simpl in Hi; by simplify_eq. }
  unfold o'.
  rewrite !(backward_computes_derivative iter h3 (S n) Hiter Hwf3) by (done || lia).
  rewrite !(derivative_mul h3 (S n) _ a n (S n) vm va vp Hwf3 Hm3 eq_refl)
    by (done || subst n; lia).
  rewrite (derivative_pow h3 n a b n (-1) (/ (data vb * data vb)) vp vb Hwf3 Hp3 eq_refl)
    by (done || (by apply R_pow_inverse_square) || subst n; lia).
  rewrite (derivative_pow h3 n b b n (-1) (/ (data vb * data vb)) vp vb Hwf3 Hp3 eq_refl)
    by (done || (by apply R_pow_inverse_square) || subst n; lia).
  rewrite (derivative_self h3 a), (derivative_self h3 b) by lia.
  rewrite (derivative_leaf h3 b a vb), (derivative_leaf h3 a b va) by done.
  simpl. split; field; done.
Qed.
End DerivedReal.

(** ** The other forms of the operators, and [tanh], over the reals *)

Section Forms.
Context {num : Type} `{!PyNum num}.

Lemma run_bind_alloc {A B} (m : M num A) (k : A → M num B) h a h1 :
  m h = mkOutcome (Ok a) h1 [] → (m ≫= k) h = k a h1.
Proof. intros Hm. rewrite run_bind, Hm. simpl. by destruct (k a h1). Qed.

Lemma data_of_new (h : heap num) (x y : Value num) :
  data_of (h ++ [x; y]) (S (length h)) = data y.
Proof.
  unfold data_of. rewrite lookup_app_r by lia.
  by replace (S (length h) - length h) with 1 by lia.
Qed.
End Forms.

Section FormsReal.
Local Open Scope R_scope.

(** X12 (over the reals): the value of the operators in their other forms.
    For a node [a] and a number [n]: [-a] has the value [- a.data], [a - n]
    the value [a.data - n], [n - a] the value [n - a.data], and for a
    divisor that is not zero [a / n] has the value [a.data / n] and [n / a]
    the value [n / a.data]. *)
Theorem derived_operator_values (h : heap R) (a : ref) va (n : R) :
  h !! a = Some va →
  (∃ r, res (__neg__ a h) = Ok r ∧
        data_of (final (__neg__ a h)) r = - data va) ∧
  (∃ r, res (__sub__ a (PyNumber n) h) = Ok r ∧
        data_of (final (__sub__ a (PyNumber n) h)) r = data va - n) ∧
  (∃ r, res (__rsub__ a n h) = Ok r ∧
        data_of (final (__rsub__ a n h)) r = n - data va) ∧
  (n ≠ 0 →
   ∃ r, res (__truediv__ a (PyNumber n) h) = Ok r ∧
        data_of (final (__truediv__ a (PyNumber n) h)) r = data va / n) ∧
  (data va ≠ 0 →
   ∃ r, res (__rtruediv__ a n h) = Ok r ∧
        data_of (final (__rtruediv__ a n h)) r = n / data va).
Proof.
  intros Ha. split_and!.
  - unfold __neg__. rewrite (run_mul_number a _ h va Ha). eexists. split; [done|].
    simpl. rewrite data_of_new. simpl. lra.
  - unfold __sub__, neg_obj. rewrite run_ret_bind.
    rewrite (run_add_number a _ h va Ha). eexists. split; [done|].
    simpl. rewrite data_of_new. simpl. lra.
  - unfold __rsub__, __neg__, __radd__.
    rewrite (run_bind_alloc _ _ _ _ _ (run_mul_number a _ h va Ha)).
    erewrite run_add_number.
    2:{ rewrite lookup_app_r by lia.
        by replace (S (length h) - length h)%nat with 1%nat by lia. }
    eexists. split; [done|]. simpl. rewrite data_of_new. simpl. lra.
  - intros Hn. unfold __truediv__, inv_obj.
    change (npow n (of_int (-1))) with (R_pow n (-1)).
    rewrite (R_pow_inverse n Hn).
    rewrite (run_bind_alloc _ _ h (PyNumber (/ n)) h) by reflexivity.
    rewrite (run_mul_number a _ h va Ha). eexists. split; [done|].
    simpl. rewrite data_of_new. simpl. lra.
  - intros Hnz. unfold __rtruediv__, __rmul__.
    assert (npow (data va) (of_int (-1)) = Ok (/ data va)) as Hinv
      by exact (R_pow_inverse _ Hnz).
    rewrite (run_bind_alloc _ _ _ _ _ (run_pow_number a _ h va _ Ha Hinv)).
    erewrite run_mul_number by (by apply list_lookup_middle).
    eexists. split; [done|]. simpl. rewrite data_of_new. simpl. lra.
Qed.

Lemma tanh_fun_tanh (y : R) : tanh_fun y = Rtrigo_def.tanh y.
Proof.
  unfold tanh_fun, Rtrigo_def.tanh, sinh, cosh.
  replace (2 * y) with (y + y) by lra. rewrite exp_plus, exp_Ropp.
  pose proof (exp_pos y). field. split; nra.
Qed.

Lemma tanh_fun_bounds (y : R) : -1 < tanh_fun y < 1.
Proof.
  unfold tanh_fun. pose proof (exp_pos (2 * y)) as He.
  set (e := Rtrigo_def.exp (2 * y)) in *.
  assert (0 < / (e + 1)) as Hi by (apply Rinv_0_lt_compat; lra).
  assert ((e - 1) / (e + 1) = 1 - 2 * / (e + 1)) as -> by (field; lra).
  assert (/ (e + 1) < 1).
  { rewrite <- Rinv_1 at 2. apply Rinv_lt_contravar; lra. }
  lra.
Qed.

(** X13 (over the reals): [a.tanh()] always returns, and the node it
    builds holds the hyperbolic tangent of [a.data], a value strictly
    between [-1] and [1]; [backward] from it (for a leaf [a]) returns and
    adds [1 - tanh(a.data) ** 2] to [a.grad]. *)
Theorem tanh_is_hyperbolic_tangent iter (h : heap R) (a : ref) va :
  order_valid iter → h !! a = Some va → is_leaf va →
  let o := tanh a h in
  let y := length h in
  let t := Rtrigo_def.tanh (data va) in
  res o = Ok y ∧ data_of (final o) y = t ∧ -1 < t < 1 ∧
  let o' := backward iter y (final o) in
  res o' = Ok tt ∧ gradf (final o') a = grad va + (1 - t * t).
Proof.
  intros Hiter Ha Hla o y t.
  pose proof (tanh_outcome iter h a va Hiter Ha Hla) as Hc.
  change (math_exp (nmul (of_int 2) (data va)))
    with (Ok (A := R) (Rtrigo_def.exp (2 * data va))) in Hc. cbv iota beta in Hc.
  change (ndiv ?x ?y) with (R_div x y) in Hc.
  change (nsub ?x (of_int 1)) with (x - 1) in Hc.
  change (nadd ?x (of_int 1)) with (x + 1) in Hc.
  rewrite forward_tanh_R, tanh_fun_tanh in Hc. fold t in Hc.
  destruct Hc as (Hres & Hd & Hb). fold o in Hres, Hd, Hb. fold y in Hd.
  split_and!; [done|done| | |].
  - unfold t. rewrite <- tanh_fun_tanh. apply tanh_fun_bounds.
  - unfold t. rewrite <- tanh_fun_tanh. apply tanh_fun_bounds.
  - destruct (Hb (t * t) (R_pow_square t)) as [Hr Hg]. split; [done|].
    etransitivity; [exact Hg|]. simpl. lra.
Qed.
End FormsReal.

(** * The network classes

    [Neuron], [Layer] and [MLP] hold references to [Value] objects and are
    not assigned to after construction: they are records of references.

    [random.uniform(-1, 1)] is taken as given: [rng i] is the number its
    [i]-th call returns, and a constructor that starts at call [k] returns,
    with the object it built, the index of the next call.

    Sizes ([nin], [nout], the entries of [nouts]) are natural numbers; for
    a negative [int] the [range] of the source is empty, as for zero.

    Iterating a [Value] raises [TypeError], which the engine itself never
    raises: the calls of the network classes return [TypeError] or the
    value returned, beside the exceptions of the engine. *)

Inductive raised (A : Type) : Type :=
  | Returns (a : A)
  | TypeError.
Arguments Returns {A} a.
Arguments TypeError {A}.

(** An argument [x] of a call: a list of numbers and nodes, or one node. *)
Inductive arg (num : Type) : Type :=
  | ArgList (xs : list (pyobj num))
  | ArgValue (r : ref).
Arguments ArgList {num} xs.
Arguments ArgValue {num} r.

(** Running [k] on what [m] returns, unless [m] raised [TypeError]. *)
Definition try_bind {num A B} (m : M num (raised A)) (k : A → M num (raised B))
  : M num (raised B) :=
  r ← m; match r with Returns a => k a | TypeError => mret TypeError end.

Module Neuron.
Section Neuron.
Context {num : Type} `{!PyNum num}.

Record t : Type := mk { w : list ref; b : ref; nonlin : bool }.

(** [[Value(random.uniform(-1, 1)) for _ in range(nin)]] *)
Fixpoint fresh_weights (rng : nat → num) (k nin : nat) : M num (list ref) :=
  match nin with
  | 0 => mret []
  | S n =>
      r ← __init__ (rng k) [] "";
      rs ← fresh_weights rng (S k) n;
      mret (r :: rs)
  end.

(** [Neuron(nin, nonlin)]; the [Value(...)] calls are the [__init__] of
    [Value]. *)
Definition __init__ (rng : nat → num) (k nin : nat) (nonlin : bool)
  : M num (t * nat) :=
  w ← fresh_weights rng k nin;
  b ← __init__ (of_int 0) [] "";
  mret (mk w b nonlin, k + nin).

(** [sum(items, start)] for the items [wi * xi] of the generator, each
    computed when the sum asks for it. *)
Fixpoint sum_products (acc : ref) (wx : list (ref * pyobj num)) : M num ref :=
  match wx with
  | [] => mret acc
  | (wi, xi) :: rest =>
      p ← __mul__ wi xi;
      s ← __add__ acc (PyValue p);
      sum_products s rest
  end.

Definition __call__ (self : t) (x : arg num) : M num (raised ref) :=
  match x with
  | ArgValue _ => mret TypeError
  | ArgList xs =>
      act ← sum_products (b self) (zip (w self) xs);
      out ← (if nonlin self then tanh act else mret act);
      mret (Returns out)
  end.

Definition parameters (self : t) : list ref := w self ++ [b self].
End Neuron.
Arguments t : clear implicits.
End Neuron.

Module Layer.
Section Layer.
Context {num : Type} `{!PyNum num}.

Record t : Type := mk { neurons : list Neuron.t }.

(** [[Neuron(nin, **kwargs) for _ in range(nout)]]; [kwargs] holds
    [nonlin] or nothing, and [nonlin] is [True] when it is not given. *)
Fixpoint fresh_neurons (rng : nat → num) (k nin nout : nat) (kwargs : option bool)
  : M num (list Neuron.t * nat) :=
  match nout with
  | 0 => mret ([], k)
  | S n =>
      '(x, k1) ← Neuron.__init__ rng k nin (default true kwargs);
      '(xs, k2) ← fresh_neurons rng k1 nin n kwargs;
      mret (x :: xs, k2)
  end.

Definition __init__ (rng : nat → num) (k nin nout : nat) (kwargs : option bool)
  : M num (t * nat) :=
  '(ns, k') ← fresh_neurons rng k nin nout kwargs;
  mret (mk ns, k').

(** [[n(x) for n in self.neurons]] *)
Fixpoint call_each (ns : list Neuron.t) (x : arg num) : M num (raised (list ref)) :=
  match ns with
  | [] => mret (Returns [])
  | n :: rest =>
      try_bind (Neuron.__call__ n x) (λ o,
      try_bind (call_each rest x) (λ os,
      mret (Returns (o :: os))))
  end.

Definition __call__ (self : t) (x : arg num) : M num (raised (arg num)) :=
  try_bind (call_each (neurons self) x) (λ out,
  mret (Returns (match out with
                 | [o] => ArgValue o
                 | _ => ArgList (PyValue <$> out)
                 end))).

Definition parameters (self : t) : list ref :=
  n ← neurons self; Neuron.parameters n.
End Layer.
Arguments t : clear implicits.
End Layer.

Module MLP.
Section MLP.
Context {num : Type} `{!PyNum num}.

Record t : Type := mk { layers : list Layer.t }.

(** [[Layer(sz[i], sz[i+1], nonlin=i!=len(nouts)-1) for i in ...]] *)
Fixpoint fresh_layers (rng : nat → num) (k : nat) (sz : list nat) (len : nat)
    (indices : list nat) : M num (list Layer.t * nat) :=
  match indices with
  | [] => mret ([], k)
  | i :: rest =>
      '(x, k1) ← Layer.__init__ rng k (sz !!! i) (sz !!! S i)
                   (Some (negb (i =? len - 1)));
      '(xs, k2) ← fresh_layers rng k1 sz len rest;
      mret (x :: xs, k2)
  end.

Definition __init__ (rng : nat → num) (k nin : nat) (nouts : list nat)
  : M num (t * nat) :=
  let sz := [nin] ++ nouts in
  '(ls, k') ← fresh_layers rng k sz (length nouts) (seq 0 (length nouts));
  mret (mk ls, k').

(** [for layer in self.layers: x = layer(x)] *)
Fixpoint through (ls : list Layer.t) (x : arg num) : M num (raised (arg num)) :=
  match ls with
  | [] => mret (Returns x)
  | l :: rest => try_bind (Layer.__call__ l x) (through rest)
  end.

Definition __call__ (self : t) (x : arg num) : M num (raised (arg num)) :=
  through (layers self) x.

Definition parameters (self : t) : list ref :=
  l ← layers self; Layer.parameters l.
End MLP.
Arguments t : clear implicits.
End MLP.

(** ** Construction: the parameters of a network *)

Section Construction.
Context {num : Type} `{!PyNum num}.
Variable rng : nat → num.

(** [Value(d)] as it sits in the store. *)
Definition fresh (d : num) : Value num := mkValue d (of_int 0) BNone ∅ "" "".

(** The values of the nodes a constructor allocates, in allocation order:
    for a neuron its weights, drawn in order, then its bias [0]. *)
Definition Neuron_values (k nin : nat) : list num :=
  (rng <$> seq k nin) ++ [of_int 0].

Fixpoint Layer_values (k nin nout : nat) : list num :=
  match nout with
  | 0 => []
  | S n => Neuron_values k nin ++ Layer_values (k + nin) nin n
  end.

Fixpoint MLP_values (k nin : nat) (nouts : list nat) : list num :=
  match nouts with
  | [] => []
  | n :: rest => Layer_values k nin n ++ MLP_values (k + n * nin) n rest
  end.

(** The number of parameters of [MLP(nin, nouts)]. *)
Fixpoint param_count (nin : nat) (nouts : list nat) : nat :=
  match nouts with
  | [] => 0
  | n :: rest => n * (nin + 1) + param_count n rest
  end.

(** The number of weights, which is the number of random draws. *)
Fixpoint weight_count (nin : nat) (nouts : list nat) : nat :=
  match nouts with
  | [] => 0
  | n :: rest => n * nin + weight_count n rest
  end.

Lemma run___init__ (d : num) (h : heap num) :
  __init__ d [] "" h = mkOutcome (Ok (length h)) (h ++ [fresh d]) [].
Proof. reflexivity. Qed.

Lemma run_fresh_weights (k nin : nat) (h : heap num) :
  Neuron.fresh_weights rng k nin h =
    mkOutcome (Ok (seq (length h) nin)) (h ++ (fresh <$> (rng <$> seq k nin))) [].
Proof.
  revert k h. induction nin as [|n IH]; intros k h; simpl.
  { by rewrite app_nil_r. }
  rewrite (run_bind_alloc _ _ _ _ _ (run___init__ (rng k) h)).
  rewrite (run_bind_alloc _ _ _ _ _ (IH (S k) (h ++ [fresh (rng k)]))).
  rewrite length_app, Nat.add_1_r, <- app_assoc. reflexivity.
Qed.

Lemma length_Neuron_values k nin : length (Neuron_values k nin) = nin + 1.
Proof. unfold Neuron_values. by rewrite length_app, length_fmap, length_seq. Qed.

Lemma length_Layer_values k nin nout :
  length (Layer_values k nin nout) = nout * (nin + 1).
Proof.
  revert k. induction nout as [|n IH]; intros k; simpl; [done|].
  by rewrite length_app, length_Neuron_values, IH.
Qed.

Lemma length_MLP_values k nin nouts :
  length (MLP_values k nin nouts) = param_count nin nouts.
Proof.
  revert k nin. induction nouts as [|n rest IH]; intros k nin; simpl; [done|].
  by rewrite length_app, length_Layer_values, IH.
Qed.

Lemma run_Neuron_init (k nin : nat) (nonlin : bool) (h : heap num) :
  Neuron.__init__ rng k nin nonlin h =
    mkOutcome
      (Ok (Neuron.mk (seq (length h) nin) (length h + nin) nonlin, k + nin))
      (h ++ (fresh <$> Neuron_values k nin)) [].
Proof.
  unfold Neuron.__init__.
  rewrite (run_bind_alloc _ _ _ _ _ (run_fresh_weights k nin h)).
  rewrite (run_bind_alloc _ _ _ _ _ (run___init__ _ _)).
  rewrite length_app, !length_fmap, length_seq.
  unfold Neuron_values. rewrite fmap_app, <- app_assoc. reflexivity.
Qed.

(** The shape of a layer: [nout] neurons of [nin] weights each, all with
    the same [nonlin]. *)
Definition Layer_shape (nin nout : nat) (nonlin : bool) (ns : list Neuron.t) : Prop :=
  length ns = nout ∧
  Forall (λ n, length (Neuron.w n) = nin ∧ Neuron.nonlin n = nonlin) ns.

Lemma run_fresh_neurons (k nin nout : nat) (kwargs : option bool) (h : heap num) :
  ∃ ns,
    Layer.fresh_neurons rng k nin nout kwargs h =
      mkOutcome (Ok (ns, k + nout * nin)) (h ++ (fresh <$> Layer_values k nin nout)) [] ∧
    ns ≫= Neuron.parameters = seq (length h) (nout * (nin + 1)) ∧
    Layer_shape nin nout (default true kwargs) ns.
Proof.
  revert k h. induction nout as [|n IH]; intros k h.
  { exists []. simpl. rewrite app_nil_r. split_and!; [by rewrite Nat.add_0_r|done|].
    by split. }
  destruct (IH (k + nin) (h ++ (fresh <$> Neuron_values k nin))) as (ns & Hrun & Hps & Hlen & Hall).
  eexists (_ :: ns). split_and!.
  - cbn [Layer.fresh_neurons].
    rewrite (run_bind_alloc _ _ _ _ _ (run_Neuron_init k nin _ h)). cbv beta iota.
    rewrite (run_bind_alloc _ _ _ _ _ Hrun). cbv beta iota.
    cbn [Layer_values]. rewrite fmap_app, <- app_assoc.
    replace (k + nin + n * nin) with (k + S n * nin) by lia. reflexivity.
  - cbn. rewrite Hps. unfold Neuron.parameters. cbn.
    rewrite length_app, length_fmap, length_Neuron_values.
    change [length h + nin] with (seq (length h + nin) 1).
    by rewrite <- !seq_app.
  - split; [cbn; by rewrite Hlen|]. constructor; [|done]. cbn.
    by rewrite length_seq.
Qed.

Lemma run_Layer_init (k nin nout : nat) (kwargs : option bool) (h : heap num) :
  ∃ l,
    Layer.__init__ rng k nin nout kwargs h =
      mkOutcome (Ok (l, k + nout * nin)) (h ++ (fresh <$> Layer_values k nin nout)) [] ∧
    Layer.parameters l = seq (length h) (nout * (nin + 1)) ∧
    Layer_shape nin nout (default true kwargs) (Layer.neurons l).
Proof.
  destruct (run_fresh_neurons k nin nout kwargs h) as (ns & Hrun & Hps & Hsh).
  exists (Layer.mk ns). split_and!; [|done|done].
  unfold Layer.__init__. by rewrite (run_bind_alloc _ _ _ _ _ Hrun).
Qed.

(** The shape of the layers from index [i] on: layer [i] has [sz[i+1]]
    neurons of [sz[i]] weights, and only the last layer is linear. *)
Definition layers_shape (sz : list nat) (len i : nat) (ls : list Layer.t) : Prop :=
  ∀ j l, ls !! j = Some l →
    Layer_shape (sz !!! (i + j)) (sz !!! S (i + j)) (negb (i + j =? len - 1))
      (Layer.neurons l).

Lemma run_fresh_layers (k nin : nat) (nouts : list nat) (sz : list nat) (len i : nat)
    (h : heap num) :
  sz !!! i = nin → (∀ j, j < length nouts → sz !!! S (i + j) = nouts !!! j) →
  ∃ ls,
    MLP.fresh_layers rng k sz len (seq i (length nouts)) h =
      mkOutcome (Ok (ls, k + weight_count nin nouts))
        (h ++ (fresh <$> MLP_values k nin nouts)) [] ∧
    ls ≫= Layer.parameters = seq (length h) (param_count nin nouts) ∧
    length ls = length nouts ∧ layers_shape sz len i ls.
Proof.
  revert k nin i h. induction nouts as [|n rest IH]; intros k nin i h Hi Hsz.
  { exists []. simpl. rewrite app_nil_r, Nat.add_0_r. by split_and!. }
  assert (sz !!! S i = n) as Hn.
  { specialize (Hsz 0). rewrite Nat.add_0_r in Hsz. apply Hsz. simpl. lia. }
  destruct (run_Layer_init k nin n (Some (negb (i =? len - 1))) h)
    as (l & Hrun & Hps & Hsh).
  destruct (IH (k + n * nin) n (S i) (h ++ (fresh <$> Layer_values k nin n)))
    as (ls & Hrun' & Hps' & Hlen & Hsh'); [done| |].
  { intros j Hj. specialize (Hsz (S j)). simpl in Hsz.
    replace (S i + j) with (i + S j) by lia. apply Hsz. lia. }
  exists (l :: ls). split_and!.
  - cbn [length seq MLP.fresh_layers]. rewrite Hi, Hn.
    rewrite (run_bind_alloc _ _ _ _ _ Hrun). cbv beta iota.
    rewrite (run_bind_alloc _ _ _ _ _ Hrun'). cbv beta iota.
    cbn [MLP_values weight_count]. rewrite fmap_app, <- app_assoc.
    replace (k + n * nin + weight_count n rest) with (k + (n * nin + weight_count n rest))
      by lia. reflexivity.
  - cbn. rewrite Hps, Hps'.
    rewrite length_app, length_fmap, length_Layer_values.
    by rewrite <- seq_app.
  - cbn. by rewrite Hlen.
  - intros [|j] l' Hj; simpl in Hj.
    + assert (l' = l) as -> by congruence.
      rewrite Nat.add_0_r, Hi, Hn. exact Hsh.
    + replace (i + S j) with (S i + j) by lia. by apply Hsh'.
Qed.

Lemma run_MLP_init (k nin : nat) (nouts : list nat) (h : heap num) :
  ∃ m,
    MLP.__init__ rng k nin nouts h =
      mkOutcome (Ok (m, k + weight_count nin nouts))
        (h ++ (fresh <$> MLP_values k nin nouts)) [] ∧
    MLP.parameters m = seq (length h) (param_count nin nouts) ∧
    length (MLP.layers m) = length nouts ∧
    layers_shape ([nin] ++ nouts) (length nouts) 0 (MLP.layers m).
Proof.
  destruct (run_fresh_layers k nin nouts ([nin] ++ nouts) (length nouts) 0 h)
    as (ls & Hrun & Hps & Hlen & Hsh); [done|done|].
  exists (MLP.mk ls). split_and!; [|done|done|done].
  unfold MLP.__init__. cbv zeta. by rewrite (run_bind_alloc _ _ _ _ _ Hrun).
Qed.

(** X14: [MLP(nin, nouts)] never raises.  It allocates one leaf [Value(d)]
    for each parameter and nothing else: for each neuron its weights, drawn
    from the random source in order, then its bias [0].  [parameters()]
    lists exactly the nodes allocated, in the order of allocation, so no
    node twice; their number is the sum over the layers of
    [nout * (nin + 1)]. *)
Theorem MLP_parameters_fresh (k nin : nat) (nouts : list nat) (h : heap num) :
  ∃ m,
    MLP.__init__ rng k nin nouts h =
      mkOutcome (Ok (m, k + weight_count nin nouts))
        (h ++ (fresh <$> MLP_values k nin nouts)) [] ∧
    MLP.parameters m = seq (length h) (param_count nin nouts) ∧
    length (MLP_values k nin nouts) = param_count nin nouts.
Proof.
  destruct (run_MLP_init k nin nouts h) as (m & Hrun & Hps & _).
  exists m. split_and!; [done|done|apply length_MLP_values].
Qed.

(** X15: the shape of [MLP(nin, nouts)].  It has one layer for each entry
    of [nouts]; layer [i] has [nouts[i]] neurons, each with as many weights
    as the layer has inputs ([nin] for the first layer, [nouts[i-1]] after
    it); the neurons of the last layer are linear and all others apply
    [tanh]. *)
Theorem MLP_shape (k nin : nat) (nouts : list nat) (h : heap num) m k' :
  res (MLP.__init__ rng k nin nouts h) = Ok (m, k') →
  length (MLP.layers m) = length nouts ∧
  ∀ i l, MLP.layers m !! i = Some l →
    length (Layer.neurons l) = nouts !!! i ∧
    Forall (λ n, length (Neuron.w n) = (nin :: nouts) !!! i ∧
                 Neuron.nonlin n = negb (i =? length nouts - 1))
      (Layer.neurons l).
Proof.
  destruct (run_MLP_init k nin nouts h) as (m' & Hrun & _ & Hlen & Hsh).
  rewrite Hrun. intros [= <- <-]. split; [done|].
  intros i l Hi. destruct (Hsh i l Hi) as [H1 H2]. simpl in H1, H2. by split.
Qed.

(** A store of fresh leaves, such as the parameters of a network built in
    the empty store. *)
Lemma heap_wf_fresh (ds : list num) : heap_wf (fresh <$> ds).
Proof.
  intros i v Hi. rewrite list_lookup_fmap in Hi.
  destruct (ds !! i); simpl in Hi; [|done]. injection Hi as <-.
  apply node_wf_leaf.
Qed.

Lemma fresh_lookup (ds : list num) i v :
  (fresh <$> ds) !! i = Some v → grad v = of_int 0 ∧ is_leaf v.
Proof.
  intros Hi. rewrite list_lookup_fmap in Hi.
  destruct (ds !! i); simpl in Hi; [|done]. by injection Hi as <-.
Qed.
End Construction.

(** ** Calling a network *)

Section Calls.
Context {num : Type} `{!PyNum num}.

Lemma res_try_bind {A B} (m : M num (raised A)) (k : A → M num (raised B)) h :
  res (try_bind m k h) =
    match res (m h) with
    | Ok (Returns a) => res (k a (final (m h)))
    | Ok TypeError => Ok TypeError
    | Raise e => Raise e
    end.
Proof.
  unfold try_bind. rewrite run_bind. by destruct (res (m h)) as [[a|]|e].
Qed.

Lemma try_bind_Returns {A B} (m : M num (raised A)) (k : A → M num (raised B)) h b :
  res (try_bind m k h) = Ok (Returns b) →
  ∃ a, res (m h) = Ok (Returns a) ∧ res (k a (final (m h))) = Ok (Returns b).
Proof.
  unfold try_bind. rewrite run_bind.
  destruct (res (m h)) as [[a|]|e]; simpl; [|done..]. intros Hk. by exists a.
Qed.

Lemma try_bind_TypeError {A B} (m : M num (raised A)) (k : A → M num (raised B)) h :
  res (m h) = Ok TypeError → res (try_bind m k h) = Ok TypeError.
Proof. intros Hm. unfold try_bind. rewrite run_bind, Hm. done. Qed.

Lemma call_each_length (ns : list Neuron.t) (x : arg num) h os :
  res (Layer.call_each ns x h) = Ok (Returns os) → length os = length ns.
Proof.
  revert h os. induction ns as [|n ns IH]; intros h os; simpl.
  { by intros [= <-]. }
  intros (o & _ & Hrest)%try_bind_Returns.
  apply try_bind_Returns in Hrest as (os' & Hos' & Hret).
  simpl in Hret. injection Hret as <-. simpl. f_equal. by eapply IH.
Qed.

Lemma Layer_call_shape_aux (l : Layer.t) (x : arg num) (h : heap num) y :
  res (Layer.__call__ l x h) = Ok (Returns y) →
  (length (Layer.neurons l) = 1 → ∃ o, y = ArgValue o) ∧
  (length (Layer.neurons l) ≠ 1 →
   ∃ os, y = ArgList (PyValue <$> os) ∧ length os = length (Layer.neurons l)) ∧
  (Layer.neurons l = [] →
   Layer.__call__ l x h = mkOutcome (Ok (Returns (ArgList []))) h []).
Proof.
  unfold Layer.__call__. intros (out & Hout & Hret)%try_bind_Returns.
  apply call_each_length in Hout. simpl in Hret. injection Hret as <-.
  rewrite <- Hout. split_and!.
  - intros Hlen. destruct out as [|o [|??]]; try done. by exists o.
  - intros Hlen. exists out. split; [|done]. by destruct out as [|o [|??]].
  - intros Hns. by rewrite Hns.
Qed.

(** The neurons [ns] called on [x] one after the other, each on the store
    the call before it left: every call returned a node, [outs] are those
    nodes in the order of the neurons, and [h'] is the store after the
    last call. *)
Inductive calls (x : arg num) : list Neuron.t → heap num → list ref → heap num → Prop :=
  | calls_nil h : calls x [] h [] h
  | calls_cons n ns h o outs h' :
      res (Neuron.__call__ n x h) = Ok (Returns o) →
      calls x ns (final (Neuron.__call__ n x h)) outs h' →
      calls x (n :: ns) h (o :: outs) h'.

Lemma final_try_bind {A B} (m : M num (raised A)) (k : A → M num (raised B)) h :
  final (try_bind m k h) =
    match res (m h) with
    | Ok (Returns a) => final (k a (final (m h)))
    | _ => final (m h)
    end.
Proof.
  unfold try_bind. rewrite run_bind. by destruct (res (m h)) as [[a|]|e].
Qed.

Lemma call_each_calls (ns : list Neuron.t) (x : arg num) h outs :
  res (Layer.call_each ns x h) = Ok (Returns outs) →
  calls x ns h outs (final (Layer.call_each ns x h)).
Proof.
  revert h outs. induction ns as [|n ns IH]; intros h outs; simpl.
  { intros [= <-]. constructor. }
  intros Hres. rewrite final_try_bind.
  apply try_bind_Returns in Hres as (o & Ho & Hrest). rewrite Ho.
  rewrite final_try_bind.
  apply try_bind_Returns in Hrest as (os & Hos & Hret). rewrite Hos.
  simpl in Hret. injection Hret as <-. simpl.
  constructor; [done|]. by apply IH.
Qed.

Lemma calls_length (x : arg num) ns h outs h' :
  calls x ns h outs h' → length outs = length ns.
Proof. induction 1; simpl; by f_equal. Qed.

Lemma calls_call_each (x : arg num) ns h outs h' :
  calls x ns h outs h' →
  res (Layer.call_each ns x h) = Ok (Returns outs) ∧
  final (Layer.call_each ns x h) = h'.
Proof.
  induction 1 as [h|n ns h o outs h' Ho _ [IHres IHfin]]; simpl; [done|].
  rewrite res_try_bind, final_try_bind, Ho, res_try_bind, final_try_bind, IHres.
  done.
Qed.

(** X16: what a layer returns.  Its neurons are called on [x] one after
    the other, each on the store the call before it left.  When every one
    of these calls returns a node, the call of the layer returns: the node
    itself, not a list, when there is exactly one, and otherwise the list
    of the nodes in the order of the neurons; and it leaves the store the
    last neuron left.  A call of a layer returns in no other way: what it
    returns is what its neurons returned.  A layer without neurons
    returns the empty list and leaves the store as it was. *)
Theorem Layer_call_shape (l : Layer.t) (x : arg num) (h : heap num) :
  (∀ outs h', calls x (Layer.neurons l) h outs h' →
     res (Layer.__call__ l x h) =
       Ok (Returns (match outs with
                    | [o] => ArgValue o
                    | _ => ArgList (PyValue <$> outs)
                    end)) ∧
     final (Layer.__call__ l x h) = h') ∧
  (∀ y, res (Layer.__call__ l x h) = Ok (Returns y) →
     ∃ outs,
       calls x (Layer.neurons l) h outs (final (Layer.__call__ l x h)) ∧
       (∀ n, Layer.neurons l = [n] →
          ∃ o, res (Neuron.__call__ n x h) = Ok (Returns o) ∧ y = ArgValue o ∧
               final (Layer.__call__ l x h) = final (Neuron.__call__ n x h)) ∧
       (length (Layer.neurons l) = 1 → ∃ o, outs = [o] ∧ y = ArgValue o) ∧
       (length (Layer.neurons l) ≠ 1 →
          y = ArgList (PyValue <$> outs) ∧
          length outs = length (Layer.neurons l))) ∧
  (Layer.neurons l = [] →
     Layer.__call__ l x h = mkOutcome (Ok (Returns (ArgList []))) h []).
Proof.
  split_and!.
  - intros outs h' [Hres Hfin]%calls_call_each. unfold Layer.__call__.
    by rewrite res_try_bind, final_try_bind, Hres.
  - unfold Layer.__call__. intros y Hres. rewrite final_try_bind.
    apply try_bind_Returns in Hres as (outs & Houts & Hret). rewrite Houts.
    simpl in Hret. injection Hret as <-. simpl.
    pose proof (call_each_calls _ _ _ _ Houts) as Hcalls.
    pose proof (calls_length _ _ _ _ _ Hcalls) as Hlen.
    exists outs. split_and!.
    + done.
    + intros n Hn. rewrite Hn in *.
      inversion Hcalls as [|n' ns' h0 o outs' h' Ho Hrest]; subst.
      inversion Hrest as [h0 Hh0 Hns Houts' Hfin|]; subst.
      exists o. by split_and!.
    + intros H1. rewrite <- Hlen in H1. destruct outs as [|o [|??]]; try done.
      by exists o.
    + intros H1. split; [|done]. rewrite <- Hlen in H1.
      by destruct outs as [|o [|??]].
  - intros Hns. unfold Layer.__call__. by rewrite Hns.
Qed.
Lemma through_narrow (pre : list Layer.t) (l1 l2 : Layer.t) post (x : arg num) h :
  length (Layer.neurons l1) = 1 → Layer.neurons l2 ≠ [] →
  res (MLP.through (pre ++ l1 :: l2 :: post) x h) = Ok TypeError ∨
  ∃ e, res (MLP.through (pre ++ l1 :: l2 :: post) x h) = Raise e.
Proof.
  intros H1 H2. revert x h. induction pre as [|l pre IH]; intros x h.
  - cbn [app MLP.through]. rewrite res_try_bind.
    destruct (res (Layer.__call__ l1 x h)) as [[y|]|e] eqn:Hy; [|by left|right; by eexists].
    destruct (proj1 (Layer_call_shape_aux l1 x h y Hy) H1) as [o ->].
    left. apply try_bind_TypeError. unfold Layer.__call__.
    apply try_bind_TypeError.
    by destruct (Layer.neurons l2) as [|n ns].
  - cbn [app MLP.through]. rewrite res_try_bind.
    destruct (res (Layer.__call__ l x h)) as [[y|]|e]; [|by left|right; by eexists].
    apply IH.
Qed.

(** X17: a network with a hidden layer of one neuron cannot be called.
    That layer hands a single node, not a list, to the layer after it,
    whose first neuron iterates it: the call raises [TypeError], unless an
    operation of an earlier layer raised before. *)
Theorem MLP_narrow_hidden_layer (m : MLP.t) (pre : list Layer.t) (l1 l2 : Layer.t) post
    (x : arg num) (h : heap num) :
  MLP.layers m = pre ++ l1 :: l2 :: post →
  length (Layer.neurons l1) = 1 → Layer.neurons l2 ≠ [] →
  res (MLP.__call__ m x h) = Ok TypeError ∨
  ∃ e, res (MLP.__call__ m x h) = Raise e.
Proof.
  intros Hm H1 H2. unfold MLP.__call__. rewrite Hm. by apply through_narrow.
Qed.
End Calls.

(** ** What a neuron computes *)

Section NeuronValue.
Context {num : Type} `{!PyNum num}.

(** The number an argument of an operator stands for. *)
Definition value_of (h : heap num) (x : pyobj num) : num :=
  match x with PyValue r => data_of h r | PyNumber n => n end.

Definition in_store (h : heap num) (x : pyobj num) : Prop :=
  match x with PyValue r => r < length h | PyNumber _ => True end.

(** [b + w0 * x0 + w1 * x1 + ...], added from left to right, over the
    pairs of [zip(w, x)]. *)
Definition weighted_sum (h : heap num) (n : Neuron.t) (xs : list (pyobj num)) : num :=
  foldl (λ acc wx, nadd acc (nmul (data_of h wx.1) (value_of h wx.2)))
    (data_of h (Neuron.b n)) (zip (Neuron.w n) xs).

(** One round of the sum, for a number [x]: the nodes [Value(x)],
    [w * x] and [acc + w * x]. *)
Lemma sum_products_number (acc w : ref) (x : num) rest (h : heap num) :
  acc < length h → w < length h →
  let n := length h in
  Neuron.sum_products acc ((w, PyNumber x) :: rest) h =
    Neuron.sum_products (S (S n)) rest
      (h ++ [fresh x;
             mkValue (nmul (data_of h w) x) (of_int 0) (BMul w n (S n))
               (list_to_set [w; n]) "*" "";
             mkValue (nadd (data_of h acc) (nmul (data_of h w) x)) (of_int 0)
               (BAdd acc (S n) (S (S n))) (list_to_set [acc; S n]) "+" ""]).
Proof.
  intros Hacc Hw n.
  destruct (lookup_lt_is_Some_2 h acc Hacc) as [va Ha].
  destruct (lookup_lt_is_Some_2 h w Hw) as [vw Hvw].
  cbn [Neuron.sum_products].
  rewrite (run_bind_alloc _ _ _ _ _ (run_mul_number w x h vw Hvw)).
  set (h2 := h ++ [_; _]).
  assert (h2 !! acc = Some va) as Ha2 by (by apply lookup_app_l_Some).
  assert (h2 !! S n = Some
            (mkValue (nmul (data vw) x) (of_int 0) (BMul w n (S n))
               (list_to_set [w; n]) "*" "")) as Hp2.
  { unfold h2. rewrite lookup_app_r by (subst n; lia).
    by replace (S n - length h) with 1 by (subst n; lia). }
  rewrite (run_bind_alloc _ _ _ _ _ (run_add acc (S n) h2 va _ Ha2 Hp2)).
  assert (length h2 = S (S n)) as ->.
  { unfold h2. rewrite length_app. simpl. subst n. lia. }
  unfold h2. rewrite <- app_assoc. simpl.
  rewrite (data_of_lookup h acc va Ha), (data_of_lookup h w vw Hvw). done.
Qed.

(** One round of the sum, for a node [x]: the nodes [w * x] and
    [acc + w * x]. *)
Lemma sum_products_node (acc w x : ref) rest (h : heap num) :
  acc < length h → w < length h → x < length h →
  let n := length h in
  Neuron.sum_products acc ((w, PyValue x) :: rest) h =
    Neuron.sum_products (S n) rest
      (h ++ [mkValue (nmul (data_of h w) (data_of h x)) (of_int 0) (BMul w x n)
               (list_to_set [w; x]) "*" "";
             mkValue (nadd (data_of h acc) (nmul (data_of h w) (data_of h x)))
               (of_int 0) (BAdd acc n (S n)) (list_to_set [acc; n]) "+" ""]).
Proof.
  intros Hacc Hw Hx n.
  destruct (lookup_lt_is_Some_2 h acc Hacc) as [va Ha].
  destruct (lookup_lt_is_Some_2 h w Hw) as [vw Hvw].
  destruct (lookup_lt_is_Some_2 h x Hx) as [vx Hvx].
  cbn [Neuron.sum_products].
  rewrite (run_bind_alloc _ _ _ _ _ (run_mul w x h vw vx Hvw Hvx)).
  set (h2 := h ++ [_]).
  assert (h2 !! acc = Some va) as Ha2 by (by apply lookup_app_l_Some).
  assert (h2 !! n = Some
            (mkValue (nmul (data vw) (data vx)) (of_int 0) (BMul w x n)
               (list_to_set [w; x]) "*" "")) as Hp2
    by (by apply list_lookup_middle).
  rewrite (run_bind_alloc _ _ _ _ _ (run_add acc n h2 va _ Ha2 Hp2)).
  assert (length h2 = S n) as ->.
  { unfold h2. rewrite length_app. simpl. subst n. lia. }
  unfold h2. rewrite <- app_assoc. simpl.
  rewrite (data_of_lookup h acc va Ha), (data_of_lookup h w vw Hvw),
    (data_of_lookup h x vx Hvx). done.
Qed.

Lemma value_of_app_l (h k : heap num) x :
  in_store h x → value_of (h ++ k) x = value_of h x.
Proof. destruct x as [r|n]; simpl; [apply data_of_app_l|done]. Qed.

Lemma in_store_app (h k : heap num) x : in_store h x → in_store (h ++ k) x.
Proof. destruct x as [r|n]; simpl; [|done]. rewrite length_app. lia. Qed.

Lemma foldl_weighted_app (h k : heap num) (wx : list (ref * pyobj num)) (a : num) :
  Forall (λ p, p.1 < length h ∧ in_store h p.2) wx →
  foldl (λ a p, nadd a (nmul (data_of (h ++ k) p.1) (value_of (h ++ k) p.2))) a wx =
    foldl (λ a p, nadd a (nmul (data_of h p.1) (value_of h p.2))) a wx.
Proof.
  intros Hwx. revert a. induction Hwx as [|p wx [H1 H2] _ IH]; intros a; [done|].
  simpl. by rewrite IH, data_of_app_l, value_of_app_l.
Qed.

Lemma sum_products_value (wx : list (ref * pyobj num)) :
  ∀ (h : heap num) (acc : ref),
    acc < length h → Forall (λ p, p.1 < length h ∧ in_store h p.2) wx →
    ∃ new r,
      Neuron.sum_products acc wx h = mkOutcome (Ok r) (h ++ new) [] ∧
      r < length (h ++ new) ∧
      data_of (h ++ new) r =
        foldl (λ a p, nadd a (nmul (data_of h p.1) (value_of h p.2)))
          (data_of h acc) wx.
Proof.
  induction wx as [|[w x] rest IH]; intros h acc Hacc Hwx.
  { exists [], acc. rewrite app_nil_r. by split_and!. }
  apply Forall_cons in Hwx as [[Hw Hx] Hrest]. simpl in Hw, Hx.
  assert (∀ k, Forall (λ p : ref * pyobj num,
                 p.1 < length (h ++ k) ∧ in_store (h ++ k) p.2) rest) as Hrest'.
  { intros k. eapply Forall_impl; [exact Hrest|]. intros p [H1 H2].
    split; [rewrite length_app; lia|by apply in_store_app]. }
  destruct x as [x|x].
  - rewrite (sum_products_node acc w x rest h Hacc Hw Hx). cbv zeta.
    match goal with |- context [h ++ ?k] => set (k2 := k); set (h3 := h ++ k2) end.
    destruct (IH h3 (S (length h))) as (new & r & Hrun & Hr & Hd).
    { unfold h3. rewrite length_app. simpl. lia. }
    { apply Hrest'. }
    exists (k2 ++ new), r. rewrite app_assoc. fold h3.
    split_and!; [done|done|]. rewrite Hd. unfold h3. rewrite (foldl_weighted_app h k2 rest _ Hrest).
    simpl. f_equal. unfold k2, data_of. rewrite lookup_app_r by lia.
    by replace (S (length h) - length h) with 1 by lia.
  - rewrite (sum_products_number acc w x rest h Hacc Hw). cbv zeta.
    match goal with |- context [h ++ ?k] => set (k2 := k); set (h3 := h ++ k2) end.
    destruct (IH h3 (S (S (length h)))) as (new & r & Hrun & Hr & Hd).
    { unfold h3. rewrite length_app. simpl. lia. }
    { apply Hrest'. }
    exists (k2 ++ new), r. rewrite app_assoc. fold h3.
    split_and!; [done|done|]. rewrite Hd. unfold h3. rewrite (foldl_weighted_app h k2 rest _ Hrest).
    simpl. f_equal. unfold k2, data_of. rewrite lookup_app_r by lia.
    by replace (S (S (length h)) - length h) with 2 by lia.
Qed.

(** X18: what a neuron computes.  Called on a list [x], a neuron builds
    the node [act] whose value is [b + w0 * x0 + w1 * x1 + ...], the terms
    added from left to right, and returns [act.tanh()], or [act] itself
    when it is linear.  The terms are those of [zip(w, x)]: when [x] and
    [w] differ in length the longer one is cut, without an error. *)
Theorem Neuron_call_value (n : Neuron.t) (xs : list (pyobj num)) (h : heap num) :
  Neuron.b n < length h → Forall (λ w, w < length h) (Neuron.w n) →
  Forall (in_store h) xs →
  ∃ new act,
    act < length (h ++ new) ∧
    data_of (h ++ new) act = weighted_sum h n xs ∧
    Neuron.__call__ n (ArgList xs) h =
      (out ← (if Neuron.nonlin n then tanh act else mret act);
       mret (Returns out)) (h ++ new) ∧
    (Neuron.nonlin n = false →
     Neuron.__call__ n (ArgList xs) h = mkOutcome (Ok (Returns act)) (h ++ new) []).
Proof.
  intros Hb Hw Hxs.
  destruct (sum_products_value (zip (Neuron.w n) xs) h (Neuron.b n) Hb)
    as (new & act & Hrun & Hact & Hd).
  { apply Forall_forall. intros [w x] Hin. simpl.
    apply elem_of_zip_l in Hin as Hl. apply elem_of_zip_r in Hin as Hr.
    simpl in Hl, Hr. split.
    - by eapply Forall_forall in Hw.
    - by eapply Forall_forall in Hxs. }
  exists new, act. split_and!; [done|done| |].
  - unfold Neuron.__call__. by rewrite (run_bind_alloc _ _ _ _ _ Hrun).
  - intros Hlin. unfold Neuron.__call__.
    rewrite (run_bind_alloc _ _ _ _ _ Hrun), Hlin. reflexivity.
Qed.
End NeuronValue.

(** ** The gradients of a linear neuron *)

Section Extension.
Context {num : Type} `{!PyNum num}.

Lemma heap_wf_app_l (h k : heap num) : heap_wf (h ++ k) → heap_wf h.
Proof. intros Hwf i v Hi. apply (Hwf i v). by apply lookup_app_l_Some. Qed.

Lemma get_data_app_l (h k : heap num) r :
  r < length h → get_data (h ++ k) r = get_data h r.
Proof. intros Hr. unfold get_data. by rewrite lookup_app_l. Qed.

Lemma partials_app_l (h k : heap num) (c : closure num) :
  (∀ r, r ∈ operands c → r < length h) →
  (∀ out, captured_out c = Some out → out < length h) →
  partials (h ++ k) c = partials h c.
Proof.
  intros Hops Hout. destruct c; simpl in *;
    rewrite ?get_data_app_l by (first [by apply Hout | apply Hops; set_solver]);
    done.
Qed.

Lemma node_operands_lt (h : heap num) u vu r :
  heap_wf h → h !! u = Some vu → r ∈ operands (_backward vu) → r < u.
Proof.
  intros Hwf Hu Hr. destruct (Hwf u vu Hu) as (Hm & _ & Hlt).
  apply Hlt. rewrite Hm. by apply elem_of_list_to_set.
Qed.

Lemma tangent_app_l (h k : heap num) v :
  heap_wf (h ++ k) →
  ∀ f u, u < length h → tangent f (h ++ k) v u = tangent f h v u.
Proof.
  intros Hwf f. induction f as [|f IH]; intros u Hu; [done|]. simpl.
  case_decide; [done|]. rewrite lookup_app_l by done.
  destruct (h !! u) as [vu|] eqn:Hvu; [|done].
  assert ((h ++ k) !! u = Some vu) as Hvu' by (by apply lookup_app_l_Some).
  rewrite partials_app_l.
  - destruct (partials h (_backward vu)) as [ps|] eqn:Hps; [|done].
    apply foldr_tangent_ext. intros p Hp. apply IH.
    assert (p.1 ∈ operands (_backward vu)) as Hop.
    { rewrite <- (partials_targets h _ ps Hps). apply list_elem_of_fmap. by exists p. }
    pose proof (node_operands_lt _ u vu p.1 Hwf Hvu' Hop). lia.
  - intros r Hr. pose proof (node_operands_lt _ u vu r Hwf Hvu' Hr). lia.
  - intros out Hout. destruct (Hwf u vu Hvu') as (_ & Ho & _).
    by rewrite (Ho out Hout).
Qed.

Lemma derivative_app_l (h k : heap num) (u v : ref) :
  heap_wf (h ++ k) → u < length h →
  derivative (h ++ k) u v = derivative h u v.
Proof.
  intros Hwf Hu. unfold derivative.
  rewrite (tangent_fuel (h ++ k) v Hwf (length (h ++ k)) (length h) u)
    by (rewrite ?length_app; lia).
  by apply tangent_app_l.
Qed.

Lemma reachable_app_l (h k : heap num) (a u : ref) :
  arena_ordered (h ++ k) → a < length h →
  reachable (h ++ k) a u → reachable h a u.
Proof.
  intros Hord Ha Hr. unfold reachable in *.
  induction Hr as [|x y z Hxy _ IH]; [done|].
  pose proof (arena_ordered_operand _ _ _ Hord Hxy) as Hlt.
  destruct Hxy as (vr & Hx & Hy). rewrite lookup_app_l in Hx by done.
  eapply rtc_l; [by exists vr|]. apply IH. lia.
Qed.

(** The rules of a leaf, a sum and a product: they cannot raise. *)
Definition mild (c : closure num) : Prop :=
  match c with
  | BNone | BAdd _ _ _ | BMul _ _ _ => True
  | _ => False
  end.

Lemma node_wf_at (i : ref) (d : num) (c : closure num) cs op :
  operands c = cs → captured_out c = Some i → Forall (λ r, r < i) cs →
  node_wf i (mkValue d (of_int 0) c (list_to_set cs) op "").
Proof.
  intros Hops Hout Hcs. split_and!; simpl.
  - unfold rule_matches. simpl. by rewrite Hops.
  - intros out Ho. congruence.
  - intros r Hr. apply elem_of_list_to_set in Hr. by eapply Forall_forall in Hcs.
Qed.

Lemma partials_mild (h : heap num) u vu :
  heap_wf h → h !! u = Some vu → mild (_backward vu) →
  is_Ok (partials h (_backward vu)).
Proof.
  intros Hwf Hu Hm.
  assert (∀ r, r ∈ operands (_backward vu) → is_Some (h !! r)) as Hops.
  { intros r Hr. apply lookup_lt_is_Some_2.
    pose proof (node_operands_lt h u vu r Hwf Hu Hr).
    apply lookup_lt_Some in Hu. lia. }
  destruct (_backward vu) as [|s o out|s o out| | | |]; simpl in *; try done.
  unfold get_data.
  destruct (Hops o) as [vo ->]; [set_solver|].
  destruct (Hops s) as [vs ->]; [set_solver|]. done.
Qed.

Lemma zip_fmap_number (ws : list ref) (xs : list num) :
  zip ws (PyNumber <$> xs) = prod_map (λ w : nat, w) PyNumber <$> zip ws xs.
Proof.
  revert xs. induction ws as [|w ws IH]; intros [|x xs]; simpl; [done..|].
  by rewrite IH.
Qed.
End Extension.

Section LinearNeuron.
Context {num : Type} `{!PyNum num} `{!ExactArith num}.
Add Ring num_ring_neuron : exact_semiring.

(** The sum of a neuron over numbers: the store it leaves, what its result
    is built from, and the derivative of the result by a node of the store
    at entry. *)
Lemma sum_products_numbers (wx : list (ref * num)) :
  ∀ (h : heap num) (acc : ref),
    heap_wf h → acc < length h → Forall (λ p, p.1 < length h) wx →
    ∃ new r,
      Neuron.sum_products acc (prod_map (λ w : nat, w) PyNumber <$> wx) h =
        mkOutcome (Ok r) (h ++ new) [] ∧
      r < length (h ++ new) ∧ heap_wf (h ++ new) ∧
      Forall (λ v, grad v = of_int 0 ∧ mild (_backward v)) new ∧
      (∀ u, reachable (h ++ new) r u →
         length h ≤ u ∨ reachable h acc u ∨ ∃ p, p ∈ wx ∧ reachable h p.1 u) ∧
      ∀ v, v < length h →
        derivative (h ++ new) r v =
          foldl (λ a p, nadd a (nmul p.2 (derivative h p.1 v)))
            (derivative h acc v) wx.
Proof.
  induction wx as [|[w x] rest IH]; intros h acc Hwf Hacc Hwx.
  { exists [], acc. rewrite app_nil_r. split_and!; try done. intros u Hu. auto. }
  apply Forall_cons in Hwx as [Hw Hrest]. simpl in Hw.
  cbn [fmap list_fmap prod_map fst snd].
  rewrite (sum_products_number acc w x _ h Hacc Hw). cbv zeta.
  set (n := length h).
  set (vc := fresh x).
  set (vp := mkValue (nmul (data_of h w) x) (of_int 0) (BMul w n (S n))
               (list_to_set [w; n]) "*" "").
  set (vs := mkValue (nadd (data_of h acc) (nmul (data_of h w) x)) (of_int 0)
               (BAdd acc (S n) (S (S n))) (list_to_set [acc; S n]) "+" "").
  set (h3 := h ++ [vc; vp; vs]).
  assert (h3 = ((h ++ [vc]) ++ [vp]) ++ [vs]) as Hh3
    by (unfold h3; by rewrite <- !app_assoc).
  assert (length h3 = S (S (S n))) as Hlen3.
  { unfold h3. rewrite length_app. simpl. subst n. lia. }
  assert (heap_wf h3) as Hwf3.
  { rewrite Hh3. apply heap_wf_snoc; [apply heap_wf_snoc; [apply heap_wf_snoc|]|].
    - done.
    - apply node_wf_leaf.
    - replace (length (h ++ [vc])) with (S n)
        by (rewrite length_app; simpl; subst n; lia).
      apply node_wf_at; [done|done|]. repeat constructor; subst n; lia.
    - replace (length ((h ++ [vc]) ++ [vp])) with (S (S n))
        by (rewrite !length_app; simpl; subst n; lia).
      apply node_wf_at; [done|done|]. repeat constructor; subst n; lia. }
  assert (∀ j v, [vc; vp; vs] !! j = Some v → h3 !! (n + j) = Some v) as Hnew.
  { intros j v Hj. unfold h3. rewrite lookup_app_r by (subst n; lia).
    by replace (n + j - length h) with j by (subst n; lia). }
  pose proof (Hnew 0 vc eq_refl) as Hc3. rewrite Nat.add_0_r in Hc3.
  pose proof (Hnew 1 vp eq_refl) as Hp3. rewrite Nat.add_1_r in Hp3.
  pose proof (Hnew 2 vs eq_refl) as Hs3.
  replace (n + 2) with (S (S n)) in Hs3 by lia.
  pose proof (heap_wf_arena_ordered h3 Hwf3) as Hord3.
  destruct (lookup_lt_is_Some_2 h w Hw) as [vw Hvw].
  assert (h3 !! w = Some vw) as Hw3 by (by apply lookup_app_l_Some).
  destruct (IH h3 (S (S n)) Hwf3) as (new & r & Hrun & Hr & Hwf' & Hall & Hreach & Hder).
  { lia. }
  { eapply Forall_impl; [exact Hrest|]. intros p Hp. simpl in Hp. lia. }
  exists ([vc; vp; vs] ++ new), r. rewrite app_assoc. fold h3.
  split_and!; [done|done|done| | |].
  - apply Forall_app. split; [|done]. by repeat constructor.
  - intros u Hu. destruct (Hreach u Hu) as [Hge|[Hs|(p & Hp & Hpu)]].
    + left. subst n. lia.
    + destruct (reachable_cases h3 _ u vs Hs3 Hs) as [->|(c & Hc & Hcu)];
        [left; subst n; lia|].
      assert (c = acc ∨ c = S n) as [-> | ->] by (simpl in Hc; set_solver).
      { right. left. by apply (reachable_app_l h [vc; vp; vs]). }
      destruct (reachable_cases h3 _ u vp Hp3 Hcu) as [->|(c & Hc' & Hcu')];
        [left; subst n; lia|].
      assert (c = w ∨ c = n) as [-> | ->] by (simpl in Hc'; set_solver).
      * right. right. exists (w, x). split; [left|].
        by apply (reachable_app_l h [vc; vp; vs]).
      * left. rewrite (reachable_leaf h3 n u vc Hc3) by done. subst n. lia.
    + right. right. exists p. split; [by right|].
      apply (reachable_app_l h [vc; vp; vs]); [done| |done].
      by eapply Forall_forall in Hrest.
  - intros v Hv. rewrite Hder by lia. cbn [foldl fst snd].
    assert (foldl (λ a p, nadd a (nmul p.2 (derivative h3 p.1 v)))
              (derivative h3 (S (S n)) v) rest =
            foldl (λ a p, nadd a (nmul p.2 (derivative h p.1 v)))
              (derivative h3 (S (S n)) v) rest) as ->.
    { generalize (derivative h3 (S (S n)) v). clear -Hrest Hwf3.
      induction Hrest as [|p rest Hp _ IH']; intros a; [done|]. simpl.
      rewrite IH'. unfold h3. by rewrite (derivative_app_l h _ p.1 v Hwf3 Hp). }
    f_equal.
    rewrite (derivative_node h3 v (S (S n)) vs [(acc, of_int 1); (S n, of_int 1)]
               Hwf3) by (done || subst n; lia).
    cbn [foldr fst snd].
    rewrite (derivative_node h3 v (S n) vp [(w, x); (n, data_of h w)] Hwf3);
      [|subst n; lia|done|].
    2:{ simpl. unfold get_data. rewrite Hc3, Hw3. simpl.
        by rewrite (data_of_lookup h w vw Hvw). }
    cbn [foldr fst snd].
    rewrite (derivative_leaf h3 n v vc Hwf3 Hc3) by (done || subst n; lia).
    unfold h3. rewrite !(derivative_app_l h [vc; vp; vs]) by done. ring.
Qed.

Lemma foldl_indicator (δ : ref → num) (wx : list (ref * num)) (a : num) :
  (∀ p, p ∈ wx → δ p.1 = of_int 0) →
  foldl (λ a p, nadd a (nmul p.2 (δ p.1))) a wx = a.
Proof.
  revert a. induction wx as [|p wx IH]; intros a Hz; [done|]. simpl.
  rewrite IH by (intros q Hq; apply Hz; by right).
  rewrite Hz by left. ring.
Qed.

Lemma foldl_indicator_at (δ : ref → num) (ws : list ref) (xs : list num) j wj xj (a : num) :
  NoDup ws → ws !! j = Some wj → xs !! j = Some xj →
  δ wj = of_int 1 → (∀ w, w ∈ ws → w ≠ wj → δ w = of_int 0) →
  foldl (λ a p, nadd a (nmul p.2 (δ p.1))) a (zip ws xs) = nadd a xj.
Proof.
  intros Hnd. revert xs j a. induction Hnd as [|w ws Hw Hnd IH];
    intros xs j a Hj Hx H1 H0; [by rewrite lookup_nil in Hj|].
  destruct xs as [|x xs]; [by rewrite lookup_nil in Hx|].
  destruct j as [|j]; simpl in *.
  - injection Hj as ->. injection Hx as ->. rewrite foldl_indicator.
    + rewrite H1. ring.
    + intros [w' x'] Hin. simpl. apply H0.
      * right. by apply elem_of_zip_l in Hin.
      * intros ->. apply elem_of_zip_l in Hin. done.
  - rewrite (IH xs j _ Hj Hx H1).
    2:{ intros w' Hw' Hne. apply H0; [by right|done]. }
    rewrite H0; [ring|left|]. intros ->.
    apply Hw. by eapply list_elem_of_lookup_2.
Qed.

(** X19 (in exact arithmetic): the gradients of a linear neuron.  Let the
    bias and the weights of a linear neuron be distinct leaves of a store
    built by the operations, with every gradient zero.  Called on a list
    of numbers, the neuron returns a node [act], and [act.backward()]
    returns and leaves in each weight the input it was multiplied with,
    and [1] in the bias. *)
Theorem linear_neuron_gradients iter (h : heap num) (n : Neuron.t) (xs : list num) :
  order_valid iter → heap_wf h → (∀ i v, h !! i = Some v → grad v = of_int 0) →
  Neuron.nonlin n = false →
  NoDup (Neuron.b n :: Neuron.w n) →
  Forall (λ r, ∃ v, h !! r = Some v ∧ is_leaf v) (Neuron.b n :: Neuron.w n) →
  ∃ act h1,
    Neuron.__call__ n (ArgList (PyNumber <$> xs)) h =
      mkOutcome (Ok (Returns act)) h1 [] ∧
    res (backward iter act h1) = Ok tt ∧
    gradf (final (backward iter act h1)) (Neuron.b n) = of_int 1 ∧
    ∀ j wj xj, Neuron.w n !! j = Some wj → xs !! j = Some xj →
      gradf (final (backward iter act h1)) wj = xj.
Proof.
  intros Hiter Hwf Hzero Hlin Hnd Hleaves.
  apply NoDup_cons in Hnd as [Hb Hndw].
  apply Forall_cons in Hleaves as [(vb & Hvb & Hlb) Hlw].
  assert (∀ w, w ∈ Neuron.w n → ∃ v, h !! w = Some v ∧ is_leaf v) as Hlw'
    by (by apply Forall_forall).
  pose proof (lookup_lt_Some _ _ _ Hvb) as Hltb.
  destruct (sum_products_numbers (zip (Neuron.w n) xs) h (Neuron.b n) Hwf Hltb)
    as (new & act & Hrun & Hact & Hwf1 & Hall & Hreach & Hder).
  { apply Forall_forall. intros [w x] Hin. simpl.
    apply elem_of_zip_l in Hin. simpl in Hin.
    destruct (Hlw' w Hin) as (v & Hv & _). by eapply lookup_lt_Some. }
  set (h1 := h ++ new) in *.
  exists act, h1.
  assert (Neuron.__call__ n (ArgList (PyNumber <$> xs)) h =
          mkOutcome (Ok (Returns act)) h1 []) as Hcall.
  { unfold Neuron.__call__. rewrite zip_fmap_number.
    rewrite (run_bind_alloc _ _ _ _ _ Hrun), Hlin. reflexivity. }
  assert (∀ w u, w ∈ Neuron.w n → reachable h w u → u = w) as Hwleaf.
  { intros w u Hw Hu. destruct (Hlw' w Hw) as (v & Hv & Hl).
    by apply (reachable_leaf h w u v). }
  assert (res (backward iter act h1) = Ok tt) as Hres.
  { apply (backward_Ok_iff iter h1 act Hiter Hwf1 Hact).
    intros u vu Hu Hvu. destruct (Hreach u Hu) as [Hge|[Hbu|([w x] & Hp & Hpu)]].
    - apply (partials_mild h1 u vu Hwf1 Hvu).
      unfold h1 in Hvu. rewrite lookup_app_r in Hvu by done.
      eapply Forall_forall in Hall; [|by eapply list_elem_of_lookup_2]. tauto.
    - rewrite (reachable_leaf h _ u vb Hvb Hlb Hbu) in Hvu.
      unfold h1 in Hvu. rewrite lookup_app_l in Hvu by done.
      assert (vu = vb) as -> by congruence. by apply partials_leaf.
    - apply elem_of_zip_l in Hp. simpl in Hp, Hpu.
      rewrite (Hwleaf w u Hp Hpu) in Hvu. destruct (Hlw' w Hp) as (v & Hv & Hl).
      unfold h1 in Hvu. rewrite lookup_app_l in Hvu by (by eapply lookup_lt_Some).
      assert (vu = v) as -> by congruence. by apply partials_leaf. }
  assert (∀ i v, h1 !! i = Some v → grad v = of_int 0) as Hzero1.
  { intros i v Hi. unfold h1 in Hi.
    apply lookup_app_Some in Hi as [Hi|[_ Hi]]; [by eapply Hzero|].
    eapply Forall_forall in Hall; [|by eapply list_elem_of_lookup_2]. tauto. }
  assert (∀ v, v < length h →
            gradf (final (backward iter act h1)) v =
              foldl (λ a p, nadd a (nmul p.2 (derivative h p.1 v)))
                (derivative h (Neuron.b n) v) (zip (Neuron.w n) xs)) as Hgrad.
  { intros v Hv.
    rewrite (backward_computes_derivative iter h1 act Hiter Hwf1 Hact Hzero1 Hres).
    - by apply Hder.
    - unfold h1. rewrite length_app. lia. }
  split_and!; [done|done| |].
  - rewrite Hgrad by done.
    rewrite (foldl_indicator (λ w, derivative h w (Neuron.b n))).
    + by apply derivative_self.
    + intros [w x] Hin. simpl. apply elem_of_zip_l in Hin. simpl in Hin.
      destruct (Hlw' w Hin) as (v & Hv & Hl).
      apply (derivative_leaf h w _ v Hwf Hv Hl). by intros ->.
  - intros j wj xj Hj Hx.
    assert (wj ∈ Neuron.w n) as Hin by (by eapply list_elem_of_lookup_2).
    destruct (Hlw' wj Hin) as (vj & Hvj & Hlj).
    pose proof (lookup_lt_Some _ _ _ Hvj) as Hltj.
    rewrite Hgrad by done.
    rewrite (foldl_indicator_at (λ w, derivative h w wj) _ _ j wj xj) by
      (first [ done | by apply derivative_self
             | intros w Hw Hne; destruct (Hlw' w Hw) as (v & Hv & Hl);
               by apply (derivative_leaf h w wj v) ]).
    rewrite (derivative_leaf h (Neuron.b n) wj vb Hwf Hvb Hlb); [ring|].
    intros Heq. apply Hb. by rewrite Heq.
Qed.
End LinearNeuron.

(** * More examples *)

Section MoreExamples.
#[local] Existing Instance example_runtime.


Lemma polynomial_R_reaches (root u : ref) vu :
  polynomial_R !! u = Some vu → rule_defined polynomial_R (_backward vu).
Proof.
  intros Hu. destruct u as [|[|[|u]]]; simpl in Hu; simplify_eq; done.
Qed.

Lemma backward_returns_iff_witness :
  res (backward ascending 2 polynomial_R) = Ok tt.
Proof.
  apply (backward_returns_iff ascending polynomial_R 2 ascending_valid
           (proj1 polynomial_R_is_built)).
  - simpl. lia.
  - intros u vu _ Hu. by apply (polynomial_R_reaches 2 u vu).
Defined.

(** [backward] from [x * x] in the store of [x * x + x]: the sum is not
    reached. *)
Lemma backward_frame_witness :
  gradf (final (backward ascending 1 polynomial_R)) 1 = 1%R ∧
  final (backward ascending 1 polynomial_R) !! 2 = polynomial_R !! 2.
Proof.
  destruct (backward_frame ascending polynomial_R 1 ascending_valid
              (proj1 polynomial_R_is_built)) as [H1 H2].
  - simpl. lia.
  - split; [exact H1|]. apply H2. intros Hr.
    apply (reachable_le polynomial_R 1 2) in Hr; [lia|].
    apply heap_wf_arena_ordered, polynomial_R_is_built.
Defined.

(** [y = x * x] at [x = 2] over the integers, after one [y.backward()]:
    [x.grad] is [4]. *)
Definition squared_Z : heap Z :=
  final ((x ← __init__ 2%Z [] ""; __mul__ x (PyValue x)) []).

Definition squared_Z_after : heap Z := final (backward ascending 1 squared_Z).

Lemma squared_Z_after_wf : heap_wf squared_Z_after.
Proof.
  apply (grad_frame_wf squared_Z); [apply wgo_backward|].
  apply keeps_wf_final; [|apply heap_wf_nil].
  apply keeps_wf_bind; [apply leaf_wf|]. intros x. apply __mul___wf.
Qed.

(** A second [y.backward()] adds [4] to the [4] the first one left. *)
Lemma backward_accumulates_witness :
  gradf squared_Z_after 0 = 4%Z ∧
  res (backward ascending 1 (zero_grads squared_Z_after)) = Ok tt ∧
  gradf (final (backward ascending 1 squared_Z_after)) 0 =
    (gradf squared_Z_after 0 +
     gradf (final (backward ascending 1 (zero_grads squared_Z_after))) 0)%Z.
Proof.
  split; [by vm_compute|].
  assert (1 < length squared_Z_after) as H1 by (vm_compute; lia).
  assert (0 < length squared_Z_after) as H0 by (vm_compute; lia).
  assert (∀ w, reachable squared_Z_after 1 w → w ≠ 0 → w ≠ 1 →
            gradf squared_Z_after w = 0%Z) as Hz.
  { intros w Hw Hw0 Hw1.
    apply (reachable_le squared_Z_after 1 w) in Hw; [lia|].
    apply heap_wf_arena_ordered, squared_Z_after_wf. }
  assert (res (backward ascending 1 squared_Z_after) = Ok tt) as Hr by (by vm_compute).
  exact (backward_accumulates ascending squared_Z_after 1 0 ascending_valid
           squared_Z_after_wf H1 H0 (Nat.neq_0_succ 0) Hz Hr).
Defined.

Lemma product_rule_witness :
  let o := __mul__ 0 (PyValue 1) [leaf 3; leaf 4] in
  res o = Ok 2 ∧
  gradf (final (backward ascending 2 (final o))) 0 = (0 + 4 * 1)%float ∧
  gradf (final (backward ascending 2 (final o))) 1 = (0 + 3 * 1)%float.
Proof.
  destruct (product_rule ascending [leaf 3; leaf 4] 0 1 (leaf 3) (leaf 4)
              ascending_valid eq_refl eq_refl (leaf_is_leaf _) (leaf_is_leaf _))
    as (H1 & _ & _ & _ & H2 & _).
  destruct H2 as [Ha Hb]; [lia|]. split; [exact H1|]. split; [exact Ha|exact Hb].
Defined.

(** On the example platform [math.exp] overflows. *)
Lemma exp_contract_witness :
  exp 0 [leaf 1] = mkOutcome (Raise OverflowError) [leaf 1] [].
Proof.
  exact (exp_contract ascending [leaf 1] 0 (leaf 1)
           ascending_valid eq_refl (leaf_is_leaf _)).
Defined.

Lemma tanh_contract_witness :
  tanh 0 [leaf 1] = mkOutcome (Raise OverflowError) [leaf 1] [].
Proof.
  exact (tanh_contract ascending [leaf 1] 0 (leaf 1)
           ascending_valid eq_refl (leaf_is_leaf _)).
Defined.

Lemma division_by_zero_witness :
  let h := [leaf 1; leaf 0] in
  __truediv__ 0 (PyValue 1) h = mkOutcome (Raise ZeroDivisionError) h [] ∧
  __truediv__ 0 (PyNumber (-0)%float) h = mkOutcome (Raise ZeroDivisionError) h [] ∧
  __rtruediv__ 1 2%float h = mkOutcome (Raise ZeroDivisionError) h [].
Proof.
  apply (division_by_zero [leaf 1; leaf 0] 0 1 (leaf 1) (leaf 0) 2 (-0));
    reflexivity.
Defined.
End MoreExamples.

(** The leaves [a = 6] and [b = 3] over the reals. *)
Definition two_leaves_R : heap R := [fresh 6%R; fresh 3%R].

Lemma two_leaves_R_wf : heap_wf two_leaves_R.
Proof.
  apply (heap_wf_snoc [fresh 6%R]); [|apply node_wf_leaf].
  apply (heap_wf_snoc []); [apply heap_wf_nil|apply node_wf_leaf].
Qed.

Lemma two_leaves_R_zero i v : two_leaves_R !! i = Some v → grad v = 0%R.
Proof. destruct i as [|[|i]]; simpl; intros Hi; by simplify_eq. Qed.

Lemma sub_value_and_gradients_witness :
  let o := __sub__ 0 (PyValue 1) two_leaves_R in
  ∃ r, res o = Ok r ∧ data_of (final o) r = (6 - 3)%R ∧
    res (backward ascending r (final o)) = Ok tt ∧
    gradf (final (backward ascending r (final o))) 0 = 1%R ∧
    gradf (final (backward ascending r (final o))) 1 = (-1)%R.
Proof.
  apply (sub_value_and_gradients ascending two_leaves_R 0 1 (fresh 6%R) (fresh 3%R)
           ascending_valid two_leaves_R_wf two_leaves_R_zero);
    done.
Defined.

Lemma truediv_value_and_gradients_witness :
  let o := __truediv__ 0 (PyValue 1) two_leaves_R in
  ∃ r, res o = Ok r ∧ data_of (final o) r = (6 / 3)%R ∧
    res (backward ascending r (final o)) = Ok tt ∧
    gradf (final (backward ascending r (final o))) 0 = (/ 3)%R ∧
    gradf (final (backward ascending r (final o))) 1 = (- 6 / (3 * 3))%R.
Proof.
  apply (truediv_value_and_gradients ascending two_leaves_R 0 1 (fresh 6%R) (fresh 3%R)
           ascending_valid two_leaves_R_wf two_leaves_R_zero);
    try done.
  simpl. lra.
Defined.

Lemma derived_operator_values_witness :
  (∃ r, res (__rsub__ 0 2%R two_leaves_R) = Ok r ∧
        data_of (final (__rsub__ 0 2%R two_leaves_R)) r = (2 - 6)%R) ∧
  (∃ r, res (__rtruediv__ 0 2%R two_leaves_R) = Ok r ∧
        data_of (final (__rtruediv__ 0 2%R two_leaves_R)) r = (2 / 6)%R).
Proof.
  destruct (derived_operator_values two_leaves_R 0 (fresh 6%R) 2%R eq_refl)
    as (_ & _ & H3 & _ & H5).
  split; [exact H3|]. apply H5. simpl. lra.
Defined.

Lemma tanh_is_hyperbolic_tangent_witness :
  let o := tanh 0 two_leaves_R in
  res o = Ok 2 ∧ data_of (final o) 2 = Rtrigo_def.tanh 6 ∧
  (-1 < Rtrigo_def.tanh 6 < 1)%R.
Proof.
  destruct (tanh_is_hyperbolic_tangent ascending two_leaves_R 0 (fresh 6%R)
              ascending_valid eq_refl) as (H1 & H2 & H3 & _); [done|].
  split; [exact H1|]. split; [exact H2|exact H3].
Defined.

(** A network of one tanh neuron feeding one linear neuron, with all
    parameters zero, over the integers. *)
Definition narrow_MLP : MLP.t :=
  MLP.mk [Layer.mk [Neuron.mk [0; 1] 2 true]; Layer.mk [Neuron.mk [3] 4 false]].

Definition narrow_store : heap Z := fresh <$> [0; 0; 0; 0; 0]%Z.

Lemma MLP_shape_witness :
  ∃ m k', res (MLP.__init__ (λ _, 0%Z) 0 2 [1; 1] []) = Ok (m, k') ∧
    length (MLP.layers m) = 2 ∧
    MLP.layers m = MLP.layers narrow_MLP.
Proof.
  exists narrow_MLP, 3. split; [by vm_compute|].
  split; [|reflexivity].
  apply (MLP_shape (λ _, 0%Z) 0 2 [1; 1] [] narrow_MLP 3). by vm_compute.
Defined.

Lemma Layer_call_shape_witness :
  ∃ o, res (Neuron.__call__ (Neuron.mk [0; 1] 2 true)
              (ArgList [PyNumber 1%Z; PyNumber 2%Z]) narrow_store) =
         Ok (Returns o) ∧
       res (Layer.__call__ (Layer.mk [Neuron.mk [0; 1] 2 true])
              (ArgList [PyNumber 1%Z; PyNumber 2%Z]) narrow_store) =
         Ok (Returns (ArgValue o)).
Proof.
  assert (res (Layer.__call__ (Layer.mk [Neuron.mk [0; 1] 2 true])
                 (ArgList [PyNumber 1%Z; PyNumber 2%Z]) narrow_store) =
          Ok (Returns (ArgValue 11))) as Hrun by (by vm_compute).
  destruct (Layer_call_shape (Layer.mk [Neuron.mk [0; 1] 2 true])
              (ArgList [PyNumber 1%Z; PyNumber 2%Z]) narrow_store)
    as (_ & Hret & _).
  destruct (Hret _ Hrun) as (outs & _ & H1 & _).
  destruct (H1 _ eq_refl) as (o & Ho & Hy & _). exists o.
  split; [exact Ho|]. rewrite Hrun. by rewrite Hy.
Defined.

Lemma MLP_narrow_hidden_layer_witness :
  res (MLP.__call__ narrow_MLP (ArgList [PyNumber 1%Z; PyNumber 2%Z]) narrow_store) =
    Ok TypeError.
Proof.
  destruct (MLP_narrow_hidden_layer narrow_MLP [] (Layer.mk [Neuron.mk [0; 1] 2 true])
              (Layer.mk [Neuron.mk [3] 4 false]) []
              (ArgList [PyNumber 1%Z; PyNumber 2%Z]) narrow_store)
    as [H|[e H]]; [reflexivity|reflexivity|done|exact H|].
  vm_compute in H. discriminate H.
Defined.

Lemma Neuron_call_value_witness :
  ∃ new act,
    data_of (narrow_store ++ new) act = 0%Z ∧
    Neuron.__call__ (Neuron.mk [3] 4 false) (ArgList [PyNumber 7%Z]) narrow_store =
      mkOutcome (Ok (Returns act)) (narrow_store ++ new) [].
Proof.
  destruct (Neuron_call_value (Neuron.mk [3] 4 false) [PyNumber 7%Z] narrow_store)
    as (new & act & _ & Hd & _ & Hlin).
  - vm_compute. lia.
  - repeat constructor. 
  - by repeat constructor.
  - exists new, act. split; [exact Hd|]. by apply Hlin.
Defined.

Lemma linear_neuron_gradients_witness :
  ∃ act h1,
    Neuron.__call__ (Neuron.mk [0; 1] 2 false)
      (ArgList [PyNumber 7%Z; PyNumber 9%Z]) narrow_store =
      mkOutcome (Ok (Returns act)) h1 [] ∧
    gradf (final (backward ascending act h1)) 0 = 7%Z ∧
    gradf (final (backward ascending act h1)) 1 = 9%Z ∧
    gradf (final (backward ascending act h1)) 2 = 1%Z.
Proof.
  destruct (linear_neuron_gradients ascending narrow_store
              (Neuron.mk [0; 1] 2 false) [7; 9]%Z ascending_valid)
    as (act & h1 & Hc & _ & Hb & Hw).
  - apply heap_wf_fresh.
  - intros i v Hi. by apply (fresh_lookup _ _ _ Hi).
  - reflexivity.
  - apply (bool_decide_unpack _). by vm_compute.
  - repeat constructor; (eexists; split; [reflexivity|done]).
  - exists act, h1. split; [exact Hc|]. split; [by apply (Hw 0)|].
    split; [by apply (Hw 1)|exact Hb].
Defined.

